(** * post-matcher-ai: the similarity ranking of [src/postMatcher.ts]

    The source file holds two variants of the script.  The first one
    ([runSimilarityAnalysis], [processDocumentFile], [generateDocumentEmbeddings],
    [cosineSimilarity], [calculateSingleDocSimilarities], [computeAllSimilarities])
    validates the model output and ranks with an explicit loop; the second one
    ([main], [processFile], [embedDocs], [normalize], [dot], [topSimilar],
    [allSimilarities]) is the condensed rewrite.  Both are embedded here, function
    by function, under the names they have in the source.

    JavaScript numbers are IEEE 754 binary64 values: they are modelled by
    Rocq's primitive floats, whose operations are specified by [SpecFloat].
    Elements of a [Float32Array] are binary64 values that went through
    [fround].  Objects used as records or dictionaries are finite maps from
    property names to values.  A JavaScript exception is the [Throw] case of
    [result].  Where a statement bounds a rounding error, the binary64 results
    are compared with exact rationals. *)

From Stdlib Require Import ZArith Lia QArith Qpower Lqa Floats Bool List String Ascii.
From Stdlib Require Import Sorted Permutation.
From stdpp Require Import gmap strings list sorting.

Set Warnings "-inexact-float,-clear-no-such-hyp".
Local Open Scope string_scope.
Local Open Scope list_scope.
Local Open Scope Z_scope.

(** * Part I: the model *)

(** ** Values, objects and exceptions *)

(** The values a YAML front matter or a result record can hold.  [VObj] stands
    for any object (a date, a list, a nested mapping): the script only tests it
    for truthiness or turns it into a property key, so it carries the string
    that [ToString] gives for it. *)
Inductive jsval :=
  | VUndefined
  | VNull
  | VBool (b : bool)
  | VNum (x : float)
  | VStr (s : string)
  | VObj (repr : string).

Inductive exn :=
  | TypeError      (* a property read on [undefined] *)
  | ExternalError. (* the embedding model failed *)

Inductive result (A : Type) :=
  | Ok (a : A)
  | Throw (e : exn).
Arguments Ok {A} a.
Arguments Throw {A} e.

#[global] Instance result_ret : MRet result := @Ok.
#[global] Instance result_bind : MBind result :=
  fun A B f m => match m with Ok a => f a | Throw e => Throw e end.

(** [o.k]: a missing property reads as [undefined]. *)
Definition prop (o : gmap string jsval) (k : string) : jsval :=
  default VUndefined (o !! k).

(** [!v] is [negb (truthy v)]. *)
Definition truthy (v : jsval) : bool :=
  match v with
  | VUndefined | VNull => false
  | VBool b => b
  | VNum x => negb (is_zero x || is_nan x)
  | VStr s => negb (String.eqb s "")
  | VObj _ => true
  end.

Definition is_string (v : jsval) : bool :=
  match v with VStr _ => true | _ => false end.

(** [v === true]. *)
Definition is_true (v : jsval) : bool :=
  match v with VBool true => true | _ => false end.

(** Reading a property of [o]: a [TypeError] when [o] is [undefined]. *)
Definition deref {A} (o : option A) : result A :=
  match o with Some a => Ok a | None => Throw TypeError end.

(** ** Numbers *)

(** [Math.fround]: the nearest binary32 value, as a binary64 number.  This is
    what storing into a [Float32Array] does. *)
Definition fround (x : float) : float :=
  match Prim2SF x with
  | S754_finite s m e =>
      match binary_normalize 24 128 (cond_Zopp s (Zpos m)) e s with
      | S754_finite s' m' e' =>
          SF2Prim (binary_normalize prec emax (cond_Zopp s' (Zpos m')) e' s')
      | r => SF2Prim r
      end
  | _ => x
  end.

(** The integer [n] that [toFixed(2)] prints for the magnitude [m * 2^e]: the
    one for which [n / 100] is closest to it, the larger one on a tie. *)
Definition hundredths (m : positive) (e : Z) : Z :=
  if 0 <=? e then 100 * Zpos m * 2 ^ e
  else (200 * Zpos m + 2 ^ (- e)) / 2 ^ (1 - e).

(** [parseFloat(x.toFixed(2))], and [+x.toFixed(2)] alike: the two conversions
    agree on every string [toFixed] prints.  [toFixed] prints ["NaN"],
    ["Infinity"] and, from [1e21] on, the shortest representation, all of
    which parse back to [x]; a negative zero prints as ["0.00"]; otherwise it
    prints the sign and [hundredths] with two decimals, which parses to the
    binary64 value nearest to that decimal. *)
Definition toFixed2 (x : float) : float :=
  match Prim2SF x with
  | S754_finite s m e =>
      if (1e21 <=? abs x)%float then x
      else match hundredths m e with
           | Zpos n => SF2Prim (SFdiv prec emax (S754_finite s n 0) (S754_finite false 100 0))
           | _ => SF2Prim (S754_zero s)
           end
  | S754_zero _ => 0%float
  | _ => x
  end.

(** The sign of a [spec_float], [None] for NaN. *)
Definition SFsign (x : spec_float) : option comparison :=
  match x with
  | S754_nan => None
  | S754_zero _ => Some Eq
  | S754_infinity s | S754_finite s _ _ => Some (if s then Lt else Gt)
  end.

(** A key whose lexicographic order is the order of the values that are not NaN. *)
Definition SFkey (x : spec_float) : Z * Z * Z :=
  match x with
  | S754_infinity true => (-2, 0, 0)
  | S754_finite true m e => (-1, - e, Zneg m)
  | S754_zero _ => (0, 0, 0)
  | S754_finite false m e => (1, e, Zpos m)
  | S754_infinity false => (2, 0, 0)
  | S754_nan => (3, 0, 0)
  end.

Definition lex3 (a b : Z * Z * Z) : comparison :=
  match fst (fst a) ?= fst (fst b) with
  | Eq => match snd (fst a) ?= snd (fst b) with
          | Eq => snd a ?= snd b
          | c => c
          end
  | c => c
  end.

(** ** Arrays *)

(** [a[i]] of a typed array inside an arithmetic expression: [undefined]
    (out of range) counts as NaN. *)
Definition num_at (a : list float) (i : nat) : float := default nan (a !! i).

(** [for (let i = from; i < from + count; i++) s = body(s, i)]. *)
Fixpoint for_range {St} (body : St -> nat -> result St) (from count : nat) (s : St)
    : result St :=
  match count with
  | O => Ok s
  | S count' => s' ← body s from; for_range body (S from) count' s'
  end.

(** [l.reduce(f, acc)], the callback receiving the index as well. *)
Fixpoint reduce_from {A B} (f : B -> A -> nat -> result B) (i : nat) (acc : B) (l : list A)
    : result B :=
  match l with
  | [] => Ok acc
  | x :: l' => acc' ← f acc x i; reduce_from f (S i) acc' l'
  end.

(** [l.map(f)], the callback receiving the index as well. *)
Fixpoint map_from {A B} (f : A -> nat -> result B) (i : nat) (l : list A) : result (list B) :=
  match l with
  | [] => Ok []
  | x :: l' => y ← f x i; ys ← map_from f (S i) l'; Ok (y :: ys)
  end.

(** [l.filter(Boolean)] on a list of objects and [null]s. *)
Definition filter_Boolean {A} (l : list (option A)) : list A := omap id l.

(** [SortCompare] of ECMAScript: the comparator's result, NaN read as [+0]. *)
Definition SortCompare {A} (comparefn : A -> A -> float) (x y : A) : float :=
  let v := comparefn x y in if is_nan v then 0%float else v.

(** [Array.prototype.sort] is specified to be stable: [x] moves behind [y]
    only if the comparator puts it strictly after.  For a consistent
    comparator every stable sort returns the list computed here.  With the
    comparators of this script that is the case when no score is NaN; for a
    comparator that is not consistent the order is the engine's, this list
    is one of the orders ECMAScript permits, and [V8_sort_short] below is
    the one V8 returns. *)
Fixpoint sort_insert {A} (comparefn : A -> A -> float) (x : A) (l : list A) : list A :=
  match l with
  | [] => [x]
  | y :: l' =>
      if (0 <? SortCompare comparefn x y)%float then y :: sort_insert comparefn x l'
      else x :: y :: l'
  end.

Definition Array_sort {A} (comparefn : A -> A -> float) (l : list A) : list A :=
  foldr (sort_insert comparefn) [] l.

(** *** The sort of V8 on an inconsistent comparator

    A comparator that returns NaN is not consistent (NaN reads as "equal",
    and equal is then not transitive), and ECMAScript leaves the order to
    the engine.  Node.js runs V8, whose sort on fewer than 64 elements finds
    the run the array starts with, ascending or strictly descending, reverses
    a descending one ([CountAndMakeRun] in V8's [array-sort.tq]), and inserts
    the remaining elements one by one by binary search
    ([BinaryInsertionSort]).  The comparator is read through [SortCompare]. *)

(** The elements after [previousElement] that continue the run. *)
Fixpoint V8_run_length {A} (comparefn : A -> A -> float) (isDescending : bool)
    (previousElement : A) (rest : list A) : nat :=
  match rest with
  | [] => O
  | currentElement :: rest' =>
      let order := SortCompare comparefn currentElement previousElement in
      if (if isDescending then negb (order <? 0)%float else (order <? 0)%float) then O
      else S (V8_run_length comparefn isDescending currentElement rest')
  end.

(** The binary search for the place of [pivot] in [a[left .. right)]. *)
Fixpoint V8_search {A} (comparefn : A -> A -> float) (pivot : A) (a : list A)
    (fuel left right : nat) : nat :=
  match fuel with
  | O => left
  | S fuel' =>
      if (left <? right)%nat then
        let mid := (left + (right - left) / 2)%nat in
        match a !! mid with
        | Some x =>
            if (SortCompare comparefn pivot x <? 0)%float
            then V8_search comparefn pivot a fuel' left mid
            else V8_search comparefn pivot a fuel' (S mid) right
        | None => left
        end
      else left
  end.

(** [a[start]] moves to its place among [a[0 .. start)]. *)
Definition V8_insert {A} (comparefn : A -> A -> float) (a : list A) (start : nat) : list A :=
  match a !! start with
  | Some pivot =>
      let left := V8_search comparefn pivot a (S start) 0 start in
      take left a ++ pivot :: take (start - left) (drop left a) ++ drop (S start) a
  | None => a
  end.

Fixpoint V8_binary_insertion {A} (comparefn : A -> A -> float) (a : list A)
    (start count : nat) : list A :=
  match count with
  | O => a
  | S count' => V8_binary_insertion comparefn (V8_insert comparefn a start) (S start) count'
  end.

Definition V8_sort_short {A} (comparefn : A -> A -> float) (l : list A) : list A :=
  match l with
  | elementHigh :: elementLow :: rest =>
      let isDescending := (SortCompare comparefn elementLow elementHigh <? 0)%float in
      let runLength := S (S (V8_run_length comparefn isDescending elementLow rest)) in
      let a := if isDescending then rev (take runLength l) ++ drop runLength l else l in
      V8_binary_insertion comparefn a runLength (length l - runLength)
  | _ => l
  end.

(** [l.slice(0, end_)] for an integer [end_]: a negative one counts from the end. *)
Definition Array_slice0 {A} (l : list A) (end_ : Z) : list A :=
  let len := Z.of_nat (length l) in
  let final := if end_ <? 0 then Z.max (len + end_) 0 else Z.min end_ len in
  take (Z.to_nat final) l.

(** [data.slice(from, to)] of a typed array, for indices that are not negative. *)
Definition TypedArray_slice (data : list float) (from to : nat) : list float :=
  take (to - from)%nat (drop from data).

(** ** Regular expressions

    The patterns of [getPlainText] are embedded as syntax trees and run by a
    backtracking matcher that follows ECMAScript's: alternatives left to
    right, greedy and lazy star, multi-line anchors, lookahead.  Texts are
    lists of code units below 256. *)

Inductive regex :=
  | RE_empty
  | RE_class (f : ascii -> bool)
  | RE_bol
  | RE_eol
  | RE_seq (r1 r2 : regex)
  | RE_alt (r1 r2 : regex)
  | RE_star (greedy : bool) (r : regex)
  | RE_lookahead (r : regex).

Definition code (c : ascii) : N := N_of_ascii c.

(** Line terminators below 256: line feed and carriage return. *)
Definition is_line_terminator (c : ascii) : bool :=
  (code c =? 10)%N || (code c =? 13)%N.

(** [\s] below 256: tab, line feed, vertical tab, form feed, carriage return,
    space and no-break space.  [trim] strips the same set. *)
Definition is_space (c : ascii) : bool :=
  ((9 <=? code c)%N && (code c <=? 13)%N) || (code c =? 32)%N || (code c =? 160)%N.

Definition is_digit (c : ascii) : bool := (48 <=? code c)%N && (code c <=? 57)%N.

Definition is_upper (c : ascii) : bool := (65 <=? code c)%N && (code c <=? 90)%N.

Definition is_newline (c : ascii) : bool := (code c =? 10)%N.

(** The canonical form the [i] flag compares: ASCII letters in upper case. *)
Definition canonicalize (c : ascii) : ascii :=
  if (97 <=? code c)%N && (code c <=? 122)%N then ascii_of_N (code c - 32) else c.

Definition at_line_start (prev : option ascii) : bool :=
  match prev with None => true | Some c => is_line_terminator c end.

Definition at_line_end (s : list ascii) : bool :=
  match s with [] => true | c :: _ => is_line_terminator c end.

(** The iterations of a star: [n] bounds how many are left.  An iteration
    that consumes nothing is refused, as in ECMAScript, so [length s]
    iterations are all a star over [s] can make. *)
Definition star_loop
    (step : option ascii -> list ascii ->
            (option ascii -> list ascii -> option (list ascii)) -> option (list ascii))
    (greedy : bool) (k : option ascii -> list ascii -> option (list ascii))
    : nat -> option ascii -> list ascii -> option (list ascii) :=
  fix loop (n : nat) (p : option ascii) (s : list ascii) {struct n} :=
    match n with
    | O => k p s
    | S n' =>
        let iterate (_ : unit) :=
          step p s (fun p' s' => if (length s' <? length s)%nat then loop n' p' s' else None) in
        if greedy then
          match iterate tt with
          | Some rest => Some rest
          | None => k p s
          end
        else
          match k p s with
          | Some rest => Some rest
          | None => iterate tt
          end
    end.

(** [rmatch r prev s k]: match [r] at the head of [s], [prev] being the
    character before it, then continue with [k]; the first success in
    ECMAScript's order of choices. *)
Fixpoint rmatch (r : regex) (prev : option ascii) (s : list ascii)
    (k : option ascii -> list ascii -> option (list ascii)) : option (list ascii) :=
  match r with
  | RE_empty => k prev s
  | RE_class f =>
      match s with
      | c :: s' => if f c then k (Some c) s' else None
      | [] => None
      end
  | RE_bol => if at_line_start prev then k prev s else None
  | RE_eol => if at_line_end s then k prev s else None
  | RE_seq r1 r2 => rmatch r1 prev s (fun p s' => rmatch r2 p s' k)
  | RE_alt r1 r2 =>
      match rmatch r1 prev s k with
      | Some rest => Some rest
      | None => rmatch r2 prev s k
      end
  | RE_star greedy r' => star_loop (rmatch r') greedy k (length s) prev s
  | RE_lookahead r' =>
      match rmatch r' prev s (fun _ rest => Some rest) with
      | Some _ => k prev s
      | None => None
      end
  end.

(** The text left after a match of [r] at the head of [s], if there is one. *)
Definition match_at (r : regex) (prev : option ascii) (s : list ascii) : option (list ascii) :=
  rmatch r prev s (fun _ rest => Some rest).

(** [s.replace(/r/g, rep)]: scan from the left; at a match, write [rep] of
    the matched text and go on behind it ([skip] counts the matched characters
    still to pass); after an empty match, copy one character and go on. *)
Fixpoint replace_from (r : regex) (rep : list ascii -> list ascii)
    (prev : option ascii) (skip : nat) (s : list ascii) : list ascii :=
  match s with
  | [] =>
      match match_at r prev [] with
      | Some _ => rep []
      | None => []
      end
  | c :: s' =>
      match skip with
      | S n => replace_from r rep (Some c) n s'
      | O =>
          match match_at r prev s with
          | Some rest =>
              let m := (length s - length rest)%nat in
              rep (take m s) ++
              match m with
              | O => c :: replace_from r rep (Some c) 0 s'
              | S m' => replace_from r rep (Some c) m' s'
              end
          | None => c :: replace_from r rep (Some c) 0 s'
          end
      end
  end.

Definition replace_all (r : regex) (rep : list ascii -> list ascii) (s : list ascii)
    : list ascii :=
  replace_from r rep None 0 s.

(** Building blocks for the patterns. *)
Definition re_char (c : ascii) : regex := RE_class (Ascii.eqb c).

Definition re_char_ci (c : ascii) : regex :=
  RE_class (fun x => Ascii.eqb (canonicalize x) (canonicalize c)).

Fixpoint re_lit (s : string) : regex :=
  match s with
  | EmptyString => RE_empty
  | String c s' => RE_seq (re_char c) (re_lit s')
  end.

Fixpoint re_lit_ci (s : string) : regex :=
  match s with
  | EmptyString => RE_empty
  | String c s' => RE_seq (re_char_ci c) (re_lit_ci s')
  end.

Fixpoint re_repeat (n : nat) (r : regex) : regex :=
  match n with
  | O => RE_empty
  | S n' => RE_seq r (re_repeat n' r)
  end.

(** [r{n,}] *)
Definition re_at_least (n : nat) (r : regex) : regex :=
  RE_seq (re_repeat n r) (RE_star true r).

Definition re_opt (r : regex) : regex := RE_alt r RE_empty.

Definition re_dot : regex := RE_class (fun c => negb (is_line_terminator c)).
Definition re_s : regex := RE_class is_space.
Definition re_d : regex := RE_class is_digit.
Definition re_nl : regex := RE_class is_newline.

Fixpoint re_seqs (rs : list regex) : regex :=
  match rs with
  | [] => RE_empty
  | r :: rs' => RE_seq r (re_seqs rs')
  end.

Fixpoint re_alts (r : regex) (rs : list regex) : regex :=
  match rs with
  | [] => r
  | r' :: rs' => RE_alt r (re_alts r' rs')
  end.

(** [/^import .*?$/gm] *)
Definition re_import : regex :=
  re_seqs [RE_bol; re_lit "import "; RE_star false re_dot; RE_eol].

(** [/^export .*?$/gm] *)
Definition re_export : regex :=
  re_seqs [RE_bol; re_lit "export "; RE_star false re_dot; RE_eol].

(** [/^\s*(TLDR|Introduction|Conclusion|Summary|Quick Setup Guide|Rules?)\s*$/gim] *)
Definition re_heading : regex :=
  re_seqs [RE_bol; RE_star true re_s;
           re_alts (re_lit_ci "TLDR")
             [re_lit_ci "Introduction"; re_lit_ci "Conclusion"; re_lit_ci "Summary";
              re_lit_ci "Quick Setup Guide";
              RE_seq (re_lit_ci "Rule") (re_opt (re_char_ci "s"))];
           RE_star true re_s; RE_eol].

(** [/^[A-Z\s]{4,}$/gm] *)
Definition re_allcaps : regex :=
  re_seqs [RE_bol; re_at_least 4 (RE_class (fun c => is_upper c || is_space c)); RE_eol].

(** [/^\|.*\|$/gm] *)
Definition re_table : regex :=
  re_seqs [RE_bol; re_char "|"; RE_star true re_dot; re_char "|"; RE_eol].

(** The pattern of the sixth replacement: a marker [Rule\s\d+:], the rest of
    its line as far as a lookahead for [\s*Rule\s\d+:] allows (greedy), all of
    it one group, which is therefore the whole match. *)
Definition re_rule_marker : regex :=
  re_seqs [re_lit "Rule"; re_s; re_at_least 1 re_d; re_char ":"].

Definition re_rule : regex :=
  re_seqs [re_rule_marker; RE_star true re_dot;
           RE_lookahead (RE_seq (RE_star true re_s) re_rule_marker)].

Definition nl : ascii := "010"%char.
Definition sp : ascii := " "%char.

Definition erase (_ : list ascii) : list ascii := [].
Definition keep_then_newline (matched : list ascii) : list ascii := matched ++ [nl].
Definition to_paragraph_break (_ : list ascii) : list ascii := [nl; nl].
Definition to_space (_ : list ascii) : list ascii := [sp].

(** The removals of imports, exports, headings, capital lines, table rows,
    and the line break put behind a rule marker that another one follows. *)
Definition strip_patterns (text : list ascii) : list ascii :=
  let text := replace_all re_import erase text in
  let text := replace_all re_export erase text in
  let text := replace_all re_heading erase text in
  let text := replace_all re_allcaps erase text in
  let text := replace_all re_table erase text in
  replace_all re_rule keep_then_newline text.

Fixpoint drop_while (f : ascii -> bool) (s : list ascii) : list ascii :=
  match s with
  | c :: s' => if f c then drop_while f s' else s
  | [] => []
  end.

(** [s.trim()] *)
Definition trim (s : list ascii) : list ascii :=
  rev (drop_while is_space (rev (drop_while is_space s))).

(** [.replace(/\n{3,}/g, '\n\n').replace(/\n{2}/g, '\n\n').replace(/\n/g, ' ')
     .replace(/\s{2,}/g, ' ').trim()] *)
Definition normalize_whitespace (text : list ascii) : list ascii :=
  let text := replace_all (re_at_least 3 re_nl) to_paragraph_break text in
  let text := replace_all (re_repeat 2 re_nl) to_paragraph_break text in
  let text := replace_all re_nl to_space text in
  let text := replace_all (re_at_least 2 re_s) to_space text in
  trim text.

(** ** Documents and the external collaborators *)

Record Document := {
  path : string;
  content : string;
  frontmatter : gmap string jsval;
}.

(** What the feature-extraction pipeline returns: [dims] may be missing. *)
Record EmbeddingOutput := {
  dims : option (list nat);
  data : list float;
}.

Definition TOP_N_RESULTS : Z := 5.
Definition TOP_N : Z := 5.

(** What a run leaves behind: it returns early without writing, it writes the
    result map, or it ends in the [catch] with exit code 1. *)
Inductive RunOutcome :=
  | Exited
  | Saved (results : gmap string (list (gmap string jsval)))
  | Failed (e : exn).

Section PostMatcher.

(** [String(await remark().use(strip).process(md))] *)
Variable strip_markdown : string -> string.

(** [matter(fs.readFileSync(path, 'utf-8'))]: the body and the parsed front
    matter, [None] when reading or parsing throws. *)
Variable read_matter : string -> option (string * gmap string jsval).

(** The feature-extraction pipeline, called with the texts and the
    [normalize] option ([pooling] is ['mean'] in both variants). *)
Variable extractor : list string -> bool -> result EmbeddingOutput.

(** [Math.hypot] of the elements: ECMAScript leaves its precision to the engine. *)
Variable Math_hypot : list float -> float.

(** [Number::toString], used when a number becomes a property key. *)
Variable Number_toString : float -> string.

(** *** Text normalisation (both variants) *)

Definition getPlainText (md : string) : string :=
  let text := list_ascii_of_string (strip_markdown md) in
  string_of_list_ascii (normalize_whitespace (strip_patterns text)).

(** *** Loading *)

Definition processDocumentFile (filePath : string) : option Document :=
  match read_matter filePath with
  | None => None
  | Some (markdownContent, parsedFrontmatter) =>
      let slug := prop parsedFrontmatter "slug" in
      if negb (is_string slug) || negb (truthy slug) then None
      else if is_true (prop parsedFrontmatter "draft") then None
      else Some {| path := filePath;
                   content := getPlainText markdownContent;
                   frontmatter := parsedFrontmatter |}
  end.

Definition loadAllDocuments (filePaths : list string) : list Document :=
  omap processDocumentFile filePaths.

Definition processFile (path : string) : option Document :=
  match read_matter path with
  | None => None
  | Some (content, data) =>
      if negb (truthy (prop data "slug")) || truthy (prop data "draft") then None
      else Some {| path := path; content := getPlainText content; frontmatter := data |}
  end.

Definition loadDocs (paths : list string) : list Document :=
  omap processFile paths.

(** *** Embedding *)

Definition generateDocumentEmbeddings (docs : list Document) : result (list (list float)) :=
  if (length docs =? 0)%nat then Ok []
  else
    let documentTexts := map content docs in
    embeddingsOutput ← extractor documentTexts true;
    match dims embeddingsOutput with
    | None => Ok []
    | Some ds =>
        match ds with
        | numDocsOutput :: embeddingDim :: _ =>
            if negb (numDocsOutput =? length docs)%nat then Ok []
            else Ok (map (fun i => TypedArray_slice (data embeddingsOutput)
                                     (i * embeddingDim) ((i + 1) * embeddingDim))
                         (seq 0 numDocsOutput))
        | _ => Ok []
        end
    end.

Definition normalize (vec : list float) : list float :=
  let len := Math_hypot vec in
  if negb (truthy (VNum len)) then vec
  else map (fun x => fround (x / len)) vec.

(** [const [n, dim] = res.dims]: a missing [dims] throws, a missing element is
    [undefined]; [Array.from({ length: undefined })] is empty, and a slice
    between NaN bounds is empty. *)
Definition embedDocs (docs : list Document) : result (list (list float)) :=
  if (length docs =? 0)%nat then Ok []
  else
    res ← extractor (map content docs) false;
    ds ← deref (dims res);
    let n := default 0%nat (ds !! 0%nat) in
    Ok (map (fun i => normalize
                        match ds !! 1%nat with
                        | Some dim => TypedArray_slice (data res) (i * dim) ((i + 1) * dim)
                        | None => []
                        end)
            (seq 0 n)).

(** *** Pairwise similarity *)

Definition cosineSimilarity (vecA vecB : option (list float)) : result float :=
  a ← deref vecA;
  for_range (fun dotProduct i =>
               b ← deref vecB;
               Ok (dotProduct + num_at a i * num_at b i)%float)
            0%nat (length a) 0%float.

Definition dot (a b : option (list float)) : result float :=
  a' ← deref a;
  reduce_from (fun sum ai i => b' ← deref b; Ok (sum + ai * num_at b' i)%float)
              0%nat 0%float a'.

(** *** Ranking *)

(** [{ ...d.frontmatter, path: d.path, similarity }] *)
Definition similarityEntry (d : Document) (similarity : float) : gmap string jsval :=
  <["similarity" := VNum similarity]> (<["path" := VStr (path d)]> (frontmatter d)).

(** [r.similarity] as a number. *)
Definition similarity_of (r : gmap string jsval) : float :=
  match r !! "similarity" with
  | Some (VNum x) => x
  | _ => nan
  end.

(** [(a, b) => b.similarity - a.similarity] *)
Definition by_similarity_desc (a b : gmap string jsval) : float :=
  (similarity_of b - similarity_of a)%float.

Definition calculateSingleDocSimilarities
    (sourceDocIndex : nat) (allDocuments : list Document)
    (allEmbeddings : list (list float)) (topN : Z) : result (list (gmap string jsval)) :=
  let sourceEmbedding := allEmbeddings !! sourceDocIndex in
  similarities ←
    for_range (fun similarities j =>
                 if decide (sourceDocIndex = j) then Ok similarities
                 else
                   targetDoc ← deref (allDocuments !! j);
                   let targetEmbedding := allEmbeddings !! j in
                   similarityScore ← cosineSimilarity sourceEmbedding targetEmbedding;
                   Ok (similarities ++ [similarityEntry targetDoc (toFixed2 similarityScore)]))
              0%nat (length allDocuments) [];
  Ok (Array_slice0 (Array_sort by_similarity_desc similarities) topN).

Definition topSimilar (idx : nat) (docs : list Document) (embs : list (list float)) (n : Z)
    : result (list (gmap string jsval)) :=
  mapped ←
    map_from (fun d j =>
                if decide (j = idx) then Ok None
                else s ← dot (embs !! idx) (embs !! j);
                     Ok (Some (similarityEntry d (toFixed2 s))))
             0%nat docs;
  Ok (Array_slice0 (Array_sort by_similarity_desc (filter_Boolean mapped)) n).

(** *** Aggregation *)

(** [ToPropertyKey] *)
Definition ToPropertyKey (v : jsval) : string :=
  match v with
  | VUndefined => "undefined"
  | VNull => "null"
  | VBool true => "true"
  | VBool false => "false"
  | VNum x => Number_toString x
  | VStr s => s
  | VObj repr => repr
  end.

Definition slug_key (d : Document) : string := ToPropertyKey (prop (frontmatter d) "slug").

(** [o[k] = v] on an object literal: the key ["__proto__"] reaches the setter
    inherited from [Object.prototype] and adds no property. *)
Definition obj_assign {V} (k : string) (v : V) (o : gmap string V) : gmap string V :=
  if String.eqb k "__proto__" then o else <[k := v]> o.

Definition computeAllSimilarities (documents : list Document)
    (embeddings : list (list float)) (topN : Z)
    : result (gmap string (list (gmap string jsval))) :=
  reduce_from (fun resultsBySlug doc i =>
                 let sourceSlug := slug_key doc in
                 topSimilarDocs ← calculateSingleDocSimilarities i documents embeddings topN;
                 Ok (obj_assign sourceSlug topSimilarDocs resultsBySlug))
              0%nat ∅ documents.

(** [Object.fromEntries]: every entry defines an own property, later entries
    replacing earlier ones. *)
Definition Object_fromEntries {V} (entries : list (string * V)) : gmap string V :=
  foldl (fun o kv => <[kv.1 := kv.2]> o) ∅ entries.

Definition allSimilarities (docs : list Document) (embs : list (list float)) (n : Z)
    : result (gmap string (list (gmap string jsval))) :=
  entries ← map_from (fun d i => top ← topSimilar i docs embs n; Ok (slug_key d, top))
                     0%nat docs;
  Ok (Object_fromEntries entries).

(** *** The runs *)

Definition runSimilarityAnalysis (filePaths : list string) : RunOutcome :=
  if (length filePaths =? 0)%nat then Exited
  else
    let documents := loadAllDocuments filePaths in
    if (length documents =? 0)%nat then Exited
    else
      match generateDocumentEmbeddings documents with
      | Throw e => Failed e
      | Ok embeddings =>
          if (length embeddings =? 0)%nat then Exited
          else
            match computeAllSimilarities documents embeddings TOP_N_RESULTS with
            | Throw e => Failed e
            | Ok similarityResults => Saved similarityResults
            end
      end.

Definition main (files : list string) : RunOutcome :=
  if (length files =? 0)%nat then Exited
  else
    let docs := loadDocs files in
    if (length docs =? 0)%nat then Exited
    else
      match embedDocs docs with
      | Throw e => Failed e
      | Ok embs =>
          if (length embs =? 0)%nat then Exited
          else
            match allSimilarities docs embs TOP_N with
            | Throw e => Failed e
            | Ok results => Saved results
            end
      end.

End PostMatcher.

(** ** Vocabulary of the statements *)

(** The rounded score the rankings give document [j] as a neighbour of [idx]. *)
Definition scoreOf (embs : list (list float)) (idx j : nat) : float :=
  match dot (embs !! idx) (embs !! j) with
  | Ok s => toFixed2 s
  | Throw _ => nan
  end.

(** The documents other than the source, each with its corpus index, in corpus order. *)
Definition candidates (idx : nat) (docs : list Document) : list (nat * Document) :=
  filter (fun p => p.1 <> idx) (imap (fun j d => (j, d)) docs).

(** The record the rankings build for a candidate. *)
Definition entry_of (embs : list (list float)) (idx : nat) (p : nat * Document)
    : gmap string jsval :=
  similarityEntry p.2 (scoreOf embs idx p.1).

(** The comparator, on candidates. *)
Definition rank_cmp (embs : list (list float)) (idx : nat) (p q : nat * Document) : float :=
  (scoreOf embs idx q.1 - scoreOf embs idx p.1)%float.

Definition ranked (embs : list (list float)) (idx : nat) (docs : list Document) (n : Z)
    : list (nat * Document) :=
  Array_slice0 (Array_sort (rank_cmp embs idx) (candidates idx docs)) n.

(** No number of the list is followed by a larger one: each is at most its
    predecessor, in the order of the binary64 numbers. *)
Definition non_increasing (l : list float) : Prop :=
  forall i x y, l !! i = Some x -> l !! S i = Some y -> (y <=? x)%float = true.

(** ** A corpus of three documents

    The scenario of the specification: documents A, B and C with the unit
    vectors [1, 0], [0.8, 0.6] and [-1, 0], held in [Float32Array]s. *)

Definition docA : Document :=
  {| path := "a.md"; content := "alpha"; frontmatter := {[ "slug" := VStr "A" ]} |}.
Definition docB : Document :=
  {| path := "b.md"; content := "beta"; frontmatter := {[ "slug" := VStr "B" ]} |}.
Definition docC : Document :=
  {| path := "c.md"; content := "gamma"; frontmatter := {[ "slug" := VStr "C" ]} |}.

Definition corpus3 : list Document := [docA; docB; docC].

Definition embeddings3 : list (list float) :=
  [map fround [1; 0]; map fround [0.8; 0.6]; map fround [-1; 0]]%float.

(** The same corpus with an embedding that holds NaN. *)
Definition embeddings_nan : list (list float) := [[1]; [nan]; [1]]%float.

(** Two documents that share a slug. *)
Definition docA_copy : Document :=
  {| path := "a-copy.md"; content := "alpha again"; frontmatter := {[ "slug" := VStr "A" ]} |}.

(** A stand-in for [Number::toString] where no slug is a number. *)
Definition no_numbers (_ : float) : string := "NaN".

(** The model output is unusable for [n] texts: no [dims], fewer than two
    dimensions, or a first dimension other than [n]. *)
Definition malformed_output (out : EmbeddingOutput) (n : nat) : Prop :=
  match dims out with
  | None => True
  | Some ds => (length ds < 2)%nat \/ ds !! 0%nat <> Some n
  end.

(** A markup converter on plain prose: like remark, it returns the text
    with a final line feed.  And a file system with one valid post. *)
Definition plain_prose (md : string) : string := md ++ String nl "".

Definition one_post (p : string) : option (string * gmap string jsval) :=
  if String.eqb p "post.md" then Some ("Hello world", {[ "slug" := VStr "hello" ]}) else None.

(** Model outputs with a single dimension, and with one row too many. *)
Definition flat_model (_ : list string) (_ : bool) : result EmbeddingOutput :=
  Ok {| dims := Some [1%nat]; data := [1%float] |}.

Definition extra_row_model (_ : list string) (_ : bool) : result EmbeddingOutput :=
  Ok {| dims := Some [2%nat; 1%nat]; data := [1%float; 1%float] |}.

(** A file system whose only post has a number for a slug. *)
Definition numbered_post (_ : string) : option (string * gmap string jsval) :=
  Some ("Hello world", {[ "slug" := VNum 42 ]}).

(** A file system with two published posts and a draft, and a model that
    answers two texts with two rows of two numbers. *)
Definition two_posts_and_draft (p : string) : option (string * gmap string jsval) :=
  if String.eqb p "a.md" then Some ("alpha", {[ "slug" := VStr "A" ]})
  else if String.eqb p "b.md" then Some ("beta", {[ "slug" := VStr "B" ]})
  else if String.eqb p "wip.md" then
    Some ("gamma", <[ "draft" := VBool true ]> {[ "slug" := VStr "W" ]})
  else None.

Definition two_row_model (texts : list string) (_ : bool) : result EmbeddingOutput :=
  Ok {| dims := Some [length texts; 2%nat];
        data := map fround [1; 0; 0.8; 0.6]%float |}.

(** The square root of the sum of squares, one way to compute [Math.hypot]. *)
Definition sqrt_of_squares (vec : list float) : float :=
  PrimFloat.sqrt (fold_left (fun sum x => sum + x * x) vec 0)%float.

(** ** Vocabulary of the text normalisation *)

(** The head of a list fails [f] (or there is none). *)
Definition head_fails (f : ascii -> bool) (s : list ascii) : Prop :=
  match s with
  | c :: _ => f c = false
  | [] => True
  end.

Definition not_newline (c : ascii) : Prop := is_newline c = false.

(** No two whitespace characters in a row. *)
Fixpoint no_space_pair (s : list ascii) : Prop :=
  match s with
  | c1 :: s' =>
      match s' with
      | c2 :: _ => is_space c1 && is_space c2 = false
      | [] => True
      end /\ no_space_pair s'
  | [] => True
  end.

(** The pattern [r] matches at no position of [s], [prev] being the
    character before [s]: the end of the text is a position too. *)
Fixpoint no_match_from (r : regex) (prev : option ascii) (s : list ascii) : bool :=
  match match_at r prev s with
  | Some _ => false
  | None =>
      match s with
      | [] => true
      | c :: s' => no_match_from r (Some c) s'
      end
  end.

(** None of the six patterns of [getPlainText] matches anywhere in [text]. *)
Definition pattern_free (text : list ascii) : bool :=
  forallb (fun r => no_match_from r None text)
          [re_import; re_export; re_heading; re_allcaps; re_table; re_rule].

(** A text is free of stripped markup for a converter when the converter
    returns it as it is, or with the line feed that remark puts at the end,
    and none of the six patterns matches anywhere in what it returns. *)
Definition markup_free (strip_markdown : string -> string) (t : string) : Prop :=
  (strip_markdown t = t \/ strip_markdown t = (t ++ String nl "")%string)
  /\ pattern_free (list_ascii_of_string (strip_markdown t)) = true.

(** Prose whose second line continues a first line that is the word "export". *)
Definition wrapped_prose : string := String "e" (String "x" (String "p" (String "o"
  (String "r" (String "t" (String nl "figures rose")))))).

(** ** Further vocabulary and sample inputs *)

(** A piece of one line: no line terminator in it. *)
Definition one_line (l : list ascii) : bool :=
  forallb (fun c => negb (is_line_terminator c)) l.

(** [/^kw.*?$/gm], the shape of the import and export patterns. *)
Definition re_statement (kw : string) : regex :=
  re_seqs [RE_bol; re_lit kw; RE_star false re_dot; RE_eol].

(** A ranking for [idx] needs the source vector as soon as there is another
    document, and the vector of every other document unless the source
    vector is empty. *)
Definition missing_embedding (idx : nat) (docs : list Document) (embs : list (list float))
    : Prop :=
  exists j d, docs !! j = Some d /\ j <> idx
              /\ (embs !! idx = None \/ (embs !! j = None /\ embs !! idx <> Some [])).

(** A front matter on which the two loaders cannot differ: its slug is a
    string or falsy, and its draft flag is [true] or falsy. *)
Definition plain_front_matter (fm : gmap string jsval) : bool :=
  (is_string (prop fm "slug") || negb (truthy (prop fm "slug")))
  && (is_true (prop fm "draft") || negb (truthy (prop fm "draft"))).


(** A model that answers with a single row of two numbers, and one that
    answers with no [dims]. *)
Definition one_row_model (_ : list string) (_ : bool) : result EmbeddingOutput :=
  Ok {| dims := Some [1%nat; 2%nat]; data := map fround [1; 0]%float |}.

Definition no_dims_model (_ : list string) (_ : bool) : result EmbeddingOutput :=
  Ok {| dims := None; data := map fround [1; 0]%float |}.

(** A model that answers with three rows of two numbers. *)
Definition three_row_model (_ : list string) (_ : bool) : result EmbeddingOutput :=
  Ok {| dims := Some [3%nat; 2%nat]; data := map fround [1; 0; 0.8; 0.6; -1; 0]%float |}.

(** [topSimilar] on an engine whose [sort] is [sort]. *)
Definition topSimilar_on
    (sort : (gmap string jsval -> gmap string jsval -> float) ->
            list (gmap string jsval) -> list (gmap string jsval))
    (idx : nat) (docs : list Document) (embs : list (list float)) (n : Z)
    : result (list (gmap string jsval)) :=
  mapped ←
    map_from (fun d j =>
                if decide (j = idx) then Ok None
                else s ← dot (embs !! idx) (embs !! j);
                     Ok (Some (similarityEntry d (toFixed2 s))))
             0%nat docs;
  Ok (Array_slice0 (sort by_similarity_desc (filter_Boolean mapped)) n).

(** Seven documents and a source; the fourth has NaN in its embedding, the
    last two score 1 each. *)
Definition numbered (i : string) : Document :=
  {| path := i; content := i; frontmatter := {[ "slug" := VStr i ]} |}.

Definition corpus8 : list Document :=
  [numbered "d0"; numbered "d1"; numbered "d2"; numbered "d3"; numbered "d4";
   numbered "d5"; numbered "d6"; numbered "source"].

Definition embeddings8 : list (list float) :=
  [[0.5]; [2]; [2]; [nan]; [1.5]; [1]; [1]; [1]]%float.

(** ** Vocabulary of the numeric statements

    A finite binary64 number is a rational: the statements about rounding
    compare what the code computes with the exact sums and quotients. *)

(** The magnitude [m * 2^e] of a finite number; 0 for the others. *)
Definition SFmag (x : spec_float) : Q :=
  match x with
  | S754_finite _ m e => (inject_Z (Zpos m) * 2 ^ e)%Q
  | _ => 0%Q
  end.

Definition SFsign_bit (x : spec_float) : bool :=
  match x with
  | S754_zero s | S754_infinity s | S754_finite s _ _ => s
  | S754_nan => false
  end.

Definition SFfinite (x : spec_float) : bool :=
  match x with
  | S754_zero _ | S754_finite _ _ _ => true
  | _ => false
  end.

(** [r] is the number [z >= 0] rounded into the format, with sign [s]: zero
    or a finite number of the format, at most one unit in the last place
    away from [z]. *)
Definition rounds_to (prec emax : Z) (s : bool) (z : Q) (r : spec_float) : Prop :=
  (r = S754_zero s \/ exists m e, r = S754_finite s m e /\ bounded prec emax m e = true)
  /\ (SFmag r <= z + (2 ^ (1 - prec) * z + 2 ^ SpecFloat.emin prec emax))%Q
  /\ (z <= SFmag r + (2 ^ (1 - prec) * z + 2 ^ SpecFloat.emin prec emax))%Q.

(** Values of the format that are not negative. *)
Definition SFnonneg (prec emax : Z) (r : spec_float) : Prop :=
  SFfinite r = true /\ SpecFloat.valid_binary prec emax r = true /\ SFsign_bit r = false.

(** The exact value of a finite binary64 number. *)
Definition number (x : float) : Q :=
  match Prim2SF x with
  | S754_finite s m e =>
      if s then (- (inject_Z (Zpos m) * 2 ^ e))%Q else (inject_Z (Zpos m) * 2 ^ e)%Q
  | _ => 0%Q
  end.

(** Neither NaN nor infinite. *)
Definition finite_number (x : float) : bool := SFfinite (Prim2SF x).

Definition magnitude (x : float) : Q := SFmag (Prim2SF x).

(** The square of the L2 norm, exactly. *)
Definition norm2 (v : list float) : Q :=
  fold_right (fun x acc => (number x * number x + acc)%Q) 0%Q v.

(** Every element is finite and the L2 norm is within [t] of 1, for
    [0 <= t <= 1]: the bounds are those of the square of the norm, which is
    a rational. *)
Definition unit_within (t : Q) (v : list float) : Prop :=
  forallb finite_number v = true
  /\ ((1 - t) * (1 - t) <= norm2 v)%Q /\ (norm2 v <= (1 + t) * (1 + t))%Q.

(** [len] is positive and is the L2 norm of [v] up to the relative error [d]:
    what [Math.hypot], which ECMAScript leaves implementation-approximated,
    is expected to return. *)
Definition norm_within (d : Q) (v : list float) (len : float) : Prop :=
  finite_number len = true /\ (0 < number len)%Q
  /\ ((1 - d) * (1 - d) * norm2 v <= number len * number len)%Q
  /\ (number len * number len <= (1 + d) * (1 + d) * norm2 v)%Q.

(** The exact sum of the squares of the elements divided by [L]. *)
Definition quotients2 (L : Q) (v : list float) : Q :=
  fold_right (fun x acc => (magnitude x / L * (magnitude x / L) + acc)%Q) 0%Q v.

(** The running sum after [k] products whose exact sum is [total]: finite,
    not negative, and within the accumulated rounding error of [total]. *)
Definition sum_within (k : nat) (total : Q) (acc : float) : Prop :=
  finite_number acc = true /\ SFsign_bit (Prim2SF acc) = false
  /\ (magnitude acc <= total * (1 + 3 * inject_Z (Z.of_nat k) * 2 ^ (-52))
                       + 8 * inject_Z (Z.of_nat k) * 2 ^ (-1074))%Q
  /\ (total * (1 - 3 * inject_Z (Z.of_nat k) * 2 ^ (-52))
      - 8 * inject_Z (Z.of_nat k) * 2 ^ (-1074) <= magnitude acc)%Q.

(** How far from 1 the similarity of a vector with itself can be, for [n]
    elements and an L2 norm within [t] of 1. *)
Definition self_similarity_tolerance (t : Q) (n : nat) : Q :=
  (2 * t + t * t + inject_Z (Z.of_nat n) * 2 ^ (-48))%Q.

(** * Part II: properties *)

(** ** Binary64 arithmetic

    The comparator of both rankings is a subtraction, so the order of the
    output rests on one fact of IEEE 754 arithmetic: a difference is positive
    exactly when its first operand is the larger one.  It is proved here from
    the specification of the operations, for any format. *)

Section SpecFloatSign.
Variables prec emax : Z.
Hypothesis Hprec : 0 < prec.
Local Abbreviation emin := (SpecFloat.emin prec emax).
Local Abbreviation fexp := (SpecFloat.fexp prec emax).

Lemma digits2_pos_bounds (m : positive) :
  2 ^ (Zpos (digits2_pos m) - 1) <= Zpos m < 2 ^ Zpos (digits2_pos m).
Proof.
  induction m as [p IH | p IH |]; cbn [digits2_pos].
  - rewrite Pos2Z.inj_succ, Pos2Z.inj_xI.
    replace (Z.succ (Zpos (digits2_pos p)) - 1) with (Z.succ (Zpos (digits2_pos p) - 1)) by lia.
    rewrite !Z.pow_succ_r by lia.
    generalize dependent (2 ^ (Zpos (digits2_pos p) - 1)).
    generalize dependent (2 ^ Zpos (digits2_pos p)). intros; lia.
  - rewrite Pos2Z.inj_succ. change (Zpos p~0) with (2 * Zpos p).
    replace (Z.succ (Zpos (digits2_pos p)) - 1) with (Z.succ (Zpos (digits2_pos p) - 1)) by lia.
    rewrite !Z.pow_succ_r by lia.
    generalize dependent (2 ^ (Zpos (digits2_pos p) - 1)).
    generalize dependent (2 ^ Zpos (digits2_pos p)). intros; lia.
  - cbn. lia.
Qed.

Lemma shr_1_m r : 0 <= shr_m r -> shr_m (shr_1 r) = shr_m r / 2.
Proof.
  destruct r as [m b s]; cbn [shr_m shr_1]. intros Hm.
  destruct m as [| [p | p |] | p]; cbn [shr_m]; try lia.
  - reflexivity.
  - rewrite Pos2Z.inj_xI. apply Z.div_unique with 1; lia.
  - change (Zpos p~0) with (2 * Zpos p). apply Z.div_unique with 0; lia.
  - reflexivity.
Qed.

Lemma iter_shr_1_m p : forall r, 0 <= shr_m r ->
  shr_m (SpecFloat.iter_pos shr_1 p r) = shr_m r / 2 ^ Zpos p.
Proof.
  induction p as [p IH | p IH |]; intros r Hr; cbn [SpecFloat.iter_pos].
  - assert (H1 : 0 <= shr_m (shr_1 r)) by (rewrite shr_1_m by lia; apply Z.div_pos; lia).
    assert (H2 : 0 <= shr_m (SpecFloat.iter_pos shr_1 p (shr_1 r))).
    { rewrite IH by lia. apply Z.div_pos; [lia | apply Z.pow_pos_nonneg; lia]. }
    rewrite IH, IH, shr_1_m by lia.
    rewrite !Z.div_div by (try apply Z.pow_pos_nonneg; lia).
    f_equal. replace (Zpos p~1) with (Zpos p + Zpos p + 1) by lia.
    rewrite !Z.pow_add_r by lia. ring.
  - assert (H2 : 0 <= shr_m (SpecFloat.iter_pos shr_1 p r)).
    { rewrite IH by lia. apply Z.div_pos; [lia | apply Z.pow_pos_nonneg; lia]. }
    rewrite IH, IH by lia.
    rewrite !Z.div_div by (try apply Z.pow_pos_nonneg; lia).
    f_equal. replace (Zpos p~0) with (Zpos p + Zpos p) by lia.
    rewrite !Z.pow_add_r by lia. ring.
  - rewrite shr_1_m by lia. now rewrite Z.pow_1_r.
Qed.

Lemma shr_record_of_loc_m m l : shr_m (shr_record_of_loc m l) = m.
Proof. destruct l as [| []]; reflexivity. Qed.

(* Shifting a positive mantissa to its canonical exponent keeps it positive,
   as long as the exponent it starts from is not below [emin]. *)
Lemma shr_fexp_pos m e l :
  0 < m -> emin <= e ->
  0 < shr_m (fst (shr_fexp prec emax m e l)) /\ emin <= snd (shr_fexp prec emax m e l).
Proof.
  intros Hm He. unfold shr_fexp, shr.
  destruct m as [| p | p]; try lia. cbn [Zdigits2].
  pose proof (digits2_pos_bounds p) as [Hlo Hhi].
  set (d := Zpos (digits2_pos p)) in *.
  destruct (fexp (d + e) - e) as [| n | n] eqn:Hn; cbn [fst snd];
    rewrite ?shr_record_of_loc_m; try (split; lia).
  assert (Hnd : Zpos n = d - prec).
  { unfold SpecFloat.fexp in Hn. lia. }
  rewrite iter_shr_1_m by (rewrite shr_record_of_loc_m; lia).
  rewrite shr_record_of_loc_m. split; [| lia].
  apply Z.div_str_pos. split; [apply Z.pow_pos_nonneg; lia |].
  apply Z.le_trans with (2 ^ (d - 1)); [| lia].
  apply Z.pow_le_mono_r; lia.
Qed.

Lemma round_nearest_even_pos m l : 0 < m -> 0 < round_nearest_even m l.
Proof.
  intros Hm. destruct l as [| []]; cbn [round_nearest_even]; try lia.
  destruct (Z.even m); lia.
Qed.

Lemma binary_round_aux_sign s m e l :
  0 < m -> emin <= e ->
  SFsign (binary_round_aux prec emax s m e l) = Some (if s then Lt else Gt).
Proof.
  intros Hm He. unfold binary_round_aux.
  pose proof (shr_fexp_pos m e l Hm He) as [H1 H1e].
  destruct (shr_fexp prec emax m e l) as [mrs' e']. cbn [fst snd] in *.
  pose proof (round_nearest_even_pos (shr_m mrs') (loc_of_shr_record mrs') H1) as H2.
  pose proof (shr_fexp_pos _ e' loc_Exact H2 H1e) as [H3 _].
  destruct (shr_fexp prec emax _ e' loc_Exact) as [mrs'' e'']. cbn [fst snd] in *.
  destruct (shr_m mrs'') as [| q | q]; try lia.
  destruct (e'' <=? emax - prec); reflexivity.
Qed.

Lemma shl_align_exp mx ex ex' : emin <= ex -> emin <= ex' -> emin <= snd (shl_align mx ex ex').
Proof. unfold shl_align. destruct (ex' - ex); cbn; lia. Qed.

Lemma binary_normalize_sign m e sz :
  emin <= e ->
  SFsign (binary_normalize prec emax m e sz) = Some (m ?= 0).
Proof.
  intros He. unfold binary_normalize, binary_round.
  destruct m as [| p | p]; [reflexivity | |].
  - pose proof (shl_align_exp p e (fexp (Zpos (digits2_pos p) + e)) He) as Hs.
    destruct (shl_align p e _) as [mz ez]. cbn [snd] in Hs.
    rewrite binary_round_aux_sign; [reflexivity | lia |].
    apply Hs. unfold SpecFloat.fexp. lia.
  - pose proof (shl_align_exp p e (fexp (Zpos (digits2_pos p) + e)) He) as Hs.
    destruct (shl_align p e _) as [mz ez]. cbn [snd] in Hs.
    rewrite binary_round_aux_sign; [reflexivity | lia |].
    apply Hs. unfold SpecFloat.fexp. lia.
Qed.

End SpecFloatSign.

Section SpecFloatCompare.
Variables prec emax : Z.
Hypothesis Hprec : 0 < prec.
Local Abbreviation emin := (SpecFloat.emin prec emax).
Local Abbreviation fexp := (SpecFloat.fexp prec emax).

Lemma shl_align_fst mx ex ez :
  ez <= ex -> Zpos (fst (shl_align mx ex ez)) = Zpos mx * 2 ^ (ex - ez).
Proof.
  intros Hle. unfold shl_align.
  destruct (ez - ex) as [| d | d] eqn:Hd; cbn [fst]; try lia.
  - replace (ex - ez) with 0 by lia. lia.
  - replace (ex - ez) with (Zpos d) by lia.
    change (Pos.iter xO mx d) with (shift_pos d mx).
    rewrite shift_pos_correct, Z.pow_pos_fold. lia.
Qed.

Lemma bounded_canonical m e :
  bounded prec emax m e = true ->
  emin <= e /\ Zpos (digits2_pos m) <= prec /\ (emin < e -> Zpos (digits2_pos m) = prec).
Proof.
  unfold bounded, canonical_mantissa, SpecFloat.fexp.
  intros H. apply andb_prop in H as [H _]. apply Z.eqb_eq in H. lia.
Qed.

(* Magnitudes of two canonical mantissas, aligned on the smaller exponent,
   compare as the pairs (exponent, mantissa) do. *)
Lemma aligned_compare mx ex my ey :
  bounded prec emax mx ex = true -> bounded prec emax my ey = true ->
  (Zpos (fst (shl_align mx ex (Z.min ex ey))) ?= Zpos (fst (shl_align my ey (Z.min ex ey))))
  = match ex ?= ey with
    | Lt => Lt
    | Gt => Gt
    | Eq => Pos.compare_cont Eq mx my
    end.
Proof.
  intros Hx Hy.
  apply bounded_canonical in Hx as (Hex & Hdx & Hnx).
  apply bounded_canonical in Hy as (Hey & Hdy & Hny).
  pose proof (digits2_pos_bounds mx) as [Hxlo Hxhi].
  pose proof (digits2_pos_bounds my) as [Hylo Hyhi].
  rewrite !shl_align_fst by lia.
  assert (Hmono : forall a b, 0 <= a <= b -> 2 ^ a <= 2 ^ b)
    by (intros; apply Z.pow_le_mono_r; lia).
  assert (Hstep : forall k, 0 < k -> 2 * 1 <= 2 ^ k).
  { intros k Hk. change (2 * 1) with (2 ^ 1). apply Hmono. lia. }
  destruct (Z.compare_spec ex ey) as [Heq | Hlt | Hgt].
  - subst ey. rewrite Z.min_id, Z.sub_diag, !Z.mul_1_r. reflexivity.
  - rewrite Z.min_l by lia. rewrite Z.sub_diag, Z.mul_1_r.
    apply Z.compare_lt_iff.
    specialize (Hny ltac:(lia)). rewrite Hny in *.
    pose proof (Hmono (Zpos (digits2_pos mx)) prec ltac:(lia)) as H1.
    pose proof (Hstep (ey - ex) ltac:(lia)) as H2.
    assert (H3 : 2 ^ prec = 2 * 2 ^ (prec - 1)).
    { rewrite <- Z.pow_succ_r by lia. f_equal. lia. }
    nia.
  - rewrite Z.min_r by lia. rewrite Z.sub_diag, Z.mul_1_r.
    apply Z.compare_gt_iff.
    specialize (Hnx ltac:(lia)). rewrite Hnx in *.
    pose proof (Hmono (Zpos (digits2_pos my)) prec ltac:(lia)) as H1.
    pose proof (Hstep (ex - ey) ltac:(lia)) as H2.
    assert (H3 : 2 ^ prec = 2 * 2 ^ (prec - 1)).
    { rewrite <- Z.pow_succ_r by lia. f_equal. lia. }
    nia.
Qed.

Lemma SFcompare_finite sx mx ex sy my ey :
  bounded prec emax mx ex = true -> bounded prec emax my ey = true ->
  SFcompare (S754_finite sx mx ex) (S754_finite sy my ey)
  = Some (cond_Zopp sx (Zpos (fst (shl_align mx ex (Z.min ex ey))))
          ?= cond_Zopp sy (Zpos (fst (shl_align my ey (Z.min ex ey))))).
Proof.
  intros Hx Hy. pose proof (aligned_compare mx ex my ey Hx Hy) as H.
  cbn [SFcompare]. f_equal.
  destruct sx, sy; cbn [cond_Zopp].
  - rewrite Z.compare_opp.
    rewrite (Z.compare_antisym (Zpos (fst (shl_align mx ex (Z.min ex ey))))), H.
    now destruct (ex ?= ey).
  - reflexivity.
  - reflexivity.
  - rewrite H. reflexivity.
Qed.

(* The sign of a difference, read off the comparison of its operands. *)
Lemma SFsub_sign x y :
  SpecFloat.valid_binary prec emax x = true -> SpecFloat.valid_binary prec emax y = true ->
  match SFcompare x y with
  | Some Lt => SFsign (SFsub prec emax y x) = Some Gt
  | Some Gt => SFsign (SFsub prec emax y x) = Some Lt
  | Some Eq => SFsign (SFsub prec emax y x) = Some Eq \/ SFsign (SFsub prec emax y x) = None
  | None => SFsign (SFsub prec emax y x) = None
  end.
Proof.
  intros Vx Vy.
  destruct x as [sx | sx | | sx mx ex], y as [sy | sy | | sy my ey];
    try lazymatch goal with
    | |- context [SFcompare (S754_finite _ _ _) (S754_finite _ _ _)] => idtac
    | _ => solve [ repeat match goal with s : bool |- _ => destruct s end; cbn; auto ]
    end.
  cbn [SpecFloat.valid_binary] in Vx, Vy.
  rewrite (SFcompare_finite _ _ _ _ _ _ Vx Vy).
  cbn [SFsub].
  apply bounded_canonical in Vx as (Hex & _). apply bounded_canonical in Vy as (Hey & _).
  rewrite (binary_normalize_sign prec emax Hprec) by lia.
  rewrite <- Z.compare_sub, (Z.min_comm ey ex), (Z.compare_antisym _ (cond_Zopp sy _)).
  destruct (_ ?= _); cbn; auto.
Qed.

End SpecFloatCompare.

Section SpecFloatOrder.

Lemma SFcompare_key x y :
  x <> S754_nan -> y <> S754_nan -> SFcompare x y = Some (lex3 (SFkey x) (SFkey y)).
Proof.
  intros Hx Hy.
  destruct x as [sx | sx | | sx mx ex], y as [sy | sy | | sy my ey]; try congruence;
    try (destruct sx); try (destruct sy); try reflexivity; cbn; f_equal; unfold lex3; cbn;
    try reflexivity.
  rewrite Z.compare_opp, (Z.compare_antisym ex ey).
  destruct (ex ?= ey); reflexivity.
Qed.

Lemma lex3_le_trans a b c : lex3 a b <> Gt -> lex3 b c <> Gt -> lex3 a c <> Gt.
Proof.
  destruct a as [[a1 a2] a3], b as [[b1 b2] b3], c as [[c1 c2] c3].
  unfold lex3; cbn [fst snd].
  destruct (Z.compare_spec a1 b1), (Z.compare_spec b1 c1), (Z.compare_spec a1 c1);
    try lia; try congruence;
    destruct (Z.compare_spec a2 b2), (Z.compare_spec b2 c2), (Z.compare_spec a2 c2);
    try lia; try congruence;
    destruct (Z.compare_spec a3 b3), (Z.compare_spec b3 c3), (Z.compare_spec a3 c3);
    try lia; congruence.
Qed.

Lemma lex3_antisym a b : lex3 b a = CompOpp (lex3 a b).
Proof.
  destruct a as [[a1 a2] a3], b as [[b1 b2] b3]. unfold lex3; cbn [fst snd].
  rewrite (Z.compare_antisym a1 b1), (Z.compare_antisym a2 b2), (Z.compare_antisym a3 b3).
  destruct (a1 ?= b1), (a2 ?= b2), (a3 ?= b3); reflexivity.
Qed.

Lemma SFleb_not_nan x y : SFleb x y = true -> x <> S754_nan /\ y <> S754_nan.
Proof. destruct x, y; cbn; split; congruence. Qed.

Lemma SFleb_trans x y z : SFleb x y = true -> SFleb y z = true -> SFleb x z = true.
Proof.
  intros Hxy Hyz.
  pose proof (SFleb_not_nan _ _ Hxy) as [Hx Hy]. pose proof (SFleb_not_nan _ _ Hyz) as [_ Hz].
  unfold SFleb in *.
  rewrite SFcompare_key in * by assumption.
  pose proof (lex3_le_trans (SFkey x) (SFkey y) (SFkey z)) as H.
  destruct (lex3 (SFkey x) (SFkey y)), (lex3 (SFkey y) (SFkey z)), (lex3 (SFkey x) (SFkey z));
    try reflexivity; try discriminate; exfalso; apply H; congruence.
Qed.

Lemma SFltb_false_leb x y :
  x <> S754_nan -> y <> S754_nan -> SFltb x y = false -> SFleb y x = true.
Proof.
  intros Hx Hy. unfold SFltb, SFleb.
  rewrite (SFcompare_key x y), (SFcompare_key y x), (lex3_antisym (SFkey x)) by assumption.
  destruct (lex3 (SFkey x) (SFkey y)); cbn; congruence.
Qed.

Lemma SFltb_leb x y : SFltb x y = true -> SFleb x y = true.
Proof. unfold SFltb, SFleb. destruct (SFcompare x y) as [[]|]; congruence. Qed.

Lemma SFeqb_not_ltb x y : SFeqb x y = true -> SFltb x y = false /\ SFltb y x = false.
Proof.
  unfold SFeqb, SFltb. intros H.
  assert (Hx : x <> S754_nan) by (destruct x, y; cbn in H; congruence).
  assert (Hy : y <> S754_nan) by (destruct x, y; cbn in H; congruence).
  rewrite (SFcompare_key x y), (SFcompare_key y x), (lex3_antisym (SFkey x)) in * by assumption.
  destruct (lex3 (SFkey x) (SFkey y)); cbn; split; congruence.
Qed.

Lemma SFsign_pos r : SFltb (S754_zero false) r = true <-> SFsign r = Some Gt.
Proof. destruct r as [s | [] | | [] m e]; cbn; split; congruence. Qed.

Lemma SFsign_neg r : SFltb r (S754_zero false) = true <-> SFsign r = Some Lt.
Proof. destruct r as [s | [] | | [] m e]; cbn; split; congruence. Qed.

End SpecFloatOrder.

(** ** Binary64 numbers: the sign of a difference is the order of its operands *)

Lemma Prim2SF_zero : Prim2SF 0%float = S754_zero false.
Proof. reflexivity. Qed.

Lemma float_sub_pos (x y : float) : (0 <? y - x)%float = (x <? y)%float.
Proof.
  rewrite !FloatAxioms.ltb_spec, FloatAxioms.sub_spec, Prim2SF_zero.
  pose proof (SFsub_sign prec emax ltac:(reflexivity) (Prim2SF x) (Prim2SF y)
                (Prim2SF_valid x) (Prim2SF_valid y)) as H.
  unfold SF64sub. unfold SFltb at 2.
  destruct (SFcompare (Prim2SF x) (Prim2SF y)) as [[] |].
  - destruct H as [H | H]; destruct (SFltb _ _) eqn:E; try reflexivity;
      apply SFsign_pos in E; congruence.
  - apply SFsign_pos. exact H.
  - destruct (SFltb _ _) eqn:E; try reflexivity. apply SFsign_pos in E; congruence.
  - destruct (SFltb _ _) eqn:E; try reflexivity. apply SFsign_pos in E; congruence.
Qed.

Lemma float_sub_neg (x y : float) : (y - x <? 0)%float = (y <? x)%float.
Proof.
  rewrite !FloatAxioms.ltb_spec, FloatAxioms.sub_spec, Prim2SF_zero.
  pose proof (SFsub_sign prec emax ltac:(reflexivity) (Prim2SF x) (Prim2SF y)
                (Prim2SF_valid x) (Prim2SF_valid y)) as H.
  unfold SF64sub. unfold SFltb at 2.
  assert (Hx : Prim2SF x = S754_nan \/ Prim2SF x <> S754_nan)
    by (destruct (Prim2SF x); auto; right; congruence).
  assert (Hy : Prim2SF y = S754_nan \/ Prim2SF y <> S754_nan)
    by (destruct (Prim2SF y); auto; right; congruence).
  destruct Hx as [Hx | Hx]; [rewrite Hx; now destruct (Prim2SF y) |].
  destruct Hy as [Hy | Hy]; [rewrite Hy; now destruct (Prim2SF x) |].
  rewrite (SFcompare_key _ _ Hx Hy) in H. rewrite (SFcompare_key _ _ Hy Hx), lex3_antisym.
  destruct (lex3 (SFkey (Prim2SF x)) (SFkey (Prim2SF y))); cbn [CompOpp].
  - destruct H as [H | H]; destruct (SFltb _ _) eqn:E; try reflexivity;
      apply SFsign_neg in E; congruence.
  - destruct (SFltb _ _) eqn:E; try reflexivity. apply SFsign_neg in E; congruence.
  - apply SFsign_neg. exact H.
Qed.

Lemma is_nan_spec (x : float) : is_nan x = false <-> Prim2SF x <> S754_nan.
Proof.
  unfold is_nan. rewrite FloatAxioms.eqb_spec. unfold SFeqb.
  destruct (Prim2SF x) as [s | s | | s m e] eqn:E;
    try destruct s; cbn; rewrite ?Z.compare_refl, ?Pos.compare_cont_refl; cbn;
    split; congruence.
Qed.

Lemma float_leb_trans (x y z : float) :
  (x <=? y)%float = true -> (y <=? z)%float = true -> (x <=? z)%float = true.
Proof. rewrite !FloatAxioms.leb_spec. apply SFleb_trans. Qed.

Lemma float_ltb_false_leb (x y : float) :
  is_nan x = false -> is_nan y = false -> (x <? y)%float = false -> (y <=? x)%float = true.
Proof.
  intros Hx Hy. rewrite FloatAxioms.ltb_spec, FloatAxioms.leb_spec.
  apply SFltb_false_leb; now apply is_nan_spec.
Qed.

Lemma float_ltb_leb (x y : float) : (x <? y)%float = true -> (x <=? y)%float = true.
Proof. rewrite FloatAxioms.ltb_spec, FloatAxioms.leb_spec. apply SFltb_leb. Qed.

Lemma float_eqb_not_ltb (x y : float) :
  (x =? y)%float = true -> (x <? y)%float = false /\ (y <? x)%float = false.
Proof. rewrite FloatAxioms.eqb_spec, !FloatAxioms.ltb_spec. apply SFeqb_not_ltb. Qed.

Lemma is_nan_true (x : float) : is_nan x = true -> Prim2SF x = S754_nan.
Proof.
  intros H. destruct (Prim2SF x) eqn:E; try reflexivity;
    assert (Hn : is_nan x = false) by (apply is_nan_spec; congruence); congruence.
Qed.

Lemma float_pos_not_nan (v : float) : (0 <? v)%float = true -> is_nan v = false.
Proof.
  intros H. destruct (is_nan v) eqn:E; [| reflexivity].
  apply is_nan_true in E. rewrite FloatAxioms.ltb_spec, E in H. discriminate.
Qed.

(** ** Arrays: the stable sort and the slice *)

Section ArraySort.
Context {A : Type}.
Variable comparefn : A -> A -> float.

Lemma SortCompare_pos x y :
  (0 <? SortCompare comparefn x y)%float = (0 <? comparefn x y)%float.
Proof.
  unfold SortCompare. destruct (is_nan (comparefn x y)) eqn:E; [| reflexivity].
  destruct (0 <? comparefn x y)%float eqn:E'; [| reflexivity].
  apply float_pos_not_nan in E'. congruence.
Qed.

Lemma sort_insert_perm x l : sort_insert comparefn x l ≡ₚ x :: l.
Proof.
  induction l as [| y l IH]; cbn; [reflexivity |].
  destruct (0 <? _)%float; [| reflexivity].
  rewrite IH. apply Permutation_swap.
Qed.

Lemma Array_sort_perm l : Array_sort comparefn l ≡ₚ l.
Proof.
  induction l as [| x l IH]; cbn; [reflexivity |].
  rewrite sort_insert_perm. now constructor.
Qed.

Lemma Array_sort_length l : length (Array_sort comparefn l) = length l.
Proof. now rewrite Array_sort_perm. Qed.

End ArraySort.

Lemma sort_insert_map {A B} (g : A -> B) (f : B -> B -> float) x l :
  sort_insert f (g x) (map g l) = map g (sort_insert (fun a b => f (g a) (g b)) x l).
Proof.
  induction l as [| y l IH]; cbn; [reflexivity |].
  unfold SortCompare.
  destruct (0 <? _)%float; cbn; [now rewrite IH | reflexivity].
Qed.

Lemma Array_sort_map {A B} (g : A -> B) (f : B -> B -> float) l :
  Array_sort f (map g l) = map g (Array_sort (fun a b => f (g a) (g b)) l).
Proof.
  induction l as [| x l IH]; cbn; [reflexivity |].
  fold (Array_sort f (map g l)). rewrite IH. apply sort_insert_map.
Qed.

Lemma Array_sort_ext {A} (f g : A -> A -> float) l :
  (forall x y, f x y = g x y) -> Array_sort f l = Array_sort g l.
Proof.
  intros Hfg. induction l as [| x l IH]; cbn; [reflexivity |].
  fold (Array_sort f l) (Array_sort g l). rewrite IH.
  generalize (Array_sort g l). intros l'.
  induction l' as [| y l' IH']; cbn; [reflexivity |].
  unfold SortCompare. now rewrite Hfg, IH'.
Qed.

Lemma Array_slice0_map {A B} (g : A -> B) l n :
  Array_slice0 (map g l) n = map g (Array_slice0 l n).
Proof. unfold Array_slice0. rewrite length_map. symmetry. apply fmap_take. Qed.

Lemma Array_slice0_take {A} (l : list A) n : exists m, Array_slice0 l n = take m l.
Proof. unfold Array_slice0. eauto. Qed.

Lemma Array_slice0_length {A} (l : list A) (k : nat) :
  length (Array_slice0 l (Z.of_nat k)) = (k `min` length l)%nat.
Proof.
  unfold Array_slice0. destruct (Z.ltb_spec (Z.of_nat k) 0); [lia |].
  rewrite length_take. lia.
Qed.

Lemma StronglySorted_take {A} (R : A -> A -> Prop) l m :
  StronglySorted R l -> StronglySorted R (take m l).
Proof.
  intros H. rewrite <- (take_drop m l) in H. now apply StronglySorted_app_1_l in H.
Qed.

Lemma StronglySorted_lookup {A} (R : A -> A -> Prop) l p q x y :
  StronglySorted R l -> (p < q)%nat -> l !! p = Some x -> l !! q = Some y -> R x y.
Proof.
  intros H. revert p q. induction H as [| a l Hs IH Hall]; intros p q Hpq Hp Hq.
  - now rewrite lookup_nil in Hp.
  - destruct q as [| q]; [lia |]. cbn in Hq.
    destruct p as [| p]; cbn in Hp.
    + injection Hp as <-. rewrite Forall_forall in Hall. apply Hall.
      eapply list_elem_of_lookup_2. exact Hq.
    + apply (IH p q); [lia | assumption..].
Qed.

(** A ranking by descending key: the comparator is [key y - key x]. *)
Section SortByKey.
Context {A : Type}.
Variable key : A -> float.

Let cmp (x y : A) : float := (key y - key x)%float.

Lemma sort_insert_desc x l :
  is_nan (key x) = false -> Forall (fun y => is_nan (key y) = false) l ->
  StronglySorted (fun a b => (key b <=? key a)%float = true) l ->
  StronglySorted (fun a b => (key b <=? key a)%float = true) (sort_insert cmp x l).
Proof.
  intros Hx Hl Hs. induction Hs as [| y l Hs IH Hall]; cbn.
  - repeat constructor.
  - apply Forall_cons in Hl as [Hy Hl].
    rewrite SortCompare_pos. unfold cmp at 1. rewrite float_sub_pos.
    destruct (key x <? key y)%float eqn:E.
    + constructor; [now apply IH |].
      rewrite Forall_forall. intros z Hz.
      rewrite sort_insert_perm in Hz. apply elem_of_cons in Hz as [-> | Hz].
      * now apply float_ltb_leb.
      * rewrite Forall_forall in Hall. now apply Hall.
    + assert (Hyx : (key y <=? key x)%float = true) by now apply float_ltb_false_leb.
      constructor; [now constructor |].
      constructor; [assumption |].
      eapply Forall_impl; [exact Hall |].
      intros z Hz. cbn in Hz. eapply float_leb_trans; eassumption.
Qed.

Lemma Array_sort_desc l :
  Forall (fun y => is_nan (key y) = false) l ->
  StronglySorted (fun a b => (key b <=? key a)%float = true) (Array_sort cmp l).
Proof.
  induction l as [| x l IH]; intros Hl; cbn; [constructor |].
  apply Forall_cons in Hl as [Hx Hl].
  apply sort_insert_desc; [assumption | | now apply IH].
  eapply Permutation_Forall; [symmetry; apply Array_sort_perm | assumption].
Qed.

(** Stability: elements that enter in the order of [ix] and tie on the key
    leave in the order of [ix]. *)
Variable ix : A -> nat.

Lemma sort_insert_stable x l :
  Forall (fun y => (ix x < ix y)%nat) l ->
  StronglySorted (fun a b => (key a =? key b)%float = true -> (ix a < ix b)%nat) l ->
  StronglySorted (fun a b => (key a =? key b)%float = true -> (ix a < ix b)%nat)
                 (sort_insert cmp x l).
Proof.
  intros Hl Hs. induction Hs as [| y l Hs IH Hall]; cbn.
  - repeat constructor.
  - apply Forall_cons in Hl as [Hy Hl].
    rewrite SortCompare_pos. unfold cmp at 1. rewrite float_sub_pos.
    destruct (key x <? key y)%float eqn:E.
    + constructor; [now apply IH |].
      rewrite Forall_forall. intros z Hz.
      rewrite sort_insert_perm in Hz. apply elem_of_cons in Hz as [-> | Hz].
      * intros Htie. apply float_eqb_not_ltb in Htie as [_ Htie]. congruence.
      * rewrite Forall_forall in Hall. now apply Hall.
    + constructor; [now constructor |].
      constructor; [now intros _ |].
      eapply Forall_impl; [exact Hl |]. now intros z Hz _.
Qed.

Lemma Array_sort_stable l :
  StronglySorted (fun a b => (ix a < ix b)%nat) l ->
  StronglySorted (fun a b => (key a =? key b)%float = true -> (ix a < ix b)%nat)
                 (Array_sort cmp l).
Proof.
  intros Hs. induction Hs as [| x l Hs IH Hall]; cbn; [constructor |].
  apply sort_insert_stable; [| assumption].
  eapply Permutation_Forall; [symmetry; apply Array_sort_perm | assumption].
Qed.

End SortByKey.

(** ** The two rankings *)

Lemma bind_Ok {A B} (f : A -> result B) (a : A) : (Ok a ≫= f) = f a.
Proof. reflexivity. Qed.

Lemma bind_Throw {A B} (f : A -> result B) (e : exn) : (Throw e ≫= f) = Throw e.
Proof. reflexivity. Qed.

(** The loop of [cosineSimilarity] and the [reduce] of [dot] add the same
    products in the same order, and throw on the same inputs. *)
Lemma cosine_loop_reduce (a : list float) (vecB : option (list float)) :
  forall l pre acc, a = pre ++ l ->
    for_range (fun dotProduct i =>
                 b ← deref vecB; Ok (dotProduct + num_at a i * num_at b i)%float)
              (length pre) (length l) acc
    = reduce_from (fun sum ai i => b' ← deref vecB; Ok (sum + ai * num_at b' i)%float)
                  (length pre) acc l.
Proof.
  induction l as [| x l IH]; intros pre acc Ha; cbn [for_range reduce_from length];
    [reflexivity |].
  destruct vecB as [b |]; cbn [deref]; rewrite ?bind_Throw; [| reflexivity].
  rewrite !bind_Ok.
  assert (Hx : num_at a (length pre) = x).
  { unfold num_at. subst a. now rewrite list_lookup_middle. }
  rewrite Hx.
  specialize (IH (pre ++ [x]) (acc + x * num_at b (length pre))%float).
  rewrite length_app, Nat.add_1_r in IH. apply IH.
  now rewrite <- app_assoc.
Qed.

Lemma cosineSimilarity_dot (vecA vecB : option (list float)) :
  cosineSimilarity vecA vecB = dot vecA vecB.
Proof.
  unfold cosineSimilarity, dot. destruct vecA as [a |]; [| reflexivity].
  cbn [deref]. rewrite !bind_Ok. exact (cosine_loop_reduce a vecB a [] 0%float eq_refl).
Qed.

Lemma filter_Boolean_cons_Some {A} (x : A) l :
  filter_Boolean (Some x :: l) = x :: filter_Boolean l.
Proof. reflexivity. Qed.

Lemma filter_Boolean_cons_None {A} (l : list (option A)) :
  filter_Boolean (None :: l) = filter_Boolean l.
Proof. reflexivity. Qed.

(** The loop that pushes an entry for every other document collects what
    [map] and [filter(Boolean)] collect. *)
Lemma push_loop_map_filter (idx : nat) (docs : list Document) (embs : list (list float)) :
  forall l pre acc, docs = pre ++ l ->
    for_range (fun similarities j =>
                 if decide (idx = j) then Ok similarities
                 else
                   targetDoc ← deref (docs !! j);
                   similarityScore ← cosineSimilarity (embs !! idx) (embs !! j);
                   Ok (similarities ++ [similarityEntry targetDoc (toFixed2 similarityScore)]))
              (length pre) (length l) acc
    = (mapped ← map_from (fun d j =>
                            if decide (j = idx) then Ok None
                            else s ← dot (embs !! idx) (embs !! j);
                                 Ok (Some (similarityEntry d (toFixed2 s))))
                         (length pre) l;
       Ok (acc ++ filter_Boolean mapped)).
Proof.
  induction l as [| d l IH]; intros pre acc Hd; cbn [for_range map_from length].
  - rewrite bind_Ok. cbn. now rewrite app_nil_r.
  - specialize (IH (pre ++ [d])). rewrite length_app, Nat.add_1_r in IH.
    assert (Hl : docs !! length pre = Some d) by (subst docs; apply list_lookup_middle; reflexivity).
    assert (Hd' : docs = (pre ++ [d]) ++ l) by now rewrite <- app_assoc.
    destruct (decide (idx = length pre)) as [-> | Hne].
    + rewrite decide_True by reflexivity. rewrite !bind_Ok, IH by assumption.
      destruct (map_from _ _ l) as [mapped | e]; [| reflexivity].
      rewrite !bind_Ok. now rewrite filter_Boolean_cons_None.
    + rewrite decide_False by congruence.
      rewrite Hl. cbn [deref]. rewrite bind_Ok, cosineSimilarity_dot.
      destruct (dot (embs !! idx) (embs !! length pre)) as [s | e]; [| reflexivity].
      rewrite !bind_Ok, IH by assumption.
      destruct (map_from _ _ l) as [mapped | e]; [| reflexivity].
      rewrite !bind_Ok, filter_Boolean_cons_Some. now rewrite <- app_assoc.
Qed.

Lemma calculateSingleDocSimilarities_topSimilar idx docs embs n :
  calculateSingleDocSimilarities idx docs embs n = topSimilar idx docs embs n.
Proof.
  unfold calculateSingleDocSimilarities, topSimilar. cbv zeta.
  pose proof (push_loop_map_filter idx docs embs docs [] [] eq_refl) as H.
  cbn [length] in H. rewrite H.
  destruct (map_from _ _ docs) as [mapped | e]; reflexivity.
Qed.

(** C10: the loop-based ranking of the first variant and the
    map/filter/sort-based ranking of the second variant are the same
    function: on every source index, document list, embedding list and
    cut-off they return the same records in the same order, and they throw
    on the same inputs. *)
Theorem C10_rankings_agree (idx : nat) (docs : list Document)
    (embs : list (list float)) (n : Z) :
  calculateSingleDocSimilarities idx docs embs n = topSimilar idx docs embs n.
Proof. apply calculateSingleDocSimilarities_topSimilar. Qed.

(** On vectors that are there, the dot product is a number: nothing throws. *)
Lemma reduce_from_total {A B} (f : B -> A -> nat -> result B) :
  (forall acc x i, exists acc', f acc x i = Ok acc') ->
  forall l i acc, exists r, reduce_from f i acc l = Ok r.
Proof.
  intros Hf. induction l as [| x l IH]; intros i acc; cbn; [eauto |].
  destruct (Hf acc x i) as [acc' ->]. rewrite bind_Ok. apply IH.
Qed.

Lemma dot_defined (a b : list float) : exists s, dot (Some a) (Some b) = Ok s.
Proof.
  unfold dot. cbn [deref]. rewrite bind_Ok.
  apply reduce_from_total. intros acc x i. rewrite bind_Ok. eauto.
Qed.

Lemma scoreOf_dot embs idx j :
  (idx < length embs)%nat -> (j < length embs)%nat ->
  exists s, dot (embs !! idx) (embs !! j) = Ok s /\ scoreOf embs idx j = toFixed2 s.
Proof.
  intros Hi Hj. unfold scoreOf.
  destruct (lookup_lt_is_Some_2 embs idx Hi) as [a ->].
  destruct (lookup_lt_is_Some_2 embs j Hj) as [b ->].
  destruct (dot_defined a b) as [s ->]. eauto.
Qed.

Lemma map_from_candidates (idx : nat) (embs : list (list float)) :
  (idx < length embs)%nat ->
  forall l i, (i + length l <= length embs)%nat ->
    exists mapped,
      map_from (fun d j =>
                  if decide (j = idx) then Ok None
                  else s ← dot (embs !! idx) (embs !! j);
                       Ok (Some (similarityEntry d (toFixed2 s))))
               i l = Ok mapped
      /\ filter_Boolean mapped
         = map (entry_of embs idx)
               (filter (fun p => p.1 <> idx) (imap (fun j d => ((i + j)%nat, d)) l)).
Proof.
  intros Hidx. induction l as [| d l IH]; intros i Hlen; cbn [map_from length].
  - exists []. split; reflexivity.
  - cbn [length] in Hlen.
    destruct (IH (S i) ltac:(lia)) as (mapped & Hm & Hf).
    rewrite Hm. cbn [imap]. rewrite Nat.add_0_r.
    assert (Himap : imap ((fun j d0 => ((i + j)%nat, d0)) ∘ S) l
                    = imap (fun j d0 => ((S i + j)%nat, d0)) l).
    { apply imap_ext. intros j x _. cbn. f_equal. lia. }
    rewrite Himap.
    destruct (decide (i = idx)) as [-> | Hne].
    + exists (None :: mapped). rewrite !bind_Ok. split; [reflexivity |].
      rewrite filter_Boolean_cons_None, Hf, filter_cons_False; [reflexivity |].
      cbn. auto.
    + destruct (scoreOf_dot embs idx i Hidx ltac:(lia)) as (s & Hs & Hsc).
      rewrite Hs. exists (Some (similarityEntry d (toFixed2 s)) :: mapped).
      rewrite !bind_Ok. split; [reflexivity |].
      rewrite filter_Boolean_cons_Some, Hf, filter_cons_True by (cbn; assumption).
      cbn [map]. unfold entry_of at 2. cbn [fst snd]. now rewrite Hsc.
Qed.

Lemma similarity_of_entry d s : similarity_of (similarityEntry d s) = s.
Proof. unfold similarity_of, similarityEntry. now rewrite lookup_insert_eq. Qed.

(** With one embedding per document and the source among them, the ranking
    returns: it is the sorted, cut list of the other documents' records. *)
Lemma topSimilar_ranked idx docs embs n :
  (idx < length docs)%nat -> length embs = length docs ->
  topSimilar idx docs embs n = Ok (map (entry_of embs idx) (ranked embs idx docs n)).
Proof.
  intros Hidx Hlen. unfold topSimilar, ranked.
  destruct (map_from_candidates idx embs ltac:(lia) docs 0%nat ltac:(lia))
    as (mapped & -> & Hf).
  rewrite bind_Ok, Hf. f_equal.
  rewrite Array_sort_map, Array_slice0_map. f_equal. f_equal.
  apply Array_sort_ext. intros p q.
  unfold by_similarity_desc, rank_cmp, entry_of. now rewrite !similarity_of_entry.
Qed.

(** ** The candidates *)

Lemma StronglySorted_filter {A} (R : A -> A -> Prop) (P : A -> Prop)
    `{!forall x, Decision (P x)} l :
  StronglySorted R l -> StronglySorted R (filter P l).
Proof.
  induction 1 as [| x l Hs IH Hall]; [constructor |].
  rewrite filter_cons. destruct (decide (P x)); [| assumption].
  constructor; [assumption |].
  rewrite Forall_forall in *. intros y Hy. apply list_elem_of_filter in Hy as [_ Hy]. auto.
Qed.

Lemma imap_pairs_sorted (docs : list Document) :
  forall i, StronglySorted (fun p q : nat * Document => (p.1 < q.1)%nat)
                           (imap (fun j d => ((i + j)%nat, d)) docs).
Proof.
  induction docs as [| d docs IH]; intros i; cbn [imap]; [constructor |].
  assert (Himap : imap ((fun j d0 => ((i + j)%nat, d0)) ∘ S) docs
                  = imap (fun j d0 => ((S i + j)%nat, d0)) docs).
  { apply imap_ext. intros j x _. cbn. f_equal. lia. }
  rewrite Himap. constructor; [apply IH |].
  rewrite Forall_forall. intros [j x] Hin.
  apply elem_of_lookup_imap in Hin as (k & y & Heq & _).
  injection Heq as -> ->. cbn. lia.
Qed.

Lemma candidates_sorted idx docs :
  StronglySorted (fun p q : nat * Document => (p.1 < q.1)%nat) (candidates idx docs).
Proof. unfold candidates. apply StronglySorted_filter. apply (imap_pairs_sorted docs 0%nat). Qed.

Lemma elem_of_candidates idx docs j d :
  (j, d) ∈ candidates idx docs <-> j <> idx /\ docs !! j = Some d.
Proof.
  unfold candidates. rewrite list_elem_of_filter, elem_of_lookup_imap. cbn. split.
  - intros (Hne & k & y & Heq & Hk). injection Heq as -> ->. auto.
  - intros (Hne & Hj). split; [assumption |]. eauto.
Qed.

Lemma candidates_length idx docs :
  (idx < length docs)%nat -> (length (candidates idx docs) <= length docs - 1)%nat.
Proof.
  intros Hidx. destruct (lookup_lt_is_Some_2 docs idx Hidx) as [d Hd].
  unfold candidates.
  pose proof (length_filter_lt (fun p : nat * Document => p.1 <> idx)
                (imap (fun j d => (j, d)) docs) (idx, d)) as H.
  rewrite length_imap in H.
  assert (Hl : (length (filter (fun p : nat * Document => p.1 <> idx)
                               (imap (fun j d => (j, d)) docs)) < length docs)%nat).
  { apply H; [| cbn; auto]. apply elem_of_lookup_imap. eauto. }
  lia.
Qed.

Lemma sorted_lt_NoDup (l : list (nat * Document)) :
  StronglySorted (fun p q : nat * Document => (p.1 < q.1)%nat) l -> NoDup (l.*1).
Proof.
  induction 1 as [| x l Hs IH Hall]; cbn; constructor; [| assumption].
  intros Hin. apply list_elem_of_fmap in Hin as (y & Hy & Hin).
  rewrite Forall_forall in Hall. specialize (Hall y Hin). lia.
Qed.

(** What [ranked] holds, whatever the scores are. *)
Lemma ranked_elem embs idx docs n j d :
  (j, d) ∈ ranked embs idx docs n -> j <> idx /\ docs !! j = Some d.
Proof.
  unfold ranked. destruct (Array_slice0_take (Array_sort (rank_cmp embs idx)
                                                (candidates idx docs)) n) as [m ->].
  intros Hin. apply elem_of_candidates.
  rewrite <- (Array_sort_perm (rank_cmp embs idx)).
  eapply subseteq_take, Hin.
Qed.

Lemma ranked_NoDup embs idx docs n : NoDup ((ranked embs idx docs n).*1).
Proof.
  unfold ranked. destruct (Array_slice0_take (Array_sort (rank_cmp embs idx)
                                                (candidates idx docs)) n) as [m ->].
  rewrite fmap_take. eapply sublist_NoDup; [| apply sublist_take].
  rewrite (Array_sort_perm (rank_cmp embs idx)).
  apply sorted_lt_NoDup, candidates_sorted.
Qed.

Lemma ranked_length embs idx docs (k : nat) :
  (idx < length docs)%nat ->
  (length (ranked embs idx docs (Z.of_nat k)) <= k `min` (length docs - 1))%nat.
Proof.
  intros Hidx. unfold ranked.
  rewrite Array_slice0_length, Array_sort_length.
  pose proof (candidates_length idx docs Hidx). lia.
Qed.

Lemma ranked_ties embs idx docs n :
  StronglySorted (fun p q : nat * Document =>
                    (scoreOf embs idx p.1 =? scoreOf embs idx q.1)%float = true ->
                    (p.1 < q.1)%nat)
                 (ranked embs idx docs n).
Proof.
  unfold ranked. destruct (Array_slice0_take (Array_sort (rank_cmp embs idx)
                                                (candidates idx docs)) n) as [m ->].
  apply StronglySorted_take.
  apply (Array_sort_stable (fun p : nat * Document => scoreOf embs idx p.1) fst).
  apply candidates_sorted.
Qed.

Lemma ranked_desc embs idx docs n :
  (forall j, (j < length docs)%nat -> j <> idx -> is_nan (scoreOf embs idx j) = false) ->
  StronglySorted (fun p q : nat * Document =>
                    (scoreOf embs idx q.1 <=? scoreOf embs idx p.1)%float = true)
                 (ranked embs idx docs n).
Proof.
  intros Hnum. unfold ranked.
  destruct (Array_slice0_take (Array_sort (rank_cmp embs idx) (candidates idx docs)) n)
    as [m ->].
  apply StronglySorted_take.
  apply (Array_sort_desc (fun p : nat * Document => scoreOf embs idx p.1)).
  rewrite Forall_forall. intros [j d] Hin. apply elem_of_candidates in Hin as [Hne Hj].
  cbn. apply Hnum; [| assumption]. eapply lookup_lt_Some, Hj.
Qed.

Lemma non_increasing_of_sorted embs idx (hits : list (nat * Document)) :
  StronglySorted (fun p q : nat * Document =>
                    (scoreOf embs idx q.1 <=? scoreOf embs idx p.1)%float = true) hits ->
  non_increasing (similarity_of <$> map (entry_of embs idx) hits).
Proof.
  intros Hs i x y Hx Hy.
  rewrite list_lookup_fmap in Hx, Hy.
  change (map (entry_of embs idx) hits) with (entry_of embs idx <$> hits) in Hx, Hy.
  rewrite list_lookup_fmap in Hx, Hy.
  destruct (hits !! i) as [p |] eqn:Hp; [| discriminate].
  destruct (hits !! S i) as [q |] eqn:Hq; [| discriminate].
  cbn in Hx, Hy. injection Hx as <-. injection Hy as <-.
  unfold entry_of. rewrite !similarity_of_entry.
  exact (StronglySorted_lookup _ hits i (S i) p q Hs ltac:(lia) Hp Hq).
Qed.

(** ** The ranking: exclusion of the source, length, order, ties *)

(** C1, as the code has it: for every document list, one embedding per
    document, a source index within bounds and a count [k], both rankings
    return a list of records of documents other than the source, each
    document at most once, of length at most [min k (N - 1)]; and the
    similarities are in non-increasing order provided none of the scores of
    the other documents is NaN. *)
Theorem C1_topSimilar_excludes_source_bounded_sorted
    (docs : list Document) (embs : list (list float)) (idx k : nat) :
  (idx < length docs)%nat -> length embs = length docs ->
  exists hits : list (nat * Document),
    topSimilar idx docs embs (Z.of_nat k) = Ok (map (entry_of embs idx) hits)
    /\ calculateSingleDocSimilarities idx docs embs (Z.of_nat k)
       = Ok (map (entry_of embs idx) hits)
    /\ (forall j d, (j, d) ∈ hits -> j <> idx /\ docs !! j = Some d)
    /\ NoDup (hits.*1)
    /\ (length hits <= k `min` (length docs - 1))%nat
    /\ ((forall j, (j < length docs)%nat -> j <> idx ->
                   is_nan (scoreOf embs idx j) = false) ->
        non_increasing (similarity_of <$> map (entry_of embs idx) hits)).
Proof.
  intros Hidx Hlen. exists (ranked embs idx docs (Z.of_nat k)).
  rewrite calculateSingleDocSimilarities_topSimilar.
  rewrite (topSimilar_ranked idx docs embs (Z.of_nat k) Hidx Hlen).
  split; [reflexivity |]. split; [reflexivity |].
  split; [intros j d Hin; now apply ranked_elem in Hin |].
  split; [apply ranked_NoDup |].
  split; [now apply ranked_length |].
  intros Hnum. apply non_increasing_of_sorted. now apply ranked_desc.
Qed.

Lemma C1_witness_three_documents :
  exists hits : list (nat * Document),
    topSimilar 0 corpus3 embeddings3 (Z.of_nat 2) = Ok (map (entry_of embeddings3 0) hits)
    /\ calculateSingleDocSimilarities 0 corpus3 embeddings3 (Z.of_nat 2)
       = Ok (map (entry_of embeddings3 0) hits)
    /\ (forall j d, (j, d) ∈ hits -> j <> 0%nat /\ corpus3 !! j = Some d)
    /\ NoDup (hits.*1)
    /\ (length hits <= 2 `min` (length corpus3 - 1))%nat
    /\ ((forall j, (j < length corpus3)%nat -> j <> 0%nat ->
                   is_nan (scoreOf embeddings3 0 j) = false) ->
        non_increasing (similarity_of <$> map (entry_of embeddings3 0) hits)).
Proof.
  apply (C1_topSimilar_excludes_source_bounded_sorted corpus3 embeddings3 0 2).
  - cbn. lia.
  - reflexivity.
Defined.

(** C1 as stated fails: an embedding that holds NaN gives a NaN score, and a
    list with a NaN in it is not in non-increasing order, wherever the sort
    leaves it. *)
Lemma C1_counterexample_nan_score :
  (0 < length corpus3)%nat
  /\ length embeddings_nan = length corpus3
  /\ topSimilar 0 corpus3 embeddings_nan (Z.of_nat 2)
     = Ok [similarityEntry docB nan; similarityEntry docC 1]
  /\ ~ non_increasing (similarity_of <$> [similarityEntry docB nan; similarityEntry docC 1]).
Proof.
  split; [cbn; lia |]. split; [reflexivity |].
  split; [vm_compute; reflexivity |].
  intros H.
  change (similarity_of <$> [similarityEntry docB nan; similarityEntry docC 1])
    with [similarity_of (similarityEntry docB nan); similarity_of (similarityEntry docC 1)]
    in H.
  rewrite !similarity_of_entry in H.
  pose proof (H 0%nat nan 1%float eq_refl eq_refl) as Hc.
  vm_compute in Hc. discriminate.
Qed.

Lemma topSimilar_on_Array_sort idx docs embs n :
  topSimilar_on (@Array_sort _) idx docs embs n = topSimilar idx docs embs n.
Proof. reflexivity. Qed.

(** C4, as the code has it: in both rankings, records whose rounded
    similarities are equal appear in the order of their documents in the
    corpus, whatever the cut-off is, provided none of the scores of the other
    documents is NaN: the comparator is then consistent, and the order is the
    one every conforming sort returns. *)
Theorem C4_ties_keep_corpus_order
    (docs : list Document) (embs : list (list float)) (idx : nat) (n : Z) :
  (idx < length docs)%nat -> length embs = length docs ->
  (forall j, (j < length docs)%nat -> j <> idx -> is_nan (scoreOf embs idx j) = false) ->
  exists hits : list (nat * Document),
    topSimilar idx docs embs n = Ok (map (entry_of embs idx) hits)
    /\ calculateSingleDocSimilarities idx docs embs n = Ok (map (entry_of embs idx) hits)
    /\ (forall j d, (j, d) ∈ hits -> docs !! j = Some d)
    /\ (forall p q a b,
          (p < q)%nat -> hits !! p = Some a -> hits !! q = Some b ->
          (similarity_of (entry_of embs idx a) =? similarity_of (entry_of embs idx b))%float
          = true ->
          (a.1 < b.1)%nat).
Proof.
  intros Hidx Hlen _. exists (ranked embs idx docs n).
  rewrite calculateSingleDocSimilarities_topSimilar.
  rewrite (topSimilar_ranked idx docs embs n Hidx Hlen).
  split; [reflexivity |]. split; [reflexivity |].
  split; [intros j d Hin; now apply ranked_elem in Hin |].
  intros p q a b Hpq Ha Hb Htie.
  unfold entry_of in Htie. rewrite !similarity_of_entry in Htie.
  exact (StronglySorted_lookup _ _ p q a b (ranked_ties embs idx docs n) Hpq Ha Hb Htie).
Qed.

(** Four documents whose second and fourth tie as neighbours of the first. *)
Lemma C4_witness_tie :
  exists hits : list (nat * Document),
    topSimilar 0 [docA; docB; docC; docB] [[1]; [0.5]; [1]; [0.5]]%float 5
    = Ok (map (entry_of [[1]; [0.5]; [1]; [0.5]]%float 0) hits)
    /\ calculateSingleDocSimilarities 0 [docA; docB; docC; docB]
                                      [[1]; [0.5]; [1]; [0.5]]%float 5
       = Ok (map (entry_of [[1]; [0.5]; [1]; [0.5]]%float 0) hits)
    /\ (forall j d, (j, d) ∈ hits -> [docA; docB; docC; docB] !! j = Some d)
    /\ (forall p q a b,
          (p < q)%nat -> hits !! p = Some a -> hits !! q = Some b ->
          (similarity_of (entry_of [[1]; [0.5]; [1]; [0.5]]%float 0 a)
           =? similarity_of (entry_of [[1]; [0.5]; [1]; [0.5]]%float 0 b))%float = true ->
          (a.1 < b.1)%nat).
Proof.
  apply (C4_ties_keep_corpus_order [docA; docB; docC; docB] [[1]; [0.5]; [1]; [0.5]]%float 0 5).
  - cbn. lia.
  - reflexivity.
  - intros [| [| [| [| j]]]] Hj Hne; try (vm_compute; reflexivity).
    cbn in Hj. lia.
Defined.

(** C4 as stated fails: with a NaN among the scores the comparator is not
    consistent and the order is the engine's.  On V8 the record of [d6]
    comes before the record of [d5], and both score 1. *)
Lemma C4_counterexample_nan_reorders_ties :
  (7 < length corpus8)%nat
  /\ length embeddings8 = length corpus8
  /\ is_nan (scoreOf embeddings8 7 3) = true
  /\ topSimilar_on (@V8_sort_short _) 7 corpus8 embeddings8 7
     = Ok (map (entry_of embeddings8 7)
               [(1%nat, numbered "d1"); (2%nat, numbered "d2"); (4%nat, numbered "d4");
                (6%nat, numbered "d6"); (0%nat, numbered "d0"); (3%nat, numbered "d3");
                (5%nat, numbered "d5")])
  /\ (similarity_of (entry_of embeddings8 7 (6%nat, numbered "d6"))
      =? similarity_of (entry_of embeddings8 7 (5%nat, numbered "d5")))%float = true.
Proof.
  split; [cbn; lia |]. split; [reflexivity |].
  split; [vm_compute; reflexivity |].
  split; vm_compute; reflexivity.
Qed.

(** C5, as the code has it: on the three-document corpus with [k = 2] the
    neighbours of A are B (0.80) then C (-1.00), those of B are A (0.80) then
    C (-0.80), and those of C are B (-0.80) then A (-1.00): descending order
    puts -0.80 before -1.00. *)
Theorem C5_three_document_scenario :
  topSimilar 0 corpus3 embeddings3 2
  = Ok [similarityEntry docB 0.8; similarityEntry docC (-1)]
  /\ topSimilar 1 corpus3 embeddings3 2
     = Ok [similarityEntry docA 0.8; similarityEntry docC (-0.8)]
  /\ topSimilar 2 corpus3 embeddings3 2
     = Ok [similarityEntry docB (-0.8); similarityEntry docA (-1)]
  /\ (forall i, calculateSingleDocSimilarities i corpus3 embeddings3 2
                = topSimilar i corpus3 embeddings3 2).
Proof.
  split; [vm_compute; reflexivity |].
  split; [vm_compute; reflexivity |].
  split; [vm_compute; reflexivity |].
  intros i. apply calculateSingleDocSimilarities_topSimilar.
Qed.

(** C5 as stated fails for the third document: the ranking does not return A
    before B. *)
Lemma C5_counterexample_neighbours_of_C :
  topSimilar 2 corpus3 embeddings3 2
  <> Ok [similarityEntry docA (-1); similarityEntry docB (-0.8)].
Proof.
  assert (H : topSimilar 2 corpus3 embeddings3 2
              = Ok [similarityEntry docB (-0.8); similarityEntry docA (-1)])
    by (vm_compute; reflexivity).
  rewrite H. intros Heq.
  apply (f_equal (fun r => match r with
                           | Ok (e :: _) => similarity_of e
                           | _ => nan
                           end)) in Heq.
  rewrite !similarity_of_entry in Heq.
  assert (Hb : ((-0.8) =? (-1))%float = true) by (rewrite Heq; vm_compute; reflexivity).
  vm_compute in Hb. discriminate.
Qed.

(** ** The corpus result *)

Lemma map_from_imap {A B} (f : A -> nat -> result B) (g : nat -> A -> B) :
  forall l i,
    (forall j d, l !! j = Some d -> f d (i + j)%nat = Ok (g (i + j)%nat d)) ->
    map_from f i l = Ok (imap (fun j d => g (i + j)%nat d) l).
Proof.
  induction l as [| x l IH]; intros i Hf; cbn [map_from imap]; [reflexivity |].
  pose proof (Hf 0%nat x eq_refl) as H0. rewrite Nat.add_0_r in H0.
  rewrite H0, bind_Ok, (IH (S i)).
  - rewrite bind_Ok, Nat.add_0_r. do 2 f_equal.
    apply imap_ext. intros j y _. cbn. f_equal. lia.
  - intros j d Hj. specialize (Hf (S j) d Hj).
    now replace (S i + j)%nat with (i + S j)%nat by lia.
Qed.

Section Aggregation.
Variable Number_toString : float -> string.

Local Abbreviation key := (slug_key Number_toString).

(** The first variant assigns where the second collects entries: the same
    rankings in the same order, the same exception if one throws. *)
Lemma assign_loop_entries (documents : list Document) (embeddings : list (list float)) (topN : Z) :
  forall l i acc,
    reduce_from (fun resultsBySlug doc i =>
                   topSimilarDocs ← calculateSingleDocSimilarities i documents embeddings topN;
                   Ok (obj_assign (key doc) topSimilarDocs resultsBySlug))
                i acc l
    = (entries ← map_from (fun d i => top ← topSimilar i documents embeddings topN;
                                      Ok (key d, top)) i l;
       Ok (foldl (fun o kv => obj_assign kv.1 kv.2 o) acc entries)).
Proof.
  induction l as [| d l IH]; intros i acc; cbn [reduce_from map_from]; [reflexivity |].
  rewrite calculateSingleDocSimilarities_topSimilar.
  destruct (topSimilar i documents embeddings topN) as [top | e]; [| reflexivity].
  rewrite !bind_Ok, IH.
  destruct (map_from _ (S i) l) as [entries | e]; reflexivity.
Qed.

Lemma foldl_assign_delete {V} (l : list (string * V)) :
  forall m,
    foldl (fun o kv => obj_assign kv.1 kv.2 o) (delete "__proto__" m) l
    = delete "__proto__" (foldl (fun o kv => <[kv.1 := kv.2]> o) m l).
Proof.
  induction l as [| [k v] l IH]; intros m; cbn [foldl fst snd]; [reflexivity |].
  rewrite <- IH. f_equal. unfold obj_assign.
  destruct (String.eqb_spec k "__proto__") as [-> | Hne].
  - now rewrite delete_insert_eq.
  - now rewrite delete_insert_ne by congruence.
Qed.

Lemma computeAllSimilarities_allSimilarities docs embs n m :
  allSimilarities Number_toString docs embs n = Ok m ->
  computeAllSimilarities Number_toString docs embs n = Ok (delete "__proto__" m).
Proof.
  unfold allSimilarities, computeAllSimilarities. rewrite assign_loop_entries.
  destruct (map_from _ 0%nat docs) as [entries | e]; [| discriminate].
  rewrite !bind_Ok. intros [= <-]. f_equal.
  pose proof (foldl_assign_delete entries ∅) as H. rewrite delete_empty in H. exact H.
Qed.

(** What [Object.fromEntries] builds. *)
Lemma fromEntries_lookup_notin {V} (l : list (string * V)) k :
  forall m : gmap string V, k ∉ l.*1 -> foldl (fun o kv => <[kv.1 := kv.2]> o) m l !! k = m !! k.
Proof.
  induction l as [| [k' v] l IH]; intros m Hk; cbn [foldl fst snd]; [reflexivity |].
  cbn in Hk. apply not_elem_of_cons in Hk as [Hne Hk].
  rewrite IH by assumption. now apply lookup_insert_ne.
Qed.

Lemma fromEntries_last {V} (l1 l2 : list (string * V)) k v :
  k ∉ l2.*1 -> Object_fromEntries (l1 ++ (k, v) :: l2) !! k = Some v.
Proof.
  intros Hk. unfold Object_fromEntries. rewrite foldl_app. cbn [foldl fst snd].
  rewrite fromEntries_lookup_notin by assumption. apply lookup_insert_eq.
Qed.

Lemma fromEntries_dom {V} (l : list (string * V)) :
  forall m : gmap string V, dom (foldl (fun o kv => <[kv.1 := kv.2]> o) m l) = dom m ∪ list_to_set l.*1.
Proof.
  induction l as [| [k v] l IH]; intros m; cbn [foldl fst snd].
  - cbn. set_solver.
  - rewrite IH, dom_insert_L. cbn. set_solver.
Qed.

Lemma fromEntries_size {V} (l : list (string * V)) :
  forall m : gmap string V, NoDup l.*1 -> (forall k, k ∈ l.*1 -> m !! k = None) ->
            size (foldl (fun o kv => <[kv.1 := kv.2]> o) m l) = (size m + length l)%nat.
Proof.
  induction l as [| [k v] l IH]; intros m Hnd Hfresh; cbn [foldl fst snd length]; [lia |].
  cbn in Hnd. apply NoDup_cons in Hnd as [Hk Hnd].
  rewrite IH; [| assumption |].
  - rewrite map_size_insert_None; [lia |]. apply Hfresh. cbn. left.
  - intros k' Hk'. rewrite lookup_insert_ne; [apply Hfresh; cbn; now right |].
    intros ->. contradiction.
Qed.

(** With one embedding per document, the entries are the documents' keys
    with their rankings. *)
Lemma allSimilarities_entries docs embs n :
  length embs = length docs ->
  allSimilarities Number_toString docs embs n
  = Ok (Object_fromEntries
          (imap (fun i d => (key d, map (entry_of embs i) (ranked embs i docs n))) docs)).
Proof.
  intros Hlen. unfold allSimilarities.
  rewrite (map_from_imap _ (fun i d => (key d, map (entry_of embs i) (ranked embs i docs n)))).
  - reflexivity.
  - intros j d Hj. cbn [Nat.add].
    rewrite topSimilar_ranked; [reflexivity | | assumption].
    eapply lookup_lt_Some, Hj.
Qed.

Lemma entries_keys {V} docs (h : nat -> Document -> string * V) :
  (forall i d, (h i d).1 = key d) -> (imap h docs).*1 = key <$> docs.
Proof.
  intros Hh. apply list_eq. intros i.
  rewrite !list_lookup_fmap, list_lookup_imap. destruct (docs !! i); cbn; [| reflexivity].
  now rewrite Hh.
Qed.

End Aggregation.

(** C2, as the code has it: with one embedding per document, building the
    corpus result never fails.  The keys of the map are the documents' slugs;
    the ranking stored under a slug is the one of the last document that has
    it, so a repeated slug is resolved by overwriting; and when all slugs are
    distinct the map has one key per document.  The first variant builds
    the same map, except that it stores nothing under the slug ["__proto__"]. *)
Theorem C2_corpus_result_last_slug_wins
    (Number_toString : float -> string)
    (docs : list Document) (embs : list (list float)) (n : Z) :
  length embs = length docs ->
  exists m,
    allSimilarities Number_toString docs embs n = Ok m
    /\ computeAllSimilarities Number_toString docs embs n = Ok (delete "__proto__" m)
    /\ dom m = list_to_set (slug_key Number_toString <$> docs)
    /\ (forall i d,
          docs !! i = Some d ->
          slug_key Number_toString d ∉ (slug_key Number_toString <$> drop (S i) docs) ->
          exists top, topSimilar i docs embs n = Ok top
                      /\ m !! slug_key Number_toString d = Some top)
    /\ (NoDup (slug_key Number_toString <$> docs) -> size m = length docs).
Proof.
  intros Hlen.
  pose proof (allSimilarities_entries Number_toString docs embs n Hlen) as Hm.
  eexists. split; [exact Hm |].
  split; [now apply computeAllSimilarities_allSimilarities |].
  split; [| split].
  - unfold Object_fromEntries. rewrite fromEntries_dom, dom_empty_L.
    rewrite (entries_keys Number_toString) by reflexivity. set_solver.
  - intros i d Hi Hlast. exists (map (entry_of embs i) (ranked embs i docs n)). split.
    + apply topSimilar_ranked; [eapply lookup_lt_Some, Hi | assumption].
    + rewrite <- (take_drop_middle docs i d Hi) at 1.
      rewrite imap_app. cbn [imap].
      assert (Hi' : (length (take i docs) + 0)%nat = i).
      { rewrite length_take. apply lookup_lt_Some in Hi. lia. }
      rewrite Hi'. apply fromEntries_last.
      rewrite (entries_keys Number_toString) by reflexivity.
      exact Hlast.
  - intros Hnd. unfold Object_fromEntries. rewrite fromEntries_size.
    + now rewrite map_size_empty, length_imap.
    + now rewrite (entries_keys Number_toString) by reflexivity.
    + intros k _. apply lookup_empty.
Qed.

Lemma C2_witness_three_documents :
  exists m,
    allSimilarities no_numbers corpus3 embeddings3 TOP_N = Ok m
    /\ computeAllSimilarities no_numbers corpus3 embeddings3 TOP_N
       = Ok (delete "__proto__" m)
    /\ dom m = list_to_set (slug_key no_numbers <$> corpus3)
    /\ (forall i d,
          corpus3 !! i = Some d ->
          slug_key no_numbers d ∉ (slug_key no_numbers <$> drop (S i) corpus3) ->
          exists top, topSimilar i corpus3 embeddings3 TOP_N = Ok top
                      /\ m !! slug_key no_numbers d = Some top)
    /\ (NoDup (slug_key no_numbers <$> corpus3) -> size m = length corpus3).
Proof.
  apply (C2_corpus_result_last_slug_wins no_numbers corpus3 embeddings3 TOP_N).
  reflexivity.
Defined.

(** C2 as stated fails: with two documents under the slug ["A"] both
    variants return a map, with the single key ["A"] bound to the ranking of
    the second document; nothing is raised. *)
Lemma C2_counterexample_duplicate_slug :
  slug_key no_numbers docA = slug_key no_numbers docA_copy
  /\ computeAllSimilarities no_numbers [docA; docA_copy] [[1]; [1]]%float TOP_N_RESULTS
     = Ok {[ "A" := [similarityEntry docA 1] ]}
  /\ allSimilarities no_numbers [docA; docA_copy] [[1]; [1]]%float TOP_N
     = Ok {[ "A" := [similarityEntry docA 1] ]}.
Proof.
  split; [reflexivity |].
  split; vm_compute; reflexivity.
Qed.

(** ** Embedding: a malformed model output *)

Section Embedding.
Variable strip_markdown : string -> string.
Variable read_matter : string -> option (string * gmap string jsval).
Variable extractor : list string -> bool -> result EmbeddingOutput.
Variable Number_toString : float -> string.

Lemma generateDocumentEmbeddings_malformed docs out :
  extractor (map content docs) true = Ok out ->
  malformed_output out (length docs) ->
  generateDocumentEmbeddings extractor docs = Ok [].
Proof.
  intros Hout Hbad. unfold generateDocumentEmbeddings.
  destruct (length docs =? 0)%nat; [reflexivity |].
  rewrite Hout, bind_Ok. unfold malformed_output in Hbad.
  destruct (dims out) as [[| numDocsOutput [| embeddingDim ds]] |]; try reflexivity.
  cbn in Hbad. destruct Hbad as [Hbad | Hbad]; [lia |].
  destruct (Nat.eqb_spec numDocsOutput (length docs)) as [-> | _]; [congruence | reflexivity].
Qed.

End Embedding.

(** C3, as the code has it: when the model output has no [dims], fewer than
    two dimensions, or a first dimension that differs from the number of
    texts, [generateDocumentEmbeddings] raises nothing: it returns the empty
    list, and [runSimilarityAnalysis] then returns before any similarity is
    computed, so no result is written. *)
Theorem C3_malformed_output_gives_no_embeddings
    (strip_markdown : string -> string)
    (read_matter : string -> option (string * gmap string jsval))
    (extractor : list string -> bool -> result EmbeddingOutput)
    (Number_toString : float -> string)
    (filePaths : list string) (out : EmbeddingOutput) :
  let documents := loadAllDocuments strip_markdown read_matter filePaths in
  extractor (map content documents) true = Ok out ->
  malformed_output out (length documents) ->
  generateDocumentEmbeddings extractor documents = Ok []
  /\ runSimilarityAnalysis strip_markdown read_matter extractor Number_toString filePaths
     = Exited.
Proof.
  intros documents Hout Hbad.
  pose proof (generateDocumentEmbeddings_malformed extractor documents out Hout Hbad) as Hgen.
  split; [exact Hgen |].
  unfold runSimilarityAnalysis. fold documents. rewrite Hgen.
  destruct (length filePaths =? 0)%nat; [reflexivity |].
  destruct (length documents =? 0)%nat; reflexivity.
Qed.

Lemma C3_witness_flat_output :
  generateDocumentEmbeddings flat_model (loadAllDocuments plain_prose one_post ["post.md"])
  = Ok []
  /\ runSimilarityAnalysis plain_prose one_post flat_model no_numbers ["post.md"] = Exited.
Proof.
  apply (C3_malformed_output_gives_no_embeddings plain_prose one_post flat_model no_numbers
           ["post.md"] {| dims := Some [1%nat]; data := [1%float] |}).
  - reflexivity.
  - left. cbn. lia.
Defined.

(** C3 as stated fails: on one text, an output with a single dimension and
    an output with two rows both make [generateDocumentEmbeddings] return
    normally, with the empty list; no error reaches the caller. *)
Lemma C3_counterexample_returns_empty :
  malformed_output {| dims := Some [1%nat]; data := [1%float] |} (length [docA])
  /\ generateDocumentEmbeddings flat_model [docA] = Ok []
  /\ malformed_output {| dims := Some [2%nat; 1%nat]; data := [1%float; 1%float] |}
                      (length [docA])
  /\ generateDocumentEmbeddings extra_row_model [docA] = Ok [].
Proof.
  split; [left; cbn; lia |]. split; [reflexivity |].
  split; [right; cbn; congruence |]. reflexivity.
Qed.

(** ** Loading: what is excluded *)

(** C6, on the second variant: a post whose slug is the number 42 has no
    valid string slug, yet [processFile] keeps it, it is embedded with the
    rest, and its slug becomes a key of the result; [processDocumentFile]
    of the first variant excludes it. *)
Theorem C6_processFile_keeps_non_string_slug :
  is_string (prop {[ "slug" := VNum 42 ]} "slug") = false
  /\ processDocumentFile plain_prose numbered_post "post.md" = None
  /\ processFile plain_prose numbered_post "post.md"
     = Some {| path := "post.md"; content := "Hello world";
               frontmatter := {[ "slug" := VNum 42 ]} |}
  /\ map content (loadDocs plain_prose numbered_post ["post.md"]) = ["Hello world"].
Proof.
  split; [reflexivity |]. split; [vm_compute; reflexivity |].
  split; vm_compute; reflexivity.
Qed.

(** ** Text normalisation *)

(** *** Matching runs of a character class *)

Lemma drop_while_suffix f s : exists pre, s = pre ++ drop_while f s.
Proof.
  induction s as [| c s [pre IH]]; cbn; [now exists [] |].
  destruct (f c); [| now exists []].
  exists (c :: pre). cbn. now rewrite <- IH.
Qed.

Lemma drop_while_drop f s : drop (length s - length (drop_while f s)) s = drop_while f s.
Proof.
  destruct (drop_while_suffix f s) as [pre H].
  rewrite H at 1 3. rewrite length_app.
  replace (length pre + length (drop_while f s) - length (drop_while f s))%nat
    with (length pre) by lia.
  now rewrite drop_app_length.
Qed.

Lemma drop_while_length f s : (length (drop_while f s) <= length s)%nat.
Proof.
  destruct (drop_while_suffix f s) as [pre H]. rewrite H at 2. rewrite length_app. lia.
Qed.

Lemma drop_while_head f s : head_fails f (drop_while f s).
Proof.
  induction s as [| c s IH]; cbn; [exact I |].
  destruct (f c) eqn:E; [exact IH | exact E].
Qed.

Lemma drop_while_id f s : head_fails f s -> drop_while f s = s.
Proof. destruct s as [| c s]; cbn; [reflexivity |]. now intros ->. Qed.

Lemma star_class_greedy f n :
  forall p s, (length s <= n)%nat ->
    star_loop (rmatch (RE_class f)) true (fun _ rest => Some rest) n p s
    = Some (drop_while f s).
Proof.
  induction n as [| n IH]; intros p s Hn.
  - destruct s; [reflexivity | cbn in Hn; lia].
  - cbn [star_loop]. destruct s as [| c s]; [reflexivity |].
    cbn [rmatch drop_while]. destruct (f c); [| reflexivity].
    assert (Hlt : (length s <? length (c :: s))%nat = true)
      by (apply Nat.ltb_lt; cbn; lia).
    rewrite Hlt, IH by (cbn in Hn; lia). reflexivity.
Qed.

Lemma match_at_class f p s :
  match_at (RE_class f) p s
  = match s with
    | c :: s' => if f c then Some s' else None
    | [] => None
    end.
Proof. reflexivity. Qed.

Lemma match_at_at_least_2 f p s :
  match_at (re_at_least 2 (RE_class f)) p s
  = match s with
    | c1 :: c2 :: s' => if f c1 && f c2 then Some (drop_while f s') else None
    | _ => None
    end.
Proof.
  unfold match_at, re_at_least. cbn [re_repeat rmatch].
  destruct s as [| c1 [| c2 s']]; try reflexivity.
  - now destruct (f c1).
  - destruct (f c1); [| reflexivity]. destruct (f c2); [| reflexivity].
    cbn [andb]. apply star_class_greedy. lia.
Qed.

(** *** Replacement *)

(** A pattern that never matches at a character that fails [f] leaves a
    text of such characters as it is. *)
Lemma replace_from_no_match r rep f :
  (forall p, match_at r p [] = None) ->
  (forall p c s, f c = false -> match_at r p (c :: s) = None) ->
  forall s p, Forall (fun c => f c = false) s -> replace_from r rep p 0 s = s.
Proof.
  intros Hnil Hcons. induction s as [| c s IH]; intros p Hs; cbn [replace_from].
  - now rewrite Hnil.
  - apply Forall_cons in Hs as [Hc Hs]. rewrite Hcons by assumption.
    now rewrite IH.
Qed.

(** Passing the characters of a match. *)
Lemma replace_from_skip r rep :
  (forall p p' s, match_at r p s = match_at r p' s) ->
  forall n s p, (n <= length s)%nat ->
    replace_from r rep p n s = replace_from r rep None 0 (drop n s).
Proof.
  intros Hfree. assert (H0 : forall s p, replace_from r rep p 0 s = replace_from r rep None 0 s).
  { induction s as [| c s IH]; intros p; cbn [replace_from].
    - now rewrite (Hfree p None).
    - rewrite (Hfree p None). destruct (match_at r None (c :: s)) as [rest |].
      + destruct (length (c :: s) - length rest)%nat; reflexivity.
      + reflexivity. }
  induction n as [| n IH]; intros s p Hn.
  - rewrite drop_0. apply H0.
  - destruct s as [| c s]; [cbn in Hn; lia |]. cbn [replace_from drop].
    apply IH. cbn in Hn. lia.
Qed.

(** *** The whitespace stage *)

Lemma no_space_pair_app_r a b : no_space_pair (a ++ b) -> no_space_pair b.
Proof. induction a as [| c a IH]; cbn; [auto |]. intros [_ H]. auto. Qed.

Lemma no_space_pair_app_l a b : no_space_pair (a ++ b) -> no_space_pair a.
Proof.
  induction a as [| c a IH]; cbn; [auto |]. intros [H1 H2]. split; [| auto].
  destruct a as [| c' a]; [exact I |]. exact H1.
Qed.

Lemma replace_newline_no_newline s :
  forall p, Forall not_newline (replace_from re_nl to_space p 0 s).
Proof.
  unfold re_nl. induction s as [| c s IH]; intros p; cbn [replace_from];
    rewrite match_at_class; [constructor |].
  destruct (is_newline c) eqn:E.
  - replace (length (c :: s) - length s)%nat with 1%nat by (cbn [length]; lia).
    cbn [to_space app]. constructor; [reflexivity | apply IH].
  - constructor; [exact E | apply IH].
Qed.

Lemma at_least_2_prev_free f p p' s :
  match_at (re_at_least 2 (RE_class f)) p s = match_at (re_at_least 2 (RE_class f)) p' s.
Proof. now rewrite !match_at_at_least_2. Qed.

(** Collapsing runs of whitespace leaves no two whitespace characters in a
    row, starts with whitespace only if the text did, and brings in no
    line feed. *)
Lemma collapse_spec n :
  forall s, (length s <= n)%nat ->
    no_space_pair (replace_all (re_at_least 2 re_s) to_space s)
    /\ (head_fails is_space s ->
        head_fails is_space (replace_all (re_at_least 2 re_s) to_space s))
    /\ (Forall not_newline s ->
        Forall not_newline (replace_all (re_at_least 2 re_s) to_space s)).
Proof.
  unfold re_s. induction n as [n IH] using lt_wf_ind. intros s Hn.
  unfold replace_all. destruct s as [| c1 s']; cbn [replace_from];
    rewrite match_at_at_least_2; [cbn; auto |].
  destruct s' as [| c2 s''].
  - cbn [replace_from]. rewrite match_at_at_least_2. cbn. auto.
  - destruct (is_space c1 && is_space c2) eqn:E.
    + pose proof (drop_while_length is_space s'') as Hd.
      replace (length (c1 :: c2 :: s'') - length (drop_while is_space s''))%nat
        with (S (S (length s'' - length (drop_while is_space s''))))
        by (cbn [length]; lia).
      rewrite (replace_from_skip _ _ (at_least_2_prev_free is_space)) by (cbn [length]; lia).
      cbn [drop]. rewrite drop_while_drop. cbn [to_space app].
      destruct (IH (length (drop_while is_space s'')) ltac:(cbn [length] in Hn; lia)
                   (drop_while is_space s'') ltac:(lia)) as (H1 & H2 & H3).
      unfold replace_all in H1, H2, H3.
      specialize (H2 (drop_while_head is_space s'')).
      apply andb_prop in E as [E1 E2].
      split; [| split].
      * cbn [no_space_pair]. split; [| exact H1].
        destruct (replace_from _ _ None 0 (drop_while is_space s'')) as [| d o];
          [exact I |]. cbn in H2. rewrite H2. apply andb_false_r.
      * cbn. congruence.
      * intros Hs. constructor; [reflexivity |]. apply H3.
        destruct (drop_while_suffix is_space s'') as [pre Hpre].
        do 2 apply Forall_cons in Hs as [_ Hs].
        rewrite Hpre in Hs. now apply Forall_app in Hs as [_ Hs].
    + rewrite (replace_from_skip _ _ (at_least_2_prev_free is_space) 0) by lia.
      rewrite drop_0.
      destruct (IH (length (c2 :: s'')) ltac:(cbn [length] in *; lia)
                   (c2 :: s'') ltac:(lia)) as (H1 & H2 & H3).
      unfold replace_all in H1, H2, H3.
      split; [| split].
      * cbn [no_space_pair]. split; [| exact H1].
        destruct (replace_from _ _ None 0 (c2 :: s'')) as [| d o] eqn:Eo; [exact I |].
        destruct (is_space c1) eqn:E1; [| reflexivity].
        cbn [andb] in E. specialize (H2 E). cbn in H2. now rewrite H2.
      * cbn. auto.
      * intros Hs. apply Forall_cons in Hs as [Hc Hs]. constructor; auto.
Qed.

Lemma collapse_id s :
  no_space_pair s -> forall p, replace_from (re_at_least 2 re_s) to_space p 0 s = s.
Proof.
  unfold re_s. induction s as [| c1 s' IH]; intros Hs p; cbn [replace_from];
    rewrite match_at_at_least_2; [reflexivity |].
  cbn [no_space_pair] in Hs. destruct Hs as [Hc Hs].
  destruct s' as [| c2 s'']; [now rewrite IH |].
  rewrite Hc. now rewrite IH.
Qed.

(** *** [trim] *)

Lemma trim_infix s : exists a b, s = a ++ trim s ++ b.
Proof.
  unfold trim.
  destruct (drop_while_suffix is_space s) as [a Ha].
  destruct (drop_while_suffix is_space (rev (drop_while is_space s))) as [b Hb].
  exists a, (rev b). rewrite <- rev_app_distr, <- Hb, rev_involutive. exact Ha.
Qed.

Lemma trim_idempotent s : trim (trim s) = trim s.
Proof.
  unfold trim at 2.
  set (u := drop_while is_space s).
  set (v := drop_while is_space (rev u)).
  assert (Hv : head_fails is_space v) by apply drop_while_head.
  assert (Hrv : head_fails is_space (rev v)).
  { destruct (drop_while_suffix is_space (rev u)) as [b Hb]. fold v in Hb.
    assert (Hu : u = rev v ++ rev b) by (rewrite <- rev_app_distr, <- Hb; now rewrite rev_involutive).
    pose proof (drop_while_head is_space s) as Hh. fold u in Hh.
    destruct (rev v) as [| c w]; [exact I |]. rewrite Hu in Hh. exact Hh. }
  unfold trim. rewrite (drop_while_id _ _ Hrv), rev_involutive.
  now rewrite (drop_while_id _ _ Hv).
Qed.

(** *** What the stage returns, and what it leaves alone *)

Lemma normalize_whitespace_shape s :
  Forall not_newline (normalize_whitespace s)
  /\ no_space_pair (normalize_whitespace s)
  /\ trim (normalize_whitespace s) = normalize_whitespace s.
Proof.
  unfold normalize_whitespace.
  set (t3 := replace_all re_nl to_space _).
  assert (H3 : Forall not_newline t3) by apply replace_newline_no_newline.
  destruct (collapse_spec (length t3) t3 (le_n _)) as (Hp & _ & Hn).
  specialize (Hn H3).
  set (t4 := replace_all (re_at_least 2 re_s) to_space t3) in *.
  destruct (trim_infix t4) as (a & b & Hab).
  split; [| split].
  - rewrite Hab in Hn. apply Forall_app in Hn as [_ Hn]. now apply Forall_app in Hn as [Hn _].
  - rewrite Hab in Hp. apply no_space_pair_app_r in Hp. now apply no_space_pair_app_l in Hp.
  - apply trim_idempotent.
Qed.

Lemma newline_patterns_id (r : regex) rep s :
  (forall p, match_at r p [] = None) ->
  (forall p c s', is_newline c = false -> match_at r p (c :: s') = None) ->
  Forall not_newline s -> replace_all r rep s = s.
Proof.
  intros Hnil Hcons Hs. unfold replace_all.
  now apply (replace_from_no_match r rep is_newline).
Qed.

Lemma normalize_whitespace_fixed s :
  Forall not_newline s -> no_space_pair s -> trim s = s -> normalize_whitespace s = s.
Proof.
  intros Hn Hp Ht. unfold normalize_whitespace.
  rewrite (newline_patterns_id (re_at_least 3 re_nl)); try assumption.
  - rewrite (newline_patterns_id (re_repeat 2 re_nl)); try assumption.
    + rewrite (newline_patterns_id re_nl); try assumption.
      * unfold replace_all. now rewrite collapse_id.
      * reflexivity.
      * intros p c s' Hc. unfold re_nl. rewrite match_at_class. now rewrite Hc.
    + reflexivity.
    + intros p c s' Hc. unfold match_at. cbn. now rewrite Hc.
  - reflexivity.
  - intros p c s' Hc. unfold match_at. cbn. now rewrite Hc.
Qed.

Lemma normalize_whitespace_idempotent s :
  normalize_whitespace (normalize_whitespace s) = normalize_whitespace s.
Proof.
  destruct (normalize_whitespace_shape s) as (Hn & Hp & Ht).
  now apply normalize_whitespace_fixed.
Qed.

(** ** Pairwise similarity: symmetry *)

Lemma SFmul_comm (prec emax : Z) (x y : spec_float) :
  SFmul prec emax x y = SFmul prec emax y x.
Proof.
  destruct x as [sx | sx | | sx mx ex], y as [sy | sy | | sy my ey]; cbn [SFmul];
    rewrite ?(xorb_comm sx sy); try reflexivity.
  now rewrite (Pos.mul_comm mx my), (Z.add_comm ex ey).
Qed.

Lemma float_mul_comm (x y : float) : (x * y)%float = (y * x)%float.
Proof. apply Prim2SF_inj. rewrite !mul_spec. apply SFmul_comm. Qed.

Lemma reduce_products_comm :
  forall (a b pre_a pre_b : list float) (acc : float),
    length pre_a = length pre_b -> length a = length b ->
    reduce_from (fun sum ai i => b' ← deref (Some (pre_b ++ b));
                                 Ok (sum + ai * num_at b' i)%float)
                (length pre_a) acc a
    = reduce_from (fun sum bi i => a' ← deref (Some (pre_a ++ a));
                                   Ok (sum + bi * num_at a' i)%float)
                  (length pre_b) acc b.
Proof.
  induction a as [| x a IH]; intros [| y b] pre_a pre_b acc Hpre Hlen;
    try discriminate; [reflexivity |].
  cbn [reduce_from deref]. rewrite !bind_Ok.
  assert (Hy : num_at (pre_b ++ y :: b) (length pre_a) = y)
    by (unfold num_at; rewrite Hpre; now rewrite list_lookup_middle).
  assert (Hx : num_at (pre_a ++ x :: a) (length pre_b) = x)
    by (unfold num_at; rewrite <- Hpre; now rewrite list_lookup_middle).
  rewrite Hy, Hx, (float_mul_comm y x).
  specialize (IH b (pre_a ++ [x]) (pre_b ++ [y]) (acc + x * y)%float).
  rewrite !length_app, !Nat.add_1_r, <- !app_assoc in IH. cbn [app] in IH.
  apply IH; [now rewrite Hpre | now injection Hlen].
Qed.

(** The similarity of two vectors of one length does not depend on their
    order, in either variant. *)
Lemma dot_symmetric (a b : list float) :
  length a = length b -> dot (Some a) (Some b) = dot (Some b) (Some a).
Proof.
  intros Hlen. unfold dot. cbn [deref]. rewrite !bind_Ok.
  exact (reduce_products_comm a b [] [] 0%float eq_refl Hlen).
Qed.

(** ** Vector normalisation: the guard *)

Section Normalize.
Variable Math_hypot : list float -> float.

(** A norm that is zero (or NaN) leaves the vector as it is. *)
Lemma normalize_zero_norm (vec : list float) :
  is_zero (Math_hypot vec) = true \/ is_nan (Math_hypot vec) = true ->
  normalize Math_hypot vec = vec.
Proof.
  intros H. unfold normalize. cbn [truthy].
  destruct H as [-> | ->]; cbn; [reflexivity |]. now rewrite orb_true_r.
Qed.

End Normalize.

(** ** Rounding: what an operation returns against the exact result

    [binary_round_aux] cuts the mantissa at the exponent of the format and
    rounds it to a neighbour: the result is at most one unit in the last
    place away from the exact value.  The lemmas hold for any format. *)

Section RoundAux.
Variables prec emax : Z.
Hypothesis Hprec : 0 < prec.
Local Abbreviation emin := (SpecFloat.emin prec emax).
Local Abbreviation fexp := (SpecFloat.fexp prec emax).

Lemma Zdigits2_bounds m : 0 < m -> 2 ^ (Zdigits2 m - 1) <= m < 2 ^ Zdigits2 m.
Proof. destruct m as [| p | p]; try lia. intros _. apply digits2_pos_bounds. Qed.

Lemma Zdigits2_nonneg m : 0 <= Zdigits2 m.
Proof. destruct m; cbn; lia. Qed.

Lemma Zdigits2_pos m : 0 < m -> 0 < Zdigits2 m.
Proof. destruct m; cbn; lia. Qed.

Lemma Zdigits2_le m d : 0 <= m -> 0 <= d -> m < 2 ^ d -> Zdigits2 m <= d.
Proof.
  intros Hm Hd Hlt. destruct (Z.eq_dec m 0) as [-> | Hne]; [cbn; lia |].
  destruct (Zdigits2_bounds m ltac:(lia)) as [Hlo _].
  destruct (Z.le_gt_cases (Zdigits2 m) d) as [| Hgt]; [assumption |].
  assert (2 ^ d <= 2 ^ (Zdigits2 m - 1)) by (apply Z.pow_le_mono_r; lia). lia.
Qed.

Lemma Zdigits2_ge m d : 0 < m -> 2 ^ (d - 1) <= m -> d <= Zdigits2 m.
Proof.
  intros Hm Hlo. destruct (Zdigits2_bounds m Hm) as [_ Hhi].
  pose proof (Zdigits2_pos m Hm).
  destruct (Z.le_gt_cases d (Zdigits2 m)) as [| Hgt]; [assumption |].
  assert (2 ^ Zdigits2 m <= 2 ^ (d - 1)) by (apply Z.pow_le_mono_r; lia). lia.
Qed.

(** The first stage: the mantissa is cut at the exponent of the format. *)
Lemma shr_fexp_spec m e l :
  0 <= m -> e <= fexp (Zdigits2 m + e) ->
  shr_m (fst (shr_fexp prec emax m e l)) = m / 2 ^ (fexp (Zdigits2 m + e) - e)
  /\ snd (shr_fexp prec emax m e l) = fexp (Zdigits2 m + e).
Proof.
  intros Hm He. unfold shr_fexp, shr.
  destruct (fexp (Zdigits2 m + e) - e) as [| n | n] eqn:Hn; cbn [fst snd]; try lia.
  - rewrite shr_record_of_loc_m, Z.pow_0_r, Z.div_1_r. lia.
  - rewrite iter_shr_1_m by (rewrite shr_record_of_loc_m; lia).
    rewrite shr_record_of_loc_m. lia.
Qed.

Lemma round_nearest_even_bounds m l :
  m <= round_nearest_even m l <= m + 1.
Proof.
  destruct l as [| []]; cbn [round_nearest_even]; try lia.
  destruct (Z.even m); lia.
Qed.

(** The second stage: a mantissa that the rounding has carried to
    [2 ^ prec] moves up one exponent; nothing is lost. *)
Lemma shr_fexp_stage2 mr E :
  0 <= mr ->
  (E = emin /\ mr < 2 ^ prec) \/ (emin <= E /\ 2 ^ (prec - 1) <= mr <= 2 ^ prec) ->
  exists mf ef,
    shr_m (fst (shr_fexp prec emax mr E loc_Exact)) = mf
    /\ snd (shr_fexp prec emax mr E loc_Exact) = ef
    /\ E <= ef <= E + 1 /\ mf * 2 ^ (ef - E) = mr
    /\ (0 < mf -> fexp (Zdigits2 mf + ef) = ef).
Proof.
  intros Hmr Hcase.
  assert (Hpow : 0 < 2 ^ (prec - 1)) by (apply Z.pow_pos_nonneg; lia).
  assert (Hpow2 : 2 ^ prec = 2 * 2 ^ (prec - 1)).
  { replace prec with (Z.succ (prec - 1)) at 1 by lia. rewrite Z.pow_succ_r by lia. lia. }
  destruct Hcase as [[-> Hlt] | [HE [Hlo Hhi]]].
  - assert (Hd : Zdigits2 mr <= prec) by (apply Zdigits2_le; lia).
    pose proof (Zdigits2_nonneg mr) as Hd0.
    assert (Hf : fexp (Zdigits2 mr + emin) = emin) by (unfold SpecFloat.fexp; lia).
    destruct (shr_fexp_spec mr emin loc_Exact Hmr ltac:(lia)) as [H1 H2].
    rewrite Hf in H1, H2. rewrite Z.sub_diag, Z.pow_0_r, Z.div_1_r in H1.
    exists mr, emin. rewrite Z.sub_diag, Z.pow_0_r.
    repeat split; try lia; try assumption.
  - destruct (Z.eq_dec mr (2 ^ prec)) as [-> | Hne].
    + assert (Hd : Zdigits2 (2 ^ prec) = prec + 1).
      { apply Z.le_antisymm.
        - apply Zdigits2_le; try lia.
          replace (prec + 1) with (Z.succ prec) by lia. rewrite Z.pow_succ_r by lia. lia.
        - apply Zdigits2_ge; [lia |]. replace (prec + 1 - 1) with prec by lia. lia. }
      assert (Hf : fexp (prec + 1 + E) = E + 1) by (unfold SpecFloat.fexp; lia).
      destruct (shr_fexp_spec (2 ^ prec) E loc_Exact ltac:(lia)
                  ltac:(rewrite Hd, Hf; lia)) as [H1 H2].
      rewrite Hd, Hf in H1, H2.
      replace (E + 1 - E) with 1 in H1 by lia. rewrite Z.pow_1_r in H1.
      assert (Hq : 2 ^ prec / 2 = 2 ^ (prec - 1)).
      { rewrite Hpow2. rewrite Z.mul_comm. apply Z.div_mul. lia. }
      rewrite Hq in H1.
      exists (2 ^ (prec - 1)), (E + 1).
      replace (E + 1 - E) with 1 by lia. rewrite Z.pow_1_r.
      repeat split; try lia; try assumption.
      intros _.
      assert (Hd' : Zdigits2 (2 ^ (prec - 1)) = prec).
      { apply Z.le_antisymm.
        - apply Zdigits2_le; lia.
        - apply Zdigits2_ge; lia. }
      rewrite Hd'. unfold SpecFloat.fexp. lia.
    + assert (Hd : Zdigits2 mr = prec).
      { apply Z.le_antisymm.
        - apply Zdigits2_le; lia.
        - apply Zdigits2_ge; lia. }
      assert (Hf : fexp (prec + E) = E) by (unfold SpecFloat.fexp; lia).
      destruct (shr_fexp_spec mr E loc_Exact Hmr ltac:(rewrite Hd, Hf; lia)) as [H1 H2].
      rewrite Hd, Hf in H1, H2. rewrite Z.sub_diag, Z.pow_0_r, Z.div_1_r in H1.
      exists mr, E. rewrite Z.sub_diag, Z.pow_0_r.
      repeat split; try lia; try assumption.
      intros _. now rewrite Hd.
Qed.

(** What [binary_round_aux] returns on a mantissa that is not negative and an
    exponent not above the format's: zero or a finite number of the format,
    whose mantissa is the cut mantissa or its successor. *)
Lemma binary_round_aux_spec s mx ex lx :
  0 <= mx -> ex <= fexp (Zdigits2 mx + ex) ->
  fexp (Zdigits2 mx + ex) + 1 <= emax - prec ->
  exists mr,
    mx / 2 ^ (fexp (Zdigits2 mx + ex) - ex) <= mr
    /\ mr <= mx / 2 ^ (fexp (Zdigits2 mx + ex) - ex) + 1
    /\ match binary_round_aux prec emax s mx ex lx with
       | S754_zero s' => s' = s /\ mr = 0
       | S754_finite s' m e =>
           s' = s /\ fexp (Zdigits2 mx + ex) <= e
           /\ Zpos m * 2 ^ (e - fexp (Zdigits2 mx + ex)) = mr
           /\ bounded prec emax m e = true
       | _ => False
       end.
Proof.
  intros Hmx He Hov. unfold binary_round_aux.
  destruct (shr_fexp_spec mx ex lx Hmx He) as [H1 H2].
  destruct (shr_fexp prec emax mx ex lx) as [mrs' e']. cbn [fst snd] in H1, H2.
  set (E := fexp (Zdigits2 mx + ex)) in *. subst e'.
  set (m1 := mx / 2 ^ (E - ex)) in *.
  set (mr := round_nearest_even (shr_m mrs') (loc_of_shr_record mrs')).
  pose proof (round_nearest_even_bounds (shr_m mrs') (loc_of_shr_record mrs')) as Hmr.
  fold mr in Hmr. rewrite H1 in Hmr.
  assert (Hpk : 0 < 2 ^ (E - ex)) by (apply Z.pow_pos_nonneg; lia).
  assert (Hm1 : 0 <= m1) by (apply Z.div_pos; lia).
  assert (Hpow : 0 < 2 ^ (prec - 1)) by (apply Z.pow_pos_nonneg; lia).
  assert (Hpow2 : 2 ^ prec = 2 * 2 ^ (prec - 1)).
  { replace prec with (Z.succ (prec - 1)) at 1 by lia. rewrite Z.pow_succ_r by lia. lia. }
  assert (Hcase : (E = emin /\ mr < 2 ^ prec)
                  \/ (emin <= E /\ 2 ^ (prec - 1) <= mr <= 2 ^ prec)).
  { destruct (Z.eq_dec mx 0) as [Hz | Hnz].
    - left. subst mx. cbn [Zdigits2] in *. unfold m1 in *. rewrite Z.div_0_l in * by lia.
      split; [unfold E, SpecFloat.fexp in *; lia | lia].
    - destruct (Zdigits2_bounds mx ltac:(lia)) as [Hlo Hhi].
      pose proof (Zdigits2_pos mx ltac:(lia)) as Hdx.
      set (dx := Zdigits2 mx) in *.
      destruct (Z.le_gt_cases emin (dx + ex - prec)) as [Hn | Hs].
      + right. assert (HE : E = dx + ex - prec) by (unfold E, SpecFloat.fexp; lia).
        split; [lia |].
        assert (Hk : E - ex = dx - prec) by lia.
        assert (Hsplit : 2 ^ (dx - 1) = 2 ^ (prec - 1) * 2 ^ (E - ex)).
        { rewrite <- Z.pow_add_r by lia. f_equal. lia. }
        assert (Hsplit2 : 2 ^ dx = 2 ^ prec * 2 ^ (E - ex)).
        { rewrite <- Z.pow_add_r by lia. f_equal. lia. }
        assert (Hlo1 : 2 ^ (prec - 1) <= m1).
        { apply Z.div_le_lower_bound; [lia |]. lia. }
        assert (Hhi1 : m1 < 2 ^ prec).
        { apply Z.div_lt_upper_bound; [lia |]. lia. }
        lia.
      + left. assert (HE : E = emin) by (unfold E, SpecFloat.fexp; lia).
        split; [exact HE |].
        assert (Hhi1 : m1 < 2 ^ (prec - 1)).
        { apply Z.div_lt_upper_bound; [lia |].
          apply Z.lt_le_trans with (2 ^ dx); [lia |].
          rewrite <- Z.pow_add_r by lia. apply Z.pow_le_mono_r; lia. }
        lia. }
  destruct (shr_fexp_stage2 mr E ltac:(lia) Hcase) as (mf & ef & Hf1 & Hf2 & Hef & Hval & Hcan).
  destruct (shr_fexp prec emax mr E loc_Exact) as [mrs'' e'']. cbn [fst snd] in Hf1, Hf2.
  subst e''. rewrite Hf1. exists mr. split; [lia |]. split; [lia |].
  assert (Hpe : 0 < 2 ^ (ef - E)) by (apply Z.pow_pos_nonneg; lia).
  destruct mf as [| p | p].
  - split; [reflexivity | lia].
  - assert (Hle : (ef <=? emax - prec) = true) by (apply Z.leb_le; lia).
    rewrite Hle. split; [reflexivity |]. split; [lia |]. split; [exact Hval |].
    unfold bounded, canonical_mantissa. rewrite Hle, andb_true_r.
    apply Z.eqb_eq. apply (Hcan ltac:(lia)).
  - nia.
Qed.

End RoundAux.

(** *** Values as rationals *)

Lemma Qpow2_pos e : (0 < 2 ^ e)%Q.
Proof. apply Qpower_0_lt. reflexivity. Qed.

Lemma Qpow2_add a b : (2 ^ (a + b) == 2 ^ a * 2 ^ b)%Q.
Proof. apply Qpower_plus. discriminate. Qed.

Lemma Qpow2_inject k : 0 <= k -> (inject_Z (2 ^ k) == 2 ^ k)%Q.
Proof. intros Hk. now rewrite Zpower_Qpower. Qed.

Lemma Qpow2_le a b : a <= b -> (2 ^ a <= 2 ^ b)%Q.
Proof. intros H. apply Qpower_le_compat_l; [exact H | discriminate]. Qed.

Lemma Qpow2_lt_inv a b : (2 ^ a < 2 ^ b)%Q -> a < b.
Proof. intros H. apply (Qpower_lt_compat_l_inv 2); [exact H | reflexivity]. Qed.

Lemma inject_Z_le a b : a <= b -> (inject_Z a <= inject_Z b)%Q.
Proof. now rewrite <- Zle_Qle. Qed.

Lemma inject_Z_lt a b : a < b -> (inject_Z a < inject_Z b)%Q.
Proof. now rewrite <- Zlt_Qlt. Qed.

Lemma Qpow2_split a b : (2 ^ a == 2 ^ (a - b) * 2 ^ b)%Q.
Proof. rewrite <- Qpow2_add. now replace (a - b + b) with a by lia. Qed.

Section RoundApprox.
Variables prec emax : Z.
Hypothesis Hprec : 0 < prec.
Hypothesis Hemax : 2 <= emax.
Local Abbreviation emin := (SpecFloat.emin prec emax).
Local Abbreviation fexp := (SpecFloat.fexp prec emax).

Lemma binary_round_aux_approx s mx ex lx (z : Q) B :
  0 <= mx -> ex <= fexp (Zdigits2 mx + ex) ->
  (inject_Z mx * 2 ^ ex <= z)%Q -> (z < inject_Z (mx + 1) * 2 ^ ex)%Q ->
  (z < 2 ^ B)%Q -> B < emax ->
  rounds_to prec emax s z (binary_round_aux prec emax s mx ex lx).
Proof.
  intros Hmx He Hlo Hhi HB HBe.
  set (E := fexp (Zdigits2 mx + ex)) in *.
  pose proof (Qpow2_pos ex) as HX.
  assert (Hz0 : (0 <= z)%Q).
  { apply Qle_trans with (inject_Z mx * 2 ^ ex)%Q; [| exact Hlo].
    apply Qmult_le_0_compat; [| lra]. exact (inject_Z_le 0 mx Hmx). }
  (* the rounding unit against the value *)
  assert (HE : (2 ^ E <= 2 ^ (1 - prec) * z + 2 ^ emin)%Q /\ E + 1 <= emax - prec).
  { pose proof (Qpow2_pos (1 - prec)) as Hu. pose proof (Qpow2_pos emin) as Hn.
    destruct (Z.eq_dec E emin) as [HEe | HEn].
    - rewrite HEe. split; [nra |]. unfold SpecFloat.emin. lia.
    - destruct (Z.eq_dec mx 0) as [Hz | Hnz].
      { exfalso. subst mx. cbn [Zdigits2] in *. unfold E, SpecFloat.fexp in *. lia. }
      destruct (Zdigits2_bounds mx ltac:(lia)) as [Hdlo Hdhi].
      set (dx := Zdigits2 mx) in *.
      assert (HEd : E = dx + ex - prec) by (unfold E, SpecFloat.fexp in *; lia).
      assert (Hdq : (2 ^ (dx - 1) <= inject_Z mx)%Q).
      { rewrite <- Qpow2_inject by (pose proof (Zdigits2_pos mx ltac:(lia)); fold dx in H; lia).
        apply inject_Z_le. exact Hdlo. }
      assert (Hval : (2 ^ (dx - 1 + ex) <= z)%Q).
      { rewrite Qpow2_add. apply Qle_trans with (inject_Z mx * 2 ^ ex)%Q; [| exact Hlo].
        apply Qmult_le_compat_r; [exact Hdq | lra]. }
      split.
      + rewrite HEd. replace (dx + ex - prec) with ((1 - prec) + (dx - 1 + ex)) by lia.
        rewrite Qpow2_add. pose proof (Qpow2_pos (dx - 1 + ex)). nra.
      + assert (dx - 1 + ex < B).
        { apply Qpow2_lt_inv. eapply Qle_lt_trans; [exact Hval | exact HB]. }
        lia. }
  destruct HE as [HEq HEo].
  destruct (binary_round_aux_spec prec emax Hprec s mx ex lx Hmx He HEo)
    as (mr & Hmr1 & Hmr2 & Hres).
  fold E in Hmr1, Hmr2, Hres.
  set (k := E - ex) in *.
  assert (Hk : 0 <= k) by (unfold k; lia).
  assert (Hpk : 0 < 2 ^ k) by (apply Z.pow_pos_nonneg; lia).
  set (m1 := mx / 2 ^ k) in *.
  assert (Hm1 : 0 <= m1) by (apply Z.div_pos; lia).
  assert (Hdiv1 : m1 * 2 ^ k <= mx).
  { unfold m1. rewrite Z.mul_comm. apply Z.mul_div_le. lia. }
  assert (Hdiv2 : mx + 1 <= (m1 + 1) * 2 ^ k).
  { unfold m1. pose proof (Z.mul_succ_div_gt mx (2 ^ k) Hpk). lia. }
  assert (HPE : (2 ^ E == inject_Z (2 ^ k) * 2 ^ ex)%Q).
  { rewrite (Qpow2_split E ex). fold k. now rewrite Qpow2_inject. }
  assert (Hzlo : (inject_Z m1 * 2 ^ E <= z)%Q).
  { rewrite HPE, Qmult_assoc, <- inject_Z_mult.
    apply Qle_trans with (inject_Z mx * 2 ^ ex)%Q; [| exact Hlo].
    apply Qmult_le_compat_r; [| lra]. apply inject_Z_le. exact Hdiv1. }
  assert (Hzhi : (z <= inject_Z (m1 + 1) * 2 ^ E)%Q).
  { rewrite HPE, Qmult_assoc, <- inject_Z_mult.
    apply Qle_trans with (inject_Z (mx + 1) * 2 ^ ex)%Q; [lra |].
    apply Qmult_le_compat_r; [| lra]. apply inject_Z_le. exact Hdiv2. }
  assert (Hval : (SFmag (binary_round_aux prec emax s mx ex lx) == inject_Z mr * 2 ^ E)%Q).
  { destruct (binary_round_aux prec emax s mx ex lx) as [s' | s' | | s' m e]; try contradiction.
    - destruct Hres as [_ ->]. cbn [SFmag]. ring.
    - destruct Hres as (_ & Hee & Hm & _). cbn [SFmag].
      rewrite (Qpow2_split e E), <- Qpow2_inject by lia.
      rewrite Qmult_assoc, <- inject_Z_mult, Hm. reflexivity. }
  assert (Hmrq1 : (inject_Z m1 <= inject_Z mr)%Q) by (apply inject_Z_le; lia).
  assert (Hmrq2 : (inject_Z mr <= inject_Z (m1 + 1))%Q) by (apply inject_Z_le; lia).
  rewrite inject_Z_plus in Hzhi, Hmrq2. change (inject_Z 1) with 1%Q in *.
  pose proof (Qpow2_pos E) as HEpos.
  split; [| split].
  - destruct (binary_round_aux prec emax s mx ex lx) as [s' | s' | | s' m e]; try contradiction.
    + left. now destruct Hres as [-> _].
    + right. destruct Hres as (-> & _ & _ & Hb). eauto.
  - rewrite Hval. nra.
  - rewrite Hval. nra.
Qed.

End RoundApprox.

(** *** The operations *)

Section Operations.
Variables prec emax : Z.
Hypothesis Hprec : 0 < prec.
Hypothesis Hemax : 2 <= emax.
Local Abbreviation emin := (SpecFloat.emin prec emax).
Local Abbreviation fexp := (SpecFloat.fexp prec emax).

Lemma fexp_mono a b : a <= b -> fexp a <= fexp b.
Proof. unfold SpecFloat.fexp. lia. Qed.

Lemma shl_align_snd mx ex ez : ez <= ex -> snd (shl_align mx ex ez) = ez.
Proof.
  intros Hle. unfold shl_align.
  destruct (ez - ex) as [| d | d] eqn:Hd; cbn [snd]; lia.
Qed.

Lemma rounds_to_finite s z r :
  rounds_to prec emax s z r ->
  SFfinite r = true /\ SpecFloat.valid_binary prec emax r = true /\ SFsign_bit r = s.
Proof.
  intros [[-> | (m & e & -> & Hb)] _]; cbn; auto.
Qed.

Lemma rounds_to_ext s z z' r :
  (z == z')%Q -> rounds_to prec emax s z r -> rounds_to prec emax s z' r.
Proof.
  intros Hz (H1 & H2 & H3). split; [exact H1 |].
  pose proof (Qpow2_pos (1 - prec)). split; nra.
Qed.

(** [binary_round]: the number [m * 2^e], rounded. *)
Lemma binary_round_approx s m e B :
  (inject_Z (Zpos m) * 2 ^ e < 2 ^ B)%Q -> B < emax ->
  rounds_to prec emax s (inject_Z (Zpos m) * 2 ^ e) (binary_round prec emax s m e).
Proof.
  intros HB HBe. unfold binary_round.
  pose proof (digits2_pos_bounds m) as [Hlo Hhi].
  set (d := Zpos (digits2_pos m)) in *.
  set (e' := fexp (d + e)).
  destruct (Z.le_gt_cases e e') as [Hle | Hgt].
  - assert (Hs : shl_align m e e' = (m, e)).
    { unfold shl_align. destruct (e' - e) eqn:Hd; try reflexivity. lia. }
    rewrite Hs.
    apply (binary_round_aux_approx prec emax Hprec Hemax s (Zpos m) e loc_Exact _ B);
      [lia | exact Hle | lra | | exact HB | exact HBe].
    rewrite inject_Z_plus. pose proof (Qpow2_pos e). change (inject_Z 1) with 1%Q. nra.
  - pose proof (shl_align_fst m e e' ltac:(lia)) as Hf.
    pose proof (shl_align_snd m e e' ltac:(lia)) as Hn.
    destruct (shl_align m e e') as [mz ez]. cbn [fst snd] in Hf, Hn. subst ez.
    assert (Hp : 0 < 2 ^ (e - e')) by (apply Z.pow_pos_nonneg; lia).
    assert (Hv : (inject_Z (Zpos mz) * 2 ^ e' == inject_Z (Zpos m) * 2 ^ e)%Q).
    { rewrite Hf, inject_Z_mult, Qpow2_inject by lia.
      rewrite (Qpow2_split e e'). ring. }
    apply (rounds_to_ext s _ _ _ Hv).
    assert (HB' : (inject_Z (Zpos mz) * 2 ^ e' < 2 ^ B)%Q) by lra.
    apply (binary_round_aux_approx prec emax Hprec Hemax s (Zpos mz) e' loc_Exact _ B);
      [lia | | lra | | exact HB' | exact HBe].
    + cbn [Zdigits2]. fold e'.
      assert (Hdz : d + (e - e') <= Zpos (digits2_pos mz)).
      { apply (Zdigits2_ge (Zpos mz)); [lia |]. rewrite Hf.
        replace (d + (e - e') - 1) with ((d - 1) + (e - e')) by lia.
        rewrite Z.pow_add_r by lia. nia. }
      apply Z.le_trans with (fexp (d + e)); [reflexivity |].
      apply fexp_mono. lia.
    + rewrite inject_Z_plus. pose proof (Qpow2_pos e'). change (inject_Z 1) with 1%Q. nra.
Qed.

Lemma rounds_to_exact r :
  SFnonneg prec emax r -> rounds_to prec emax false (SFmag r) r.
Proof.
  intros (Hf & Hv & Hs).
  pose proof (Qpow2_pos (1 - prec)). pose proof (Qpow2_pos emin).
  assert (0 <= SFmag r)%Q.
  { destruct r as [| | | s m e]; cbn [SFmag]; try lra.
    apply Qmult_le_0_compat; [apply (inject_Z_le 0 (Zpos m)); lia | apply Qlt_le_weak, Qpow2_pos]. }
  destruct r as [s | s | | s m e]; try discriminate; cbn in Hs; subst s.
  - split; [now left |]. cbn [SFmag] in *. split; nra.
  - split; [right; eauto |]. split; nra.
Qed.

(** Addition of two numbers that are not negative. *)
Lemma SFadd_approx x y B :
  SFnonneg prec emax x -> SFnonneg prec emax y ->
  (SFmag x + SFmag y < 2 ^ B)%Q -> B < emax ->
  rounds_to prec emax false (SFmag x + SFmag y) (SFadd prec emax x y).
Proof.
  intros Hx Hy HB HBe.
  destruct x as [sx | sx | | sx mx ex]; try (destruct Hx as [? _]; discriminate);
  destruct y as [sy | sy | | sy my ey]; try (destruct Hy as [? _]; discriminate);
  pose proof Hx as (_ & _ & Hsx); pose proof Hy as (_ & _ & Hsy);
  cbn [SFsign_bit] in Hsx, Hsy; subst sx sy; cbn [SFadd].
  - change (SFmag (S754_zero false)) with 0%Q. split; [now left |].
    pose proof (Qpow2_pos (1 - prec)). pose proof (Qpow2_pos emin). cbn [SFmag]. split; nra.
  - pose proof (rounds_to_exact _ Hy) as (H1 & H2 & H3).
    change (SFmag (S754_zero false)) with 0%Q.
    split; [exact H1 |]. pose proof (Qpow2_pos (1 - prec)). split; nra.
  - pose proof (rounds_to_exact _ Hx) as (H1 & H2 & H3).
    change (SFmag (S754_zero false)) with 0%Q.
    split; [exact H1 |]. pose proof (Qpow2_pos (1 - prec)). split; nra.
  - cbn [cond_Zopp].
    pose proof (shl_align_fst mx ex (Z.min ex ey) ltac:(lia)) as Hfx.
    pose proof (shl_align_fst my ey (Z.min ex ey) ltac:(lia)) as Hfy.
    set (ez := Z.min ex ey) in *.
    set (ax := fst (shl_align mx ex ez)) in *.
    set (ay := fst (shl_align my ey ez)) in *.
    change (Zpos ax + Zpos ay) with (Zpos (ax + ay)). cbn [binary_normalize].
    assert (Hv : (inject_Z (Zpos (ax + ay)) * 2 ^ ez
                  == SFmag (S754_finite false mx ex) + SFmag (S754_finite false my ey))%Q).
    { cbn [SFmag]. rewrite Pos2Z.inj_add, inject_Z_plus, Hfx, Hfy, !inject_Z_mult.
      rewrite !Qpow2_inject by lia.
      rewrite (Qpow2_split ex ez), (Qpow2_split ey ez). ring. }
    apply (rounds_to_ext false _ _ _ Hv).
    apply binary_round_approx with B; [lra | exact HBe].
Qed.

(** Multiplication of two finite numbers. *)
Lemma SFmul_approx x y B :
  SFfinite x = true -> SpecFloat.valid_binary prec emax x = true ->
  SFfinite y = true -> SpecFloat.valid_binary prec emax y = true ->
  (SFmag x * SFmag y < 2 ^ B)%Q -> B < emax ->
  rounds_to prec emax (xorb (SFsign_bit x) (SFsign_bit y)) (SFmag x * SFmag y)
            (SFmul prec emax x y).
Proof.
  intros Hfx Hvx Hfy Hvy HB HBe.
  pose proof (Qpow2_pos (1 - prec)) as Hu. pose proof (Qpow2_pos emin) as Hn.
  destruct x as [sx | sx | | sx mx ex]; try discriminate;
  destruct y as [sy | sy | | sy my ey]; try discriminate;
  cbn [SFmul SFsign_bit].
  1-3: split; [now left |]; cbn [SFmag]; split; nra.
  cbn [SpecFloat.valid_binary] in Hvx, Hvy.
  apply bounded_canonical in Hvx as (Hex & Hdx & Hnx).
  apply bounded_canonical in Hvy as (Hey & Hdy & Hny).
  pose proof (digits2_pos_bounds mx) as [Hxlo Hxhi].
  pose proof (digits2_pos_bounds my) as [Hylo Hyhi].
  set (dx := Zpos (digits2_pos mx)) in *. set (dy := Zpos (digits2_pos my)) in *.
  assert (Hdx1 : 1 <= dx) by (unfold dx; lia).
  assert (Hdy1 : 1 <= dy) by (unfold dy; lia).
  assert (Hv : (inject_Z (Zpos (mx * my)) * 2 ^ (ex + ey)
                == SFmag (S754_finite sx mx ex) * SFmag (S754_finite sy my ey))%Q).
  { cbn [SFmag]. rewrite Pos2Z.inj_mul, inject_Z_mult, Qpow2_add. ring. }
  pose proof (binary_round_aux_approx prec emax Hprec Hemax (xorb sx sy)
                (Zpos (mx * my)) (ex + ey) loc_Exact
                (inject_Z (Zpos (mx * my)) * 2 ^ (ex + ey))%Q B) as Hr.
  assert (Hemin : emin <= 0) by (unfold SpecFloat.emin; lia).
  assert (Hcond : ex + ey <= fexp (Zdigits2 (Zpos (mx * my)) + (ex + ey))).
  { cbn [Zdigits2].
    assert (Hdxy : dx + dy - 1 <= Zpos (digits2_pos (mx * my))).
    { apply (Zdigits2_ge (Zpos (mx * my))); [lia |].
      replace (dx + dy - 1 - 1) with ((dx - 1) + (dy - 1)) by lia.
      rewrite Z.pow_add_r, Pos2Z.inj_mul by lia.
      assert (0 < 2 ^ (dx - 1)) by (apply Z.pow_pos_nonneg; lia).
      assert (0 < 2 ^ (dy - 1)) by (apply Z.pow_pos_nonneg; lia). nia. }
    unfold SpecFloat.fexp.
    destruct (Z.eq_dec ex emin) as [Hxe | Hxn]; destruct (Z.eq_dec ey emin) as [Hye | Hyn].
    - lia.
    - assert (dy = prec) by (apply Hny; lia). lia.
    - assert (dx = prec) by (apply Hnx; lia). lia.
    - assert (dy = prec) by (apply Hny; lia). assert (dx = prec) by (apply Hnx; lia). lia. }
  specialize (Hr ltac:(lia) Hcond).
  assert (H1 : (inject_Z (Zpos (mx * my)) * 2 ^ (ex + ey)
                <= inject_Z (Zpos (mx * my)) * 2 ^ (ex + ey))%Q) by lra.
  assert (H2 : (inject_Z (Zpos (mx * my)) * 2 ^ (ex + ey)
                < inject_Z (Zpos (mx * my) + 1) * 2 ^ (ex + ey))%Q).
  { rewrite inject_Z_plus. pose proof (Qpow2_pos (ex + ey)). change (inject_Z 1) with 1%Q. nra. }
  apply (rounds_to_ext _ _ _ _ Hv). apply (Hr H1 H2); [lra | exact HBe].
Qed.

(** Division of a finite number by a finite number that is not zero. *)
Lemma SFdiv_approx x sy my ey B :
  SFfinite x = true ->
  (SFmag x / SFmag (S754_finite sy my ey) < 2 ^ B)%Q -> B < emax ->
  rounds_to prec emax (xorb (SFsign_bit x) sy) (SFmag x / SFmag (S754_finite sy my ey))
            (SFdiv prec emax x (S754_finite sy my ey)).
Proof.
  intros Hfx HB HBe.
  pose proof (Qpow2_pos (1 - prec)) as Hu. pose proof (Qpow2_pos emin) as Hn.
  assert (Hy : (0 < SFmag (S754_finite sy my ey))%Q).
  { cbn [SFmag]. apply Qmult_lt_0_compat; [| apply Qpow2_pos].
    apply (inject_Z_lt 0 (Zpos my)). lia. }
  destruct x as [sx | sx | | sx mx ex]; try discriminate; cbn [SFdiv SFsign_bit].
  - split; [now left |]. cbn [SFmag]. unfold Qdiv. rewrite Qmult_0_l. split; nra.
  - unfold SFdiv_core_binary.
    pose proof (digits2_pos_bounds mx) as [Hxlo Hxhi].
    pose proof (digits2_pos_bounds my) as [Hylo Hyhi].
    cbn [Zdigits2].
    set (d1 := Zpos (digits2_pos mx)) in *. set (d2 := Zpos (digits2_pos my)) in *.
    set (e' := Z.min (fexp (d1 + ex - (d2 + ey))) (ex - ey)).
    set (s := ex - ey - e').
    assert (Hs : 0 <= s) by (unfold s, e'; lia).
    set (m' := match s with 0 => Zpos mx | Zpos _ => Z.shiftl (Zpos mx) s | Zneg _ => 0 end).
    assert (Hm' : m' = Zpos mx * 2 ^ s).
    { unfold m'. destruct s as [| p | p] eqn:Hsp; try lia.
      rewrite Z.shiftl_mul_pow2 by lia. reflexivity. }
    pose proof (Z.div_eucl_eq m' (Zpos my) ltac:(lia)) as Heq.
    pose proof (Z.mod_pos_bound m' (Zpos my) ltac:(lia)) as Hrem.
    unfold Z.modulo in Hrem.
    destruct (Z.div_eucl m' (Zpos my)) as [q r] eqn:Hdiv.
    assert (Hps : 0 < 2 ^ s) by (apply Z.pow_pos_nonneg; lia).
    assert (Hm'0 : 0 < m') by (rewrite Hm'; lia).
    cbn [snd] in Hrem.
    assert (Hq0 : 0 <= q).
    { destruct (Z.le_gt_cases 0 q) as [| Hneg]; [assumption |]. exfalso.
      assert (Zpos my * q <= Zpos my * (-1)) by (apply Z.mul_le_mono_nonneg_l; lia). lia. }
    (* the exact quotient *)
    assert (Hz : (SFmag (S754_finite sx mx ex) / SFmag (S754_finite sy my ey)
                  == inject_Z m' / inject_Z (Zpos my) * 2 ^ e')%Q).
    { cbn [SFmag]. rewrite Hm', inject_Z_mult, Qpow2_inject by lia.
      assert (He : (2 ^ ex == 2 ^ s * 2 ^ e' * 2 ^ ey)%Q).
      { rewrite <- !Qpow2_add. now replace (s + e' + ey) with ex by (unfold s; lia). }
      assert (0 < inject_Z (Zpos my))%Q by (apply (inject_Z_lt 0 (Zpos my)); lia).
      pose proof (Qpow2_pos ey).
      rewrite He. field. split; intros Habs; rewrite Habs in *; lra. }
    assert (Hmy : (0 < inject_Z (Zpos my))%Q) by (apply (inject_Z_lt 0 (Zpos my)); lia).
    assert (Hqlo : (inject_Z q <= inject_Z m' / inject_Z (Zpos my))%Q).
    { apply Qle_shift_div_l; [exact Hmy |]. rewrite <- inject_Z_mult. apply inject_Z_le. nia. }
    assert (Hqhi : (inject_Z m' / inject_Z (Zpos my) < inject_Z (q + 1))%Q).
    { apply Qlt_shift_div_r; [exact Hmy |]. rewrite <- inject_Z_mult.
      apply inject_Z_lt. nia. }
    set (z := (SFmag (S754_finite sx mx ex) / SFmag (S754_finite sy my ey))%Q) in *.
    apply binary_round_aux_approx with B; try assumption.
    + (* the exponent is not above the format's *)
      assert (Hdq : d1 + s - d2 <= Zdigits2 q).
      { destruct (Z.le_gt_cases (d1 + s - d2) 0) as [Hneg | Hpos].
        - pose proof (Zdigits2_nonneg q). lia.
        - assert (Hlow : 2 ^ (d1 + s - d2 - 1) <= q).
          { assert (Hsplit : 2 ^ (d1 - 1 + s) = 2 ^ (d1 + s - d2 - 1) * 2 ^ d2).
            { rewrite <- Z.pow_add_r by lia. f_equal. lia. }
            assert (Hm'lo : 2 ^ (d1 - 1 + s) <= m').
            { rewrite Hm', Z.pow_add_r by lia. nia. }
            assert (Hpp : 0 < 2 ^ (d1 + s - d2 - 1)) by (apply Z.pow_pos_nonneg; lia).
            destruct (Z.le_gt_cases (2 ^ (d1 + s - d2 - 1)) q) as [| Hlt]; [assumption |].
            exfalso. assert (q + 1 <= 2 ^ (d1 + s - d2 - 1)) by lia. nia. }
          apply Zdigits2_ge; [| exact Hlow].
          assert (0 < 2 ^ (d1 + s - d2 - 1)) by (apply Z.pow_pos_nonneg; lia). lia. }
      apply Z.le_trans with (fexp (d1 + ex - (d2 + ey))); [unfold e'; lia |].
      apply fexp_mono. unfold s in Hdq. lia.
    + rewrite Hz. apply Qmult_le_compat_r; [exact Hqlo | apply Qlt_le_weak, Qpow2_pos].
    + rewrite Hz. apply Qmult_lt_compat_r; [apply Qpow2_pos | exact Hqhi].
Qed.

End Operations.

(** *** Binary64 numbers and [Math.fround] *)

Lemma SFmag_nonneg r : (0 <= SFmag r)%Q.
Proof.
  destruct r as [| | | s m e]; cbn [SFmag]; try lra.
  apply Qmult_le_0_compat; [apply (inject_Z_le 0 (Zpos m)); lia | apply Qlt_le_weak, Qpow2_pos].
Qed.

Lemma magnitude_nonneg x : (0 <= magnitude x)%Q.
Proof. apply SFmag_nonneg. Qed.

Lemma number_square x : (number x * number x == magnitude x * magnitude x)%Q.
Proof.
  unfold number, magnitude. destruct (Prim2SF x) as [| | | [] m e]; cbn [SFmag]; ring.
Qed.

Lemma number_nonneg x :
  SFsign_bit (Prim2SF x) = false -> (number x == magnitude x)%Q.
Proof.
  unfold number, magnitude. destruct (Prim2SF x) as [| | | s m e]; cbn; try reflexivity.
  now intros ->.
Qed.

Lemma number_pos x :
  (0 < number x)%Q -> exists m e, Prim2SF x = S754_finite false m e.
Proof.
  unfold number. destruct (Prim2SF x) as [| | | [] m e]; try lra.
  - pose proof (SFmag_nonneg (S754_finite true m e)) as H. cbn [SFmag] in H. lra.
  - eauto.
Qed.

Lemma float_valid x : SpecFloat.valid_binary 53 1024 (Prim2SF x) = true.
Proof. exact (FloatAxioms.Prim2SF_valid x). Qed.

Lemma float_div_approx (x y : float) B :
  finite_number x = true -> finite_number y = true -> (0 < magnitude y)%Q ->
  (magnitude x / magnitude y < 2 ^ B)%Q -> B < 1024 ->
  rounds_to 53 1024 (xorb (SFsign_bit (Prim2SF x)) (SFsign_bit (Prim2SF y)))
           (magnitude x / magnitude y) (Prim2SF (x / y)).
Proof.
  unfold finite_number, magnitude. intros Hx Hy Hpos HB HBe. rewrite FloatAxioms.div_spec.
  destruct (Prim2SF y) as [| | | sy my ey]; try discriminate; cbn [SFmag] in Hpos; try lra.
  apply (SFdiv_approx 53 1024 ltac:(lia) ltac:(lia) (Prim2SF x) sy my ey B); assumption.
Qed.

Lemma float_mul_approx (x y : float) B :
  finite_number x = true -> finite_number y = true ->
  (magnitude x * magnitude y < 2 ^ B)%Q -> B < 1024 ->
  rounds_to 53 1024 (xorb (SFsign_bit (Prim2SF x)) (SFsign_bit (Prim2SF y)))
           (magnitude x * magnitude y) (Prim2SF (x * y)).
Proof.
  unfold finite_number, magnitude. intros Hx Hy HB HBe. rewrite FloatAxioms.mul_spec.
  apply (SFmul_approx 53 1024 ltac:(lia) ltac:(lia) _ _ B); try assumption; apply float_valid.
Qed.

Lemma float_add_approx (x y : float) B :
  finite_number x = true -> SFsign_bit (Prim2SF x) = false ->
  finite_number y = true -> SFsign_bit (Prim2SF y) = false ->
  (magnitude x + magnitude y < 2 ^ B)%Q -> B < 1024 ->
  rounds_to 53 1024 false (magnitude x + magnitude y) (Prim2SF (x + y)).
Proof.
  unfold finite_number, magnitude. intros Hx Hsx Hy Hsy HB HBe. rewrite FloatAxioms.add_spec.
  apply (SFadd_approx 53 1024 ltac:(lia) ltac:(lia) _ _ B); try assumption;
    (split; [assumption | split; [apply float_valid | assumption]]).
Qed.

(** [Math.fround] of a finite number below 4: finite, of the same sign, and
    within the relative error [2^-22] and the absolute error [2^-147]. *)
Lemma fround_approx (x : float) :
  finite_number x = true -> (magnitude x < 4)%Q ->
  finite_number (fround x) = true
  /\ SFsign_bit (Prim2SF (fround x)) = SFsign_bit (Prim2SF x)
  /\ (magnitude (fround x) <= magnitude x * (1 + 2 ^ (-22)) + 2 ^ (-147))%Q
  /\ (magnitude x * (1 - 2 ^ (-22)) - 2 ^ (-147) <= magnitude (fround x))%Q.
Proof.
  unfold finite_number, magnitude, fround. intros Hx HB.
  change (2 ^ (-22))%Q with (1 # 4194304)%Q.
  assert (H149 : (2 ^ (-147) == 4 * 2 ^ (-149))%Q).
  { change (-147) with (2 + -149). rewrite Qpow2_add. reflexivity. }
  assert (Hp149 : (0 < 2 ^ (-149))%Q) by apply Qpow2_pos.
  assert (Hh1 : (2 ^ (-149) <= 1)%Q) by (apply (Qpow2_le (-149) 0); lia).
  assert (He64 : (2 ^ SpecFloat.emin 53 1024 <= 2 ^ (-149))%Q)
    by (apply Qpow2_le; unfold SpecFloat.emin; lia).
  assert (Hp64 : (0 < 2 ^ SpecFloat.emin 53 1024)%Q) by apply Qpow2_pos.
  set (h147 := (2 ^ (-147))%Q) in *.
  set (h149 := (2 ^ (-149))%Q) in *. set (n64 := (2 ^ SpecFloat.emin 53 1024)%Q) in *.
  destruct (Prim2SF x) as [s | s | | s m e] eqn:Ex; try discriminate.
  - rewrite Ex. cbn [SFfinite SFmag]. repeat split; lra.
  - assert (Hn1 : binary_normalize 24 128 (cond_Zopp s (Zpos m)) e s = binary_round 24 128 s m e).
    { destruct s; reflexivity. }
    rewrite Hn1.
    pose proof (binary_round_approx 24 128 ltac:(lia) ltac:(lia) s m e 2) as H1.
    cbn [SFmag] in HB.
    specialize (H1 ltac:(change (2 ^ 2)%Q with 4%Q; exact HB) ltac:(lia)).
    set (z := (inject_Z (Zpos m) * 2 ^ e)%Q) in *.
    assert (Hz0 : (0 <= z)%Q) by (apply (SFmag_nonneg (S754_finite s m e))).
    destruct H1 as (Hshape & Hup & Hdn).
    change (2 ^ (1 - 24))%Q with (1 # 8388608)%Q in Hup, Hdn.
    change (2 ^ SpecFloat.emin 24 128)%Q with h149 in Hup, Hdn.
    destruct Hshape as [Hr | (m' & e' & Hr & Hb')]; rewrite Hr in *.
    + rewrite FloatAxioms.Prim2SF_SF2Prim by reflexivity. cbn [SFfinite SFsign_bit SFmag] in *.
      fold z. split; [reflexivity |]. split; [reflexivity |]. split; lra.
    + assert (Hn2 : binary_normalize prec emax (cond_Zopp s (Zpos m')) e' s
                    = binary_round 53 1024 s m' e').
      { destruct s; reflexivity. }
      rewrite Hn2.
      pose proof (binary_round_approx 53 1024 ltac:(lia) ltac:(lia) s m' e' 3) as H2.
      cbn [SFmag] in Hup, Hdn.
      set (z1 := (inject_Z (Zpos m') * 2 ^ e')%Q) in *.
      assert (Hz1 : (0 <= z1)%Q) by (apply (SFmag_nonneg (S754_finite s m' e'))).
      assert (Hz1B : (z1 < 2 ^ 3)%Q) by (change (2 ^ 3)%Q with 8%Q; lra).
      specialize (H2 Hz1B ltac:(lia)).
      destruct (rounds_to_finite 53 1024 _ _ _ H2) as (Hf2 & Hv2 & Hs2).
      rewrite FloatAxioms.Prim2SF_SF2Prim by exact Hv2.
      destruct H2 as (_ & Hup2 & Hdn2).
      change (2 ^ (1 - 53))%Q with (1 # 4503599627370496)%Q in Hup2, Hdn2.
      fold n64 in Hup2, Hdn2.
      split; [exact Hf2 |]. split; [exact Hs2 |]. cbn [SFmag]. fold z.
      split; lra.
Qed.

(** ** Vector normalisation: the norm of the result *)

Lemma norm2_nonneg v : (0 <= norm2 v)%Q.
Proof.
  induction v as [| x v IH]; cbn [norm2 fold_right]; [lra |].
  fold (norm2 v). rewrite number_square. pose proof (magnitude_nonneg x). nra.
Qed.

Lemma norm2_element x v : In x v -> (magnitude x * magnitude x <= norm2 v)%Q.
Proof.
  induction v as [| y v IH]; [contradiction |]. cbn [norm2 fold_right]. fold (norm2 v).
  intros [-> | Hin].
  - rewrite number_square. pose proof (norm2_nonneg v). lra.
  - specialize (IH Hin). rewrite number_square. pose proof (magnitude_nonneg y). nra.
Qed.

Lemma quotients2_norm2 L v : (0 < L)%Q -> (quotients2 L v * (L * L) == norm2 v)%Q.
Proof.
  intros HL. induction v as [| x v IH]; cbn [quotients2 norm2 fold_right]; [ring |].
  fold (quotients2 L v) (norm2 v). rewrite <- IH, number_square. field. lra.
Qed.

Lemma quotients2_nonneg L v : (0 < L)%Q -> (0 <= quotients2 L v)%Q.
Proof.
  intros HL. induction v as [| x v IH]; cbn [quotients2 fold_right]; [lra |].
  fold (quotients2 L v).
  assert (0 <= magnitude x / L * (magnitude x / L))%Q.
  { assert (0 <= magnitude x / L)%Q.
    { apply Qle_shift_div_l; [exact HL |]. pose proof (magnitude_nonneg x). lra. }
    nra. }
  lra.
Qed.

Lemma finite_positive len :
  (0 < number len)%Q ->
  is_zero len = false /\ is_nan len = false /\ finite_number len = true
  /\ SFsign_bit (Prim2SF len) = false /\ (magnitude len == number len)%Q.
Proof.
  intros Hpos. destruct (number_pos len Hpos) as (m & e & E).
  split; [| split; [| split; [| split]]].
  - unfold is_zero. rewrite FloatAxioms.eqb_spec, E. reflexivity.
  - apply is_nan_spec. rewrite E. discriminate.
  - unfold finite_number. now rewrite E.
  - now rewrite E.
  - symmetry. apply number_nonneg. now rewrite E.
Qed.

(** One element of the normalised vector against the exact quotient. *)
Lemma normalize_element (x len : float) :
  finite_number x = true -> (0 < number len)%Q ->
  (magnitude x <= 2 * magnitude len)%Q ->
  finite_number (fround (x / len)) = true
  /\ (magnitude (fround (x / len))
      <= magnitude x / magnitude len * (1 + 2 ^ (-21)) + 2 ^ (-146))%Q
  /\ (magnitude x / magnitude len * (1 - 2 ^ (-21)) - 2 ^ (-146)
      <= magnitude (fround (x / len)))%Q.
Proof.
  intros Hx Hpos Hle.
  destruct (finite_positive len Hpos) as (_ & _ & Hfl & _ & HL).
  assert (HLpos : (0 < magnitude len)%Q) by lra.
  pose proof (magnitude_nonneg x) as HX.
  set (q := (magnitude x / magnitude len)%Q).
  assert (Hq0 : (0 <= q)%Q) by (apply Qle_shift_div_l; [exact HLpos | lra]).
  assert (Hq2 : (q <= 2)%Q) by (apply Qle_shift_div_r; [exact HLpos | lra]).
  pose proof (float_div_approx x len 2 Hx) as Hd.
  specialize (Hd Hfl HLpos ltac:(fold q; change (2 ^ 2)%Q with 4%Q; lra) ltac:(lia)).
  fold q in Hd.
  destruct (rounds_to_finite 53 1024 _ _ _ Hd) as (HfD & _ & _).
  destruct Hd as (_ & Hup & Hdn). fold (magnitude (x / len)) in Hup, Hdn.
  change (2 ^ (1 - 53))%Q with (1 # 4503599627370496)%Q in Hup, Hdn.
  assert (He64 : (2 ^ SpecFloat.emin 53 1024 <= 2 ^ (-149))%Q)
    by (apply Qpow2_le; unfold SpecFloat.emin; lia).
  assert (Hp64 : (0 < 2 ^ SpecFloat.emin 53 1024)%Q) by apply Qpow2_pos.
  assert (Hp149 : (0 < 2 ^ (-149))%Q) by apply Qpow2_pos.
  assert (Hh1 : (2 ^ (-149) <= 1)%Q) by (apply (Qpow2_le (-149) 0); lia).
  assert (H147 : (2 ^ (-147) == 4 * 2 ^ (-149))%Q).
  { change (-147) with (2 + -149). rewrite Qpow2_add. reflexivity. }
  assert (H146 : (2 ^ (-146) == 8 * 2 ^ (-149))%Q).
  { change (-146) with (3 + -149). rewrite Qpow2_add. reflexivity. }
  destruct (fround_approx (x / len) HfD) as (Hfy & _ & Hyup & Hydn).
  { fold (magnitude (x / len)).
    set (n64 := (2 ^ SpecFloat.emin 53 1024)%Q) in *. set (h149 := (2 ^ (-149))%Q) in *. lra. }
  change (2 ^ (-22))%Q with (1 # 4194304)%Q in Hyup, Hydn.
  change (2 ^ (-21))%Q with (1 # 2097152)%Q.
  set (n64 := (2 ^ SpecFloat.emin 53 1024)%Q) in *. set (h149 := (2 ^ (-149))%Q) in *.
  set (h147 := (2 ^ (-147))%Q) in *. set (h146 := (2 ^ (-146))%Q) in *.
  split; [exact Hfy |]. split; lra.
Qed.

Lemma square_upper (q Y a b : Q) :
  (0 <= q)%Q -> (q <= 2)%Q -> (0 <= a)%Q -> (a <= 1 # 2)%Q -> (0 <= b)%Q -> (b <= 1)%Q ->
  (0 <= Y)%Q -> (Y <= q * (1 + a) + b)%Q ->
  (Y * Y <= (1 + a) * (1 + a) * (q * q) + 8 * b)%Q.
Proof.
  intros Hq0 Hq2 Ha0 Ha1 Hb0 Hb1 HY0 HY.
  set (T := (q * (1 + a) + b)%Q) in *.
  assert (H1 : (Y * Y <= T * T)%Q) by nra.
  assert (H2 : (T * T == (1 + a) * (1 + a) * (q * q) + (2 * q * (1 + a) + b) * b)%Q)
    by (unfold T; ring).
  assert (H3 : (2 * q * (1 + a) + b <= 8)%Q) by nra.
  assert (H4 : ((2 * q * (1 + a) + b) * b <= 8 * b)%Q) by nra.
  lra.
Qed.

Lemma square_lower (q Y a b : Q) :
  (0 <= q)%Q -> (q <= 2)%Q -> (0 <= a)%Q -> (a <= 1 # 2)%Q -> (0 <= b)%Q -> (b <= 1)%Q ->
  (0 <= Y)%Q -> (q * (1 - a) - b <= Y)%Q ->
  ((1 - a) * (1 - a) * (q * q) - 8 * b <= Y * Y)%Q.
Proof.
  intros Hq0 Hq2 Ha0 Ha1 Hb0 Hb1 HY0 HY.
  set (T := (q * (1 - a))%Q) in *.
  assert (HT0 : (0 <= T)%Q) by (unfold T; nra).
  assert (HT2 : (T <= 2)%Q) by (unfold T; nra).
  assert (HTT : ((1 - a) * (1 - a) * (q * q) == T * T)%Q) by (unfold T; ring).
  rewrite HTT.
  destruct (Qlt_le_dec T b) as [Hlt | Hge].
  - assert (T * T <= b * b)%Q by nra. assert (b * b <= b)%Q by nra.
    assert (0 <= Y * Y)%Q by nra. lra.
  - assert (H1 : ((T - b) * (T - b) <= Y * Y)%Q) by nra.
    assert (H2 : ((T - b) * (T - b) == T * T - 2 * T * b + b * b)%Q) by ring.
    assert (H3 : (2 * T * b <= 4 * b)%Q) by nra.
    assert (0 <= b * b)%Q by nra. lra.
Qed.

(** The squared norm of the normalised elements against the exact sum of the
    squared quotients. *)
Lemma normalized_sum (len : float) (v : list float) :
  (0 < number len)%Q ->
  (forall x, In x v -> finite_number x = true /\ (magnitude x <= 2 * magnitude len)%Q) ->
  forallb finite_number (map (fun x => fround (x / len)) v) = true
  /\ (norm2 (map (fun x => fround (x / len)) v)
      <= (1 + 2 ^ (-21)) * (1 + 2 ^ (-21)) * quotients2 (magnitude len) v
         + inject_Z (Z.of_nat (length v)) * 2 ^ (-143))%Q
  /\ ((1 - 2 ^ (-21)) * (1 - 2 ^ (-21)) * quotients2 (magnitude len) v
      - inject_Z (Z.of_nat (length v)) * 2 ^ (-143)
      <= norm2 (map (fun x => fround (x / len)) v))%Q.
Proof.
  intros Hpos.
  destruct (finite_positive len Hpos) as (_ & _ & Hfl & _ & HL).
  assert (HLpos : (0 < magnitude len)%Q) by lra.
  assert (Ha : (0 <= 2 ^ (-21))%Q /\ (2 ^ (-21) <= 1 # 2)%Q).
  { split; [apply Qlt_le_weak, Qpow2_pos |]. apply (Qpow2_le (-21) (-1)). lia. }
  assert (Hb : (0 <= 2 ^ (-146))%Q /\ (2 ^ (-146) <= 1)%Q).
  { split; [apply Qlt_le_weak, Qpow2_pos |]. apply (Qpow2_le (-146) 0). lia. }
  assert (Hc : (2 ^ (-143) == 8 * 2 ^ (-146))%Q).
  { change (-143) with (3 + -146). rewrite Qpow2_add. reflexivity. }
  set (a := (2 ^ (-21))%Q) in *. set (b := (2 ^ (-146))%Q) in *. set (c := (2 ^ (-143))%Q) in *.
  induction v as [| x v IH]; intros Hall.
  - cbn [map forallb norm2 quotients2 fold_right length Z.of_nat].
    change (inject_Z (Z.of_nat 0)) with 0%Q. repeat split; lra.
  - destruct (Hall x (or_introl eq_refl)) as [Hfx Hxle].
    destruct (IH (fun y Hy => Hall y (or_intror Hy))) as (IHf & IHup & IHdn).
    destruct (normalize_element x len Hfx Hpos Hxle) as (Hfy & Hyup & Hydn).
    fold a b in Hyup, Hydn.
    pose proof (magnitude_nonneg x) as HX.
    set (q := (magnitude x / magnitude len)%Q) in *.
    assert (Hq0 : (0 <= q)%Q) by (apply Qle_shift_div_l; [exact HLpos | lra]).
    assert (Hq2 : (q <= 2)%Q) by (apply Qle_shift_div_r; [exact HLpos | lra]).
    pose proof (magnitude_nonneg (fround (x / len))) as HY0.
    pose proof (square_upper q _ a b Hq0 Hq2 (proj1 Ha) (proj2 Ha) (proj1 Hb) (proj2 Hb) HY0 Hyup)
      as Hsu.
    pose proof (square_lower q _ a b Hq0 Hq2 (proj1 Ha) (proj2 Ha) (proj1 Hb) (proj2 Hb) HY0 Hydn)
      as Hsl.
    cbn [map forallb norm2 quotients2 fold_right length].
    fold (norm2 (map (fun x => fround (x / len)) v)) (quotients2 (magnitude len) v). fold q.
    rewrite Hfy, IHf, number_square.
    rewrite Nat2Z.inj_succ, <- Z.add_1_r, inject_Z_plus. change (inject_Z 1) with 1%Q.
    set (Y2 := (magnitude (fround (x / len)) * magnitude (fround (x / len)))%Q) in *.
    set (N := norm2 (map (fun x => fround (x / len)) v)) in *.
    set (Q2 := quotients2 (magnitude len) v) in *.
    set (n := inject_Z (Z.of_nat (length v))) in *.
    set (qq := (q * q)%Q) in *.
    split; [reflexivity |]. split.
    + lra.
    + lra.
Qed.

Lemma forallb_finite_In v x : forallb finite_number v = true -> In x v -> finite_number x = true.
Proof. intros H Hin. rewrite forallb_forall in H. now apply H. Qed.

(** C7, as the code has it: [normalize] returns the vector as it is when
    [Math.hypot] gives zero (or NaN), so it never divides by zero; and for a
    vector of finite numbers, at most 2^53 of them, whose norm [Math.hypot]
    gives to within a millionth, it stores every element divided by that
    norm, and the L2 norm of what it returns is within 1e-5 of 1. *)
Theorem C7_normalize_unit_norm (Math_hypot : list float -> float) (v : list float) :
  (is_zero (Math_hypot v) = true \/ is_nan (Math_hypot v) = true ->
   normalize Math_hypot v = v)
  /\ (forallb finite_number v = true -> Z.of_nat (length v) <= 2 ^ 53 ->
      norm_within 0.000001 v (Math_hypot v) ->
      normalize Math_hypot v = map (fun x => fround (x / Math_hypot v)) v
      /\ unit_within 0.00001 (normalize Math_hypot v)).
Proof.
  split; [apply normalize_zero_norm |].
  intros Hfin Hlen (Hfl & Hpos & Hlo & Hhi).
  destruct (finite_positive _ Hpos) as (Hz & Hn & _ & _ & HL).
  assert (Hnorm : normalize Math_hypot v = map (fun x => fround (x / Math_hypot v)) v).
  { unfold normalize. cbn [truthy]. now rewrite Hz, Hn. }
  split; [exact Hnorm |]. rewrite Hnorm.
  set (len := Math_hypot v) in *.
  assert (HLpos : (0 < magnitude len)%Q) by lra.
  assert (HLL : (number len * number len == magnitude len * magnitude len)%Q)
    by apply number_square.
  pose proof (norm2_nonneg v) as HN0.
  assert (Hall : forall x, In x v ->
                   finite_number x = true /\ (magnitude x <= 2 * magnitude len)%Q).
  { intros x Hin. split; [now apply (forallb_finite_In v) |].
    pose proof (norm2_element x v Hin) as Hx. pose proof (magnitude_nonneg x) as HX.
    destruct (Qlt_le_dec (2 * magnitude len) (magnitude x)) as [Hgt | Hle]; [| exact Hle].
    exfalso.
    assert (4 * (magnitude len * magnitude len) < magnitude x * magnitude x)%Q by nra.
    lra. }
  destruct (normalized_sum len v Hpos Hall) as (Hf & Hup & Hdn).
  pose proof (quotients2_norm2 (magnitude len) v HLpos) as HQ.
  pose proof (quotients2_nonneg (magnitude len) v HLpos) as HQ0.
  set (Q2 := quotients2 (magnitude len) v) in *.
  set (LL := (magnitude len * magnitude len)%Q) in *.
  assert (HLLpos : (0 < LL)%Q) by (unfold LL; nra).
  assert (HQlo : ((1 - (1 # 1000000)) * (1 - (1 # 1000000)) * Q2 <= 1)%Q).
  { apply (proj1 (Qmult_le_r _ _ LL HLLpos)). lra. }
  assert (HQhi : (1 <= (1 + (1 # 1000000)) * (1 + (1 # 1000000)) * Q2)%Q).
  { apply (proj1 (Qmult_le_r _ _ LL HLLpos)). lra. }
  assert (Hn53 : (inject_Z (Z.of_nat (length v)) <= inject_Z (2 ^ 53))%Q)
    by (apply inject_Z_le; exact Hlen).
  assert (Hn0 : (0 <= inject_Z (Z.of_nat (length v)))%Q)
    by (apply (inject_Z_le 0); lia).
  change (inject_Z (2 ^ 53)) with 9007199254740992%Q in Hn53.
  change (2 ^ (-21))%Q with (1 # 2097152)%Q in Hup, Hdn.
  change (2 ^ (-143))%Q with (1 # 11150372599265311570767859136324180752990208)%Q in Hup, Hdn.
  set (n := inject_Z (Z.of_nat (length v))) in *.
  split; [exact Hf |]. split; lra.
Qed.

Lemma C7_witness_three_four :
  normalize sqrt_of_squares [3; 4]%float = map (fun x => fround (x / 5)) [3; 4]%float
  /\ unit_within 0.00001 (normalize sqrt_of_squares [3; 4]%float).
Proof.
  apply (C7_normalize_unit_norm sqrt_of_squares [3; 4]%float).
  - reflexivity.
  - vm_compute. discriminate.
  - repeat split; vm_compute; try reflexivity; discriminate.
Defined.

(** C7 as stated fails: a vector that holds an infinite element has an
    infinite norm, not a zero one; the element divided by that norm is NaN,
    and what [normalize] returns has no norm at all. *)
Lemma C7_counterexample_infinite_element :
  sqrt_of_squares [infinity; 1]%float = infinity
  /\ is_zero (sqrt_of_squares [infinity; 1]%float) = false
  /\ map is_nan (normalize sqrt_of_squares [infinity; 1]%float) = [true; false]
  /\ ~ unit_within 0.00001 (normalize sqrt_of_squares [infinity; 1]%float).
Proof.
  repeat split; try (vm_compute; reflexivity).
  intros [H _]. vm_compute in H. discriminate.
Qed.

(** ** Pairwise similarity: a vector with itself *)

Lemma accumulate_upper (k total p acc P acc' u h : Q) :
  (0 <= k)%Q -> (k * u <= 1 # 2)%Q -> (0 <= u)%Q -> (u <= 1)%Q -> (0 <= h)%Q ->
  (0 <= total)%Q -> (0 <= p)%Q ->
  (acc <= total * (1 + 3 * k * u) + 8 * k * h)%Q ->
  (P <= p + (u * p + h))%Q ->
  (acc' <= acc + P + (u * (acc + P) + h))%Q ->
  (acc' <= (total + p) * (1 + 3 * (k + 1) * u) + 8 * (k + 1) * h)%Q.
Proof.
  intros Hk Hku Hu0 Hu1 Hh HS Hp Hacc HP Hacc'.
  set (T := (total * (1 + 3 * k * u) + 8 * k * h + (p + (u * p + h)))%Q).
  assert (HT : (acc + P <= T)%Q) by (unfold T; lra).
  assert (HTu : (u * (acc + P) <= u * T)%Q) by nra.
  assert (F1 : (u * (k * u) * total <= u * (1 # 2) * total)%Q).
  { assert (0 <= u * total)%Q by nra. nra. }
  assert (F2 : (k * u * h <= (1 # 2) * h)%Q) by nra.
  assert (F3 : (p * u * u <= p * u)%Q).
  { assert (0 <= p * u)%Q by nra. nra. }
  assert (F4 : (0 <= u * k * p)%Q).
  { assert (0 <= k * p)%Q by nra. nra. }
  assert (F5 : (0 <= u * total)%Q) by nra.
  assert (F6 : (h * u <= h)%Q) by nra.
  apply Qle_trans with (T + (u * T + h))%Q; [lra |].
  unfold T. 
  assert (E : ((total + p) * (1 + 3 * (k + 1) * u) + 8 * (k + 1) * h
               - (total * (1 + 3 * k * u) + 8 * k * h + (p + (u * p + h))
                  + (u * (total * (1 + 3 * k * u) + 8 * k * h + (p + (u * p + h))) + h))
               == 2 * (u * total) - 3 * (u * (k * u) * total) - 8 * (k * u * h)
                  + (p * u - p * u * u) + 3 * (u * k * p) + 6 * h - h * u)%Q) by ring.
  lra.
Qed.

Lemma accumulate_lower (k total p acc P acc' u h : Q) :
  (0 <= k)%Q -> (0 <= u)%Q -> (u <= 1)%Q -> (0 <= h)%Q ->
  (0 <= total)%Q -> (0 <= p)%Q ->
  (total * (1 - 3 * k * u) - 8 * k * h <= acc)%Q ->
  (p <= P + (u * p + h))%Q ->
  (acc + P <= acc' + (u * (acc + P) + h))%Q ->
  ((total + p) * (1 - 3 * (k + 1) * u) - 8 * (k + 1) * h <= acc')%Q.
Proof.
  intros Hk Hu0 Hu1 Hh HS Hp Hacc HP Hacc'.
  set (T := (total * (1 - 3 * k * u) - 8 * k * h + (p - (u * p + h)))%Q).
  assert (HT : (T <= acc + P)%Q) by (unfold T; lra).
  assert (HTu : ((1 - u) * T <= (1 - u) * (acc + P))%Q) by nra.
  assert (F1 : (0 <= u * (k * u) * total)%Q).
  { assert (0 <= u * total)%Q by nra. assert (0 <= k * u)%Q by nra. nra. }
  assert (F2 : (0 <= k * u * h)%Q).
  { assert (0 <= k * u)%Q by nra. nra. }
  assert (F3 : (0 <= p * u * u)%Q).
  { assert (0 <= p * u)%Q by nra. nra. }
  assert (F4 : (0 <= u * k * p)%Q).
  { assert (0 <= k * p)%Q by nra. nra. }
  assert (F5 : (0 <= u * total)%Q) by nra.
  assert (F6 : (0 <= h * u)%Q) by nra.
  assert (F7 : (0 <= p * u)%Q) by nra.
  apply Qle_trans with ((1 - u) * T - h)%Q; [| lra].
  unfold T.
  assert (E : ((1 - u) * (total * (1 - 3 * k * u) - 8 * k * h + (p - (u * p + h))) - h
               - ((total + p) * (1 - 3 * (k + 1) * u) - 8 * (k + 1) * h)
               == 2 * (u * total) + 3 * (u * (k * u) * total) + 8 * (k * u * h)
                  + (p * u + p * u * u) + 3 * (u * k * p) + 6 * h + h * u)%Q) by ring.
  lra.
Qed.

Lemma norm2_app v w : (norm2 (v ++ w) == norm2 v + norm2 w)%Q.
Proof.
  induction v as [| x v IH].
  - cbn [app]. change (norm2 []) with 0%Q. ring.
  - cbn [app norm2 fold_right]. fold (norm2 (v ++ w)) (norm2 v). rewrite IH. ring.
Qed.

Lemma dot_self_loop (a : list float) :
  (norm2 a <= 4)%Q -> Z.of_nat (length a) <= 2 ^ 51 ->
  forall l pre acc, a = pre ++ l -> forallb finite_number l = true ->
    sum_within (length pre) (norm2 pre) acc ->
    exists s,
      reduce_from (fun sum ai i => b' ← deref (Some a); Ok (sum + ai * num_at b' i)%float)
                  (length pre) acc l = Ok s
      /\ sum_within (length a) (norm2 a) s.
Proof.
  intros HN4 Hlen.
  assert (Hu : (0 <= 2 ^ (-52))%Q /\ (2 ^ (-52) <= 1)%Q).
  { split; [apply Qlt_le_weak, Qpow2_pos | apply (Qpow2_le (-52) 0); lia]. }
  assert (Hh : (0 <= 2 ^ (-1074))%Q /\ (2 ^ (-1074) <= 2 ^ (-52))%Q).
  { split; [apply Qlt_le_weak, Qpow2_pos | apply Qpow2_le; lia]. }
  assert (Hu51 : (inject_Z (2 ^ 51) * 2 ^ (-52) == 1 # 2)%Q) by reflexivity.
  induction l as [| x l IH]; intros pre acc Ha Hfin Hacc.
  - exists acc. split; [reflexivity |]. rewrite app_nil_r in Ha. now subst pre.
  - cbn [forallb] in Hfin. apply andb_prop in Hfin as [Hfx Hfl].
    cbn [reduce_from deref]. rewrite !bind_Ok.
    assert (Hx : num_at a (length pre) = x).
    { unfold num_at. rewrite Ha. now rewrite list_lookup_middle. }
    rewrite Hx.
    assert (Hin : In x a) by (rewrite Ha; apply in_or_app; right; now left).
    pose proof (norm2_element x a Hin) as HX2.
    pose proof (magnitude_nonneg x) as HX.
    set (p := (magnitude x * magnitude x)%Q) in *.
    assert (Hp0 : (0 <= p)%Q) by (unfold p; nra).
    (* the product *)
    pose proof (float_mul_approx x x 3 Hfx Hfx) as Hm.
    fold p in Hm. specialize (Hm ltac:(change (2 ^ 3)%Q with 8%Q; lra) ltac:(lia)).
    rewrite xorb_nilpotent in Hm.
    destruct (rounds_to_finite 53 1024 _ _ _ Hm) as (HfP & _ & HsP).
    destruct Hm as (_ & HPup & HPdn). fold (magnitude (x * x)) in HPup, HPdn.
    change (2 ^ (1 - 53))%Q with (2 ^ (-52))%Q in HPup, HPdn.
    change (2 ^ SpecFloat.emin 53 1024)%Q with (2 ^ (-1074))%Q in HPup, HPdn.
    (* the sum so far *)
    destruct Hacc as (Hfa & Hsa & Haup & Hadn).
    pose proof (norm2_nonneg pre) as HS0.
    pose proof (norm2_nonneg l) as Hl0.
    assert (HNa : (norm2 a == norm2 pre + (p + norm2 l))%Q).
    { rewrite Ha, norm2_app. cbn [norm2 fold_right]. fold (norm2 l).
      rewrite number_square. reflexivity. }
    assert (Hk : (0 <= Z.of_nat (length pre) < 2 ^ 51)).
    { rewrite Ha, length_app in Hlen. cbn [length] in Hlen. lia. }
    assert (Hkq0 : (0 <= inject_Z (Z.of_nat (length pre)))%Q) by (apply (inject_Z_le 0); lia).
    assert (Hkq : (inject_Z (Z.of_nat (length pre)) <= inject_Z (2 ^ 51))%Q)
      by (apply inject_Z_le; lia).
    set (k := inject_Z (Z.of_nat (length pre))) in *.
    set (u := (2 ^ (-52))%Q) in *. set (h := (2 ^ (-1074))%Q) in *.
    set (total := norm2 pre) in *.
    assert (Hku : (k * u <= 1 # 2)%Q) by nra.
    assert (Hkh : (k * h <= 1 # 2)%Q) by nra.
    assert (HSk : (total * (k * u) <= total * (1 # 2))%Q) by nra.
    assert (Hub : (magnitude acc + magnitude (x * x) < 2 ^ 5)%Q).
    { change (2 ^ 5)%Q with 32%Q. nra. }
    pose proof (float_add_approx acc (x * x) 5 Hfa Hsa HfP HsP Hub ltac:(lia)) as Hadd.
    destruct (rounds_to_finite 53 1024 _ _ _ Hadd) as (HfA & _ & HsA).
    destruct Hadd as (_ & HAup & HAdn). fold (magnitude (acc + x * x)) in HAup, HAdn.
    change (2 ^ (1 - 53))%Q with u in HAup, HAdn.
    change (2 ^ SpecFloat.emin 53 1024)%Q with h in HAup, HAdn.
    specialize (IH (pre ++ [x]) (acc + x * x)%float).
    rewrite length_app, Nat.add_1_r in IH. apply IH.
    + rewrite <- app_assoc. exact Ha.
    + exact Hfl.
    + split; [exact HfA |]. split; [exact HsA |].
      rewrite Nat2Z.inj_succ, <- Z.add_1_r, inject_Z_plus. change (inject_Z 1) with 1%Q.
      fold k u h.
      assert (ES : (norm2 (pre ++ [x]) == total + p)%Q).
      { rewrite norm2_app. cbn [norm2 fold_right]. rewrite number_square. fold p total. ring. }
      rewrite ES. split.
      * apply (accumulate_upper k total p (magnitude acc) (magnitude (x * x))); try assumption;
          try lra.
      * apply (accumulate_lower k total p (magnitude acc) (magnitude (x * x))); try assumption;
          try lra.
Qed.

(** C8: both similarity functions give the same number for two vectors of
    equal length in either order; and the similarity of a vector with itself
    is within [2t + t^2 + n / 2^48] of 1 when its [n] elements are finite, at
    most 2^51 of them, and its L2 norm is within [t] of 1. *)
Theorem C8_similarity_symmetric_self_near_one (a b : list float) (t : Q) :
  (length a = length b ->
   dot (Some a) (Some b) = dot (Some b) (Some a)
   /\ cosineSimilarity (Some a) (Some b) = cosineSimilarity (Some b) (Some a))
  /\ ((0 <= t)%Q -> (t <= 1)%Q -> unit_within t a -> Z.of_nat (length a) <= 2 ^ 51 ->
      exists s,
        dot (Some a) (Some a) = Ok s /\ cosineSimilarity (Some a) (Some a) = Ok s
        /\ finite_number s = true
        /\ (1 - self_similarity_tolerance t (length a) <= number s)%Q
        /\ (number s <= 1 + self_similarity_tolerance t (length a))%Q).
Proof.
  split.
  { intros Hlen. split; [| rewrite !cosineSimilarity_dot]; now apply dot_symmetric. }
  intros Ht0 Ht1 (Hfin & Hlo & Hhi) Hlen.
  assert (HN4 : (norm2 a <= 4)%Q) by nra.
  destruct (dot_self_loop a HN4 Hlen a [] 0%float eq_refl Hfin) as (s & Hs & Hok).
  { split; [reflexivity |]. split; [reflexivity |].
    change (magnitude 0) with 0%Q. change (norm2 []) with 0%Q.
    change (inject_Z (Z.of_nat (length (@nil float)))) with 0%Q. split; lra. }
  exists s. rewrite cosineSimilarity_dot. unfold dot. cbn [deref]. rewrite bind_Ok.
  change (length (@nil float)) with 0%nat in Hs.
  split; [exact Hs |]. split; [exact Hs |].
  destruct Hok as (Hfs & Hss & Hup & Hdn).
  split; [exact Hfs |]. rewrite (number_nonneg s Hss). unfold self_similarity_tolerance.
  assert (Hn0 : (0 <= inject_Z (Z.of_nat (length a)))%Q) by (apply (inject_Z_le 0); lia).
  assert (Hu : (2 ^ (-48) == 16 * 2 ^ (-52))%Q) by reflexivity.
  assert (Hup0 : (0 < 2 ^ (-52))%Q) by apply Qpow2_pos.
  assert (Hh : (0 <= 2 ^ (-1074))%Q /\ (4 * 2 ^ (-1074) <= 2 ^ (-52))%Q).
  { split; [apply Qlt_le_weak, Qpow2_pos |].
    assert (H54 : (2 ^ (-52) == 4 * 2 ^ (-54))%Q) by reflexivity.
    pose proof (Qpow2_le (-1074) (-54) ltac:(lia)). lra. }
  pose proof (norm2_nonneg a) as HN0.
  set (n := inject_Z (Z.of_nat (length a))) in *.
  set (u := (2 ^ (-52))%Q) in *. set (h := (2 ^ (-1074))%Q) in *.
  set (N := norm2 a) in *. set (w := (2 ^ (-48))%Q) in *.
  assert (Hnu : (0 <= n * u)%Q) by nra.
  assert (HNnu : (N * (n * u) <= 4 * (n * u))%Q) by nra.
  assert (HNnu0 : (0 <= N * (n * u))%Q) by nra.
  assert (Hnh : (4 * (n * h) <= n * u)%Q) by nra.
  assert (Hnh0 : (0 <= n * h)%Q) by nra.
  assert (Htt : (0 <= t * t)%Q) by nra.
  assert (Hnw : (n * w == 16 * (n * u))%Q) by (rewrite Hu; ring).
  split; lra.
Qed.

Lemma C8_witness_unit_vector :
  (dot (Some [0.6; 0.8]%float) (Some [1; 0]%float)
   = dot (Some [1; 0]%float) (Some [0.6; 0.8]%float)
   /\ cosineSimilarity (Some [0.6; 0.8]%float) (Some [1; 0]%float)
      = cosineSimilarity (Some [1; 0]%float) (Some [0.6; 0.8]%float))
  /\ exists s,
       dot (Some [0.6; 0.8]%float) (Some [0.6; 0.8]%float) = Ok s
       /\ cosineSimilarity (Some [0.6; 0.8]%float) (Some [0.6; 0.8]%float) = Ok s
       /\ finite_number s = true
       /\ (1 - self_similarity_tolerance 0.00001 2 <= number s)%Q
       /\ (number s <= 1 + self_similarity_tolerance 0.00001 2)%Q.
Proof.
  destruct (C8_similarity_symmetric_self_near_one [0.6; 0.8]%float [1; 0]%float 0.00001%Q)
    as [Hsym Hself].
  split; [exact (Hsym eq_refl) |].
  apply Hself.
  - vm_compute. discriminate.
  - vm_compute. discriminate.
  - repeat split; vm_compute; try reflexivity; discriminate.
  - vm_compute. discriminate.
Defined.

(** ** Loading in the first variant *)

Section Loading.
Variable strip_markdown : string -> string.
Variable read_matter : string -> option (string * gmap string jsval).

Lemma processDocumentFile_Some filePath d :
  processDocumentFile strip_markdown read_matter filePath = Some d ->
  path d = filePath
  /\ (exists s, prop (frontmatter d) "slug" = VStr s /\ s <> "")
  /\ is_true (prop (frontmatter d) "draft") = false.
Proof.
  unfold processDocumentFile.
  destruct (read_matter filePath) as [[markdownContent fm] |]; [| discriminate].
  destruct (prop fm "slug") as [| | b | x | s | r] eqn:Hslug; cbn; try discriminate.
  destruct (String.eqb_spec s "") as [-> | Hne]; cbn; [discriminate |].
  destruct (is_true (prop fm "draft")) eqn:Hdraft; [discriminate |].
  intros [= <-]. cbn. rewrite Hslug. eauto.
Qed.

(** A file without a non-empty string slug, or marked [draft: true], gives
    no document: nothing that is loaded has its path. *)
Lemma loadAllDocuments_excludes filePaths p md fm :
  read_matter p = Some (md, fm) ->
  is_string (prop fm "slug") = false \/ truthy (prop fm "slug") = false
  \/ prop fm "draft" = VBool true ->
  forall d, d ∈ loadAllDocuments strip_markdown read_matter filePaths -> path d <> p.
Proof.
  intros Hread Hbad d Hd Hp. unfold loadAllDocuments in Hd.
  apply list_elem_of_omap in Hd as (p' & _ & Hd).
  destruct (processDocumentFile_Some p' d Hd) as (Hpath & _ & _).
  rewrite Hpath in Hp. subst p'.
  unfold processDocumentFile in Hd. rewrite Hread in Hd.
  destruct Hbad as [H | [H | H]]; rewrite H in Hd.
  - cbn in Hd. discriminate.
  - cbn in Hd. rewrite orb_true_r in Hd. discriminate.
  - destruct (negb _ || negb _) in Hd; cbn in Hd; discriminate.
Qed.

End Loading.

(** ** The first variant, end to end: excluded files leave no trace *)

Lemma generateDocumentEmbeddings_length
    (extractor : list string -> bool -> result EmbeddingOutput) docs embs :
  generateDocumentEmbeddings extractor docs = Ok embs ->
  embs = [] \/ length embs = length docs.
Proof.
  unfold generateDocumentEmbeddings.
  destruct (length docs =? 0)%nat; [intros [= <-]; now left |].
  destruct (extractor (map content docs) true) as [out | e]; [| discriminate].
  rewrite bind_Ok.
  destruct (dims out) as [[| numDocsOutput [| embeddingDim ds]] |];
    try (intros [= <-]; now left).
  destruct (Nat.eqb_spec numDocsOutput (length docs)) as [-> | _]; cbn [negb].
  - intros [= <-]. right. now rewrite length_map, length_seq.
  - intros [= <-]. now left.
Qed.

Lemma fromEntries_lookup_elem {V} (l : list (string * V)) k v :
  forall m : gmap string V,
    foldl (fun o kv => <[kv.1 := kv.2]> o) m l !! k = Some v ->
    m !! k = Some v \/ (k, v) ∈ l.
Proof.
  induction l as [| [k' v'] l IH]; intros m H; cbn [foldl fst snd] in H; [now left |].
  apply IH in H as [H | H]; [| right; now apply elem_of_cons; right].
  destruct (decide (k' = k)) as [-> | Hne].
  - rewrite lookup_insert_eq in H. injection H as ->. right. apply elem_of_cons. now left.
  - rewrite lookup_insert_ne in H by assumption. now left.
Qed.

Lemma similarityEntry_path d s : prop (similarityEntry d s) "path" = VStr (path d).
Proof.
  unfold prop, similarityEntry.
  rewrite lookup_insert_ne by discriminate. now rewrite lookup_insert_eq.
Qed.

(** When the first variant writes a result, a file without a non-empty
    string slug, or marked [draft: true], is no key's document and nobody's
    neighbour: every record of the result carries the path of another file. *)
Theorem runSimilarityAnalysis_excludes
    (strip_markdown : string -> string)
    (read_matter : string -> option (string * gmap string jsval))
    (extractor : list string -> bool -> result EmbeddingOutput)
    (Number_toString : float -> string)
    (filePaths : list string) (p md : string) (fm : gmap string jsval)
    (results : gmap string (list (gmap string jsval))) :
  read_matter p = Some (md, fm) ->
  is_string (prop fm "slug") = false \/ truthy (prop fm "slug") = false
  \/ prop fm "draft" = VBool true ->
  runSimilarityAnalysis strip_markdown read_matter extractor Number_toString filePaths
  = Saved results ->
  (forall d, d ∈ loadAllDocuments strip_markdown read_matter filePaths -> path d <> p)
  /\ (forall k, k ∈ dom results ->
        exists d, d ∈ loadAllDocuments strip_markdown read_matter filePaths
                  /\ slug_key Number_toString d = k)
  /\ (forall k hits e, results !! k = Some hits -> e ∈ hits -> prop e "path" <> VStr p).
Proof.
  intros Hread Hbad Hrun.
  pose proof (loadAllDocuments_excludes strip_markdown read_matter filePaths p md fm
                Hread Hbad) as Hex.
  split; [exact Hex |].
  unfold runSimilarityAnalysis in Hrun.
  set (docs := loadAllDocuments strip_markdown read_matter filePaths) in *.
  destruct (length filePaths =? 0)%nat; [discriminate |].
  destruct (length docs =? 0)%nat; [discriminate |].
  destruct (generateDocumentEmbeddings extractor docs) as [embs | e] eqn:Hgen;
    [| discriminate].
  destruct (Nat.eqb_spec (length embs) 0) as [| Hne]; [discriminate |].
  apply generateDocumentEmbeddings_length in Hgen as [-> | Hlen]; [cbn in Hne; lia |].
  pose proof (allSimilarities_entries Number_toString docs embs TOP_N_RESULTS Hlen) as Hall.
  apply computeAllSimilarities_allSimilarities in Hall. rewrite Hall in Hrun.
  injection Hrun as <-.
  assert (Hentry : forall k hits,
            delete "__proto__"
              (Object_fromEntries
                 (imap (fun i d => (slug_key Number_toString d,
                                    map (entry_of embs i) (ranked embs i docs TOP_N_RESULTS)))
                       docs)) !! k = Some hits ->
            exists i d, docs !! i = Some d /\ slug_key Number_toString d = k
                        /\ hits = map (entry_of embs i) (ranked embs i docs TOP_N_RESULTS)).
  { intros k hits Hk. apply lookup_delete_Some in Hk as [_ Hk].
    apply fromEntries_lookup_elem in Hk as [Hk | Hk]; [now rewrite lookup_empty in Hk |].
    apply elem_of_lookup_imap in Hk as (i & d & Heq & Hi).
    injection Heq as -> ->. eauto. }
  split.
  - intros k Hk. apply elem_of_dom in Hk as [hits Hk].
    destruct (Hentry k hits Hk) as (i & d & Hi & Hkey & _).
    exists d. split; [eapply list_elem_of_lookup_2, Hi | exact Hkey].
  - intros k hits e Hk He.
    destruct (Hentry k hits Hk) as (i & d & _ & _ & ->).
    apply list_elem_of_fmap in He as ([j d'] & -> & Hin).
    apply ranked_elem in Hin as [_ Hj].
    unfold entry_of. cbn [fst snd]. rewrite similarityEntry_path.
    intros [= Hp]. apply (Hex d'); [eapply list_elem_of_lookup_2, Hj | exact Hp].
Qed.

(** ** Further properties of the two variants *)

(** Both similarity functions are symmetric: vectors of equal length give
    the same number in either order. *)
Theorem similarity_symmetric (a b : list float) :
  length a = length b ->
  dot (Some a) (Some b) = dot (Some b) (Some a)
  /\ cosineSimilarity (Some a) (Some b) = cosineSimilarity (Some b) (Some a).
Proof.
  intros Hlen. split; [| rewrite !cosineSimilarity_dot]; now apply dot_symmetric.
Qed.

Lemma similarity_symmetric_witness :
  dot (Some [1; 0]%float) (Some [0.8; 0.6]%float)
  = dot (Some [0.8; 0.6]%float) (Some [1; 0]%float)
  /\ cosineSimilarity (Some [1; 0]%float) (Some [0.8; 0.6]%float)
     = cosineSimilarity (Some [0.8; 0.6]%float) (Some [1; 0]%float).
Proof. exact (similarity_symmetric [1; 0]%float [0.8; 0.6]%float eq_refl). Defined.

Lemma runSimilarityAnalysis_excludes_witness :
  exists results,
    runSimilarityAnalysis id two_posts_and_draft two_row_model no_numbers
      ["a.md"; "b.md"; "wip.md"] = Saved results
    /\ dom results = {[ "A"; "B" ]}
    /\ forall k hits e, results !! k = Some hits -> e ∈ hits ->
         prop e "path" <> VStr "wip.md".
Proof.
  exists (<[ "A" := [similarityEntry docB 0.8] ]>
            {[ "B" := [similarityEntry docA 0.8] ]}).
  assert (Hrun : runSimilarityAnalysis id two_posts_and_draft two_row_model no_numbers
                   ["a.md"; "b.md"; "wip.md"]
                 = Saved (<[ "A" := [similarityEntry docB 0.8] ]>
                            {[ "B" := [similarityEntry docA 0.8] ]}))
    by (vm_compute; reflexivity).
  split; [exact Hrun |].
  split; [vm_compute; reflexivity |].
  refine (proj2 (proj2 (runSimilarityAnalysis_excludes id two_posts_and_draft
                          two_row_model no_numbers ["a.md"; "b.md"; "wip.md"]
                          "wip.md" "gamma"
                          (<[ "draft" := VBool true ]> {[ "slug" := VStr "W" ]})
                          _ eq_refl _ Hrun))).
  right. right. vm_compute. reflexivity.
Defined.

(** ** The plain text: shape, characters, blank texts *)

Lemma replace_from_Forall (P : ascii -> Prop) r rep :
  (forall m, Forall P m -> Forall P (rep m)) ->
  forall s prev skip, Forall P s -> Forall P (replace_from r rep prev skip s).
Proof.
  intros Hrep. induction s as [| c s IH]; intros prev skip Hs; cbn [replace_from].
  - destruct (match_at r prev []); [apply Hrep |]; constructor.
  - pose proof Hs as Hcs. apply Forall_cons in Hs as [Hc Hs].
    destruct skip as [| n]; [| now apply IH].
    destruct (match_at r prev (c :: s)) as [rest |].
    + apply Forall_app. split; [apply Hrep; now apply Forall_take |].
      destruct (length (c :: s) - length rest)%nat; [constructor; [assumption |] |]; now apply IH.
    + constructor; [assumption | now apply IH].
Qed.

Lemma strip_patterns_Forall (P : ascii -> Prop) s :
  P nl -> Forall P s -> Forall P (strip_patterns s).
Proof.
  intros Hnl Hs. unfold strip_patterns, replace_all.
  repeat (apply replace_from_Forall;
          [first [ intros m Hm; apply Forall_app; split; [exact Hm | now constructor]
                 | intros m _; constructor ] |]).
  exact Hs.
Qed.

Lemma trim_Forall (P : ascii -> Prop) s : Forall P s -> Forall P (trim s).
Proof.
  intros Hs. destruct (trim_infix s) as (a & b & Hab). rewrite Hab in Hs.
  apply Forall_app in Hs as [_ Hs]. now apply Forall_app in Hs as [Hs _].
Qed.

Lemma normalize_whitespace_Forall (P : ascii -> Prop) s :
  P nl -> P sp -> Forall P s -> Forall P (normalize_whitespace s).
Proof.
  intros Hnl Hsp Hs. unfold normalize_whitespace, replace_all.
  apply trim_Forall.
  repeat (apply replace_from_Forall; [intros m _; now repeat constructor |]).
  exact Hs.
Qed.

Lemma trim_ends s : head_fails is_space (trim s) /\ head_fails is_space (rev (trim s)).
Proof.
  unfold trim.
  set (u := drop_while is_space s).
  set (v := drop_while is_space (rev u)).
  rewrite rev_involutive. split; [| apply drop_while_head].
  destruct (drop_while_suffix is_space (rev u)) as [b Hb]. fold v in Hb.
  assert (Hu : u = rev v ++ rev b)
    by (rewrite <- rev_app_distr, <- Hb; now rewrite rev_involutive).
  pose proof (drop_while_head is_space s) as Hh. fold u in Hh.
  destruct (rev v) as [| c w]; [exact I |]. rewrite Hu in Hh. exact Hh.
Qed.

Lemma drop_while_all f s : forallb f s = true -> drop_while f s = [].
Proof.
  induction s as [| c s IH]; cbn; [reflexivity |].
  intros H. apply andb_prop in H as [-> H]. auto.
Qed.

(** The plain text is one line of words: it holds no line feed and no two
    whitespace characters in a row, and neither starts nor ends with
    whitespace. *)
Theorem getPlainText_one_line (strip_markdown : string -> string) (md : string) :
  let text := list_ascii_of_string (getPlainText strip_markdown md) in
  Forall not_newline text
  /\ no_space_pair text
  /\ head_fails is_space text
  /\ head_fails is_space (rev text).
Proof.
  unfold getPlainText. cbv zeta. rewrite list_ascii_of_string_of_list_ascii.
  set (t := strip_patterns _).
  destruct (normalize_whitespace_shape t) as (Hn & Hp & _).
  split; [exact Hn |]. split; [exact Hp |].
  unfold normalize_whitespace. cbv zeta. apply trim_ends.
Qed.

(** Nothing is written but spaces: a character of the plain text is a
    space or a character of the converted text. *)
Theorem getPlainText_characters (strip_markdown : string -> string) (md : string) (c : ascii) :
  c ∈ list_ascii_of_string (getPlainText strip_markdown md) ->
  c = sp \/ c ∈ list_ascii_of_string (strip_markdown md).
Proof.
  unfold getPlainText. cbv zeta. rewrite list_ascii_of_string_of_list_ascii.
  set (input := list_ascii_of_string (strip_markdown md)).
  intros Hc.
  pose (P := fun x : ascii => x = sp \/ x = nl \/ x ∈ input).
  assert (HP : Forall P (normalize_whitespace (strip_patterns input))).
  { apply normalize_whitespace_Forall; [right; now left | now left |].
    apply strip_patterns_Forall; [right; now left |].
    apply Forall_forall. intros x Hx. right. now right. }
  destruct (normalize_whitespace_shape (strip_patterns input)) as (Hn & _ & _).
  rewrite Forall_forall in HP, Hn.
  destruct (HP c Hc) as [-> | [-> | Hin]]; [now left | | now right].
  specialize (Hn nl Hc). discriminate.
Qed.

Lemma getPlainText_characters_witness :
  "w"%char = sp \/ "w"%char ∈ list_ascii_of_string (plain_prose "Hello   world").
Proof.
  apply (getPlainText_characters plain_prose "Hello   world" "w"%char).
  vm_compute. do 6 right. left.
Defined.

(** A text that converts to whitespace only, or to nothing, has the empty
    plain text. *)
Theorem getPlainText_blank (strip_markdown : string -> string) (md : string) :
  forallb is_space (list_ascii_of_string (strip_markdown md)) = true ->
  getPlainText strip_markdown md = "".
Proof.
  intros Hblank. unfold getPlainText. cbv zeta.
  set (input := list_ascii_of_string (strip_markdown md)) in *.
  assert (Hs : Forall (fun c => is_space c = true) input).
  { apply Forall_forall. intros c Hc. rewrite forallb_forall in Hblank.
    apply Hblank. now apply list_elem_of_In. }
  apply (strip_patterns_Forall (fun c => is_space c = true) _ eq_refl) in Hs.
  unfold normalize_whitespace, replace_all. cbv zeta.
  set (t4 := replace_from (re_at_least 2 re_s) _ _ _ _).
  assert (H4 : Forall (fun c => is_space c = true) t4).
  { unfold t4.
    repeat (apply replace_from_Forall; [intros m _; now repeat constructor |]).
    exact Hs. }
  unfold trim. rewrite (drop_while_all is_space t4); [reflexivity |].
  apply forallb_forall. intros c Hc. rewrite Forall_forall in H4.
  apply H4. now apply list_elem_of_In.
Qed.

Lemma getPlainText_blank_witness : getPlainText plain_prose "  " = "".
Proof. apply (getPlainText_blank plain_prose "  "). reflexivity. Defined.

(** ** The plain text: a second pass *)

(** A pattern that matches nowhere replaces nothing. *)
Lemma replace_from_no_match_from r rep :
  forall s prev, no_match_from r prev s = true -> replace_from r rep prev 0 s = s.
Proof.
  induction s as [| c s IH]; intros prev H; cbn [no_match_from replace_from] in *.
  - now destruct (match_at r prev []).
  - destruct (match_at r prev (c :: s)); [discriminate |]. now rewrite IH.
Qed.

Lemma strip_patterns_pattern_free text :
  pattern_free text = true -> strip_patterns text = text.
Proof.
  unfold pattern_free. cbn [forallb]. rewrite !andb_true_iff.
  intros (H1 & H2 & H3 & H4 & H5 & H6 & _).
  unfold strip_patterns, replace_all. cbv zeta.
  rewrite (replace_from_no_match_from re_import erase _ _ H1).
  rewrite (replace_from_no_match_from re_export erase _ _ H2).
  rewrite (replace_from_no_match_from re_heading erase _ _ H3).
  rewrite (replace_from_no_match_from re_allcaps erase _ _ H4).
  rewrite (replace_from_no_match_from re_table erase _ _ H5).
  apply (replace_from_no_match_from re_rule keep_then_newline _ _ H6).
Qed.

(** The whitespace stage takes a final line feed from a text it has
    already shaped. *)
Lemma replace_from_single_newline r rep :
  (forall p, match_at r p [] = None) ->
  (forall p, match_at r p [nl] = None) ->
  (forall p c s, is_newline c = false -> match_at r p (c :: s) = None) ->
  forall y p, Forall not_newline y -> replace_from r rep p 0 (y ++ [nl]) = y ++ [nl].
Proof.
  intros Hnil Hone Hcons. induction y as [| c y IH]; intros p Hy; cbn [app replace_from].
  - now rewrite Hone, Hnil.
  - apply Forall_cons in Hy as [Hc Hy]. rewrite Hcons by assumption. now rewrite IH.
Qed.

Lemma replace_newline_snoc y :
  forall p, Forall not_newline y -> replace_from re_nl to_space p 0 (y ++ [nl]) = y ++ [sp].
Proof.
  unfold re_nl. induction y as [| c y IH]; intros p Hy; cbn [app replace_from];
    rewrite match_at_class.
  - reflexivity.
  - apply Forall_cons in Hy as [Hc Hy]. unfold not_newline in Hc. rewrite Hc.
    now rewrite IH.
Qed.

Lemma no_space_pair_snoc y :
  no_space_pair y -> head_fails is_space (rev y) -> no_space_pair (y ++ [sp]).
Proof.
  induction y as [| c y IH]; intros Hp He; [cbn; auto |].
  destruct y as [| c' y'].
  - cbn in He |- *. rewrite He. auto.
  - cbn [no_space_pair] in Hp. destruct Hp as [Hc Hp].
    change ((c :: c' :: y') ++ [sp]) with (c :: (c' :: y') ++ [sp]).
    cbn [no_space_pair]. split; [exact Hc |]. apply IH; [exact Hp |].
    cbn [rev] in He. destruct (rev y' ++ [c']) as [| d w] eqn:E.
    + destruct (rev y'); discriminate.
    + cbn in He. change (rev (c' :: y')) with (rev y' ++ [c']). now rewrite E.
Qed.

Lemma trim_snoc_space y :
  head_fails is_space y -> head_fails is_space (rev y) -> trim (y ++ [sp]) = y.
Proof.
  intros Hh He. unfold trim.
  assert (H1 : drop_while is_space (y ++ [sp]) = if decide (y = []) then [] else y ++ [sp]).
  { destruct y as [| c y]; [reflexivity |]. cbn in Hh |- *. now rewrite Hh. }
  rewrite H1. destruct (decide (y = [])) as [-> | Hne]; [reflexivity |].
  rewrite rev_app_distr. cbn [rev app drop_while].
  change (is_space sp) with true. cbv iota.
  rewrite (drop_while_id _ _ He). apply rev_involutive.
Qed.

Lemma normalize_whitespace_final_newline y :
  Forall not_newline y -> no_space_pair y -> trim y = y ->
  normalize_whitespace (y ++ [nl]) = y.
Proof.
  intros Hn Hp Ht.
  destruct (trim_ends y) as [Hh He]. rewrite Ht in Hh, He.
  unfold normalize_whitespace, replace_all. cbv zeta.
  rewrite (replace_from_single_newline (re_at_least 3 re_nl)); try assumption; try reflexivity.
  - rewrite (replace_from_single_newline (re_repeat 2 re_nl)); try assumption;
      try reflexivity.
    + rewrite replace_newline_snoc by assumption.
      rewrite collapse_id by now apply no_space_pair_snoc.
      now apply trim_snoc_space.
    + intros p c s' Hc. unfold match_at. cbn. now rewrite Hc.
  - intros p c s' Hc. unfold match_at. cbn. now rewrite Hc.
Qed.

(** C9, as the code has it: a second pass of [getPlainText] changes nothing
    when the output of the first pass is itself free of stripped markup: the
    converter returns it as it is (or with a final line feed) and none of
    the six patterns matches in it. *)
Theorem C9_getPlainText_stable_once_exhausted
    (strip_markdown : string -> string) (x : string) :
  markup_free strip_markdown (getPlainText strip_markdown x) ->
  getPlainText strip_markdown (getPlainText strip_markdown x)
  = getPlainText strip_markdown x.
Proof.
  intros [Hconv Hfree].
  set (y := getPlainText strip_markdown x) in *.
  assert (Hy : list_ascii_of_string y
               = normalize_whitespace
                   (strip_patterns (list_ascii_of_string (strip_markdown x)))).
  { unfold y, getPlainText. cbv zeta. apply list_ascii_of_string_of_list_ascii. }
  destruct (normalize_whitespace_shape
              (strip_patterns (list_ascii_of_string (strip_markdown x)))) as (Hn & Hp & Ht).
  rewrite <- Hy in Hn, Hp, Ht.
  unfold getPlainText at 1. cbv zeta.
  rewrite (strip_patterns_pattern_free _ Hfree).
  destruct Hconv as [-> | ->].
  - rewrite normalize_whitespace_fixed by assumption. apply string_of_list_ascii_of_string.
  - assert (Happ : list_ascii_of_string (y ++ String nl "")%string
                   = list_ascii_of_string y ++ [nl]).
    { clear. induction y as [| c y IH]; [reflexivity |].
      cbn [list_ascii_of_string app]. rewrite <- IH. reflexivity. }
    rewrite Happ, normalize_whitespace_final_newline by assumption.
    apply string_of_list_ascii_of_string.
Qed.

Lemma C9_witness_plain_sentence :
  getPlainText plain_prose (getPlainText plain_prose "Hello   world")
  = getPlainText plain_prose "Hello   world".
Proof.
  apply (C9_getPlainText_stable_once_exhausted plain_prose "Hello   world").
  split; [right; reflexivity | vm_compute; reflexivity].
Defined.

(** C9 as stated fails: the wrapped prose is free of stripped markup, its
    first pass joins the two lines into a line that starts with "export ",
    and the second pass removes that line. *)
Lemma C9_counterexample_wrapped_export :
  markup_free plain_prose wrapped_prose
  /\ strip_patterns (list_ascii_of_string wrapped_prose) = list_ascii_of_string wrapped_prose
  /\ getPlainText plain_prose wrapped_prose = "export figures rose"
  /\ getPlainText plain_prose (getPlainText plain_prose wrapped_prose) = "".
Proof.
  split; [split; [right; reflexivity | vm_compute; reflexivity] |].
  split; [vm_compute; reflexivity |].
  split; vm_compute; reflexivity.
Qed.

(** ** The plain text: import and export lines *)

Lemma list_ascii_of_string_app (s1 s2 : string) :
  list_ascii_of_string (s1 ++ s2) = list_ascii_of_string s1 ++ list_ascii_of_string s2.
Proof.
  induction s1 as [| c s1 IH]; [reflexivity |].
  cbn [list_ascii_of_string app]. rewrite <- IH. reflexivity.
Qed.

(** The literal matches itself. *)
Lemma rmatch_re_lit kw k :
  forall p s, exists p', rmatch (re_lit kw) p (list_ascii_of_string kw ++ s) k = k p' s.
Proof.
  induction kw as [| c kw IH]; intros p s; cbn; [now exists p |].
  rewrite Ascii.eqb_refl. apply IH.
Qed.

(** A literal does not match a text that starts with another character. *)
Lemma rmatch_re_lit_head c kw k p c' s :
  Ascii.eqb c c' = false -> rmatch (re_lit (String c kw)) p (c' :: s) k = None.
Proof. intros H. cbn. now rewrite H. Qed.

(** The lazy star over [.] followed by [$] stops at the end of the line. *)
Lemma star_lazy_line l rest :
  one_line l = true -> at_line_end rest = true ->
  forall n p, (length (l ++ rest) <= n)%nat ->
    star_loop (rmatch re_dot) false
      (fun p s => rmatch (RE_seq RE_eol RE_empty) p s (fun _ rest => Some rest))
      n p (l ++ rest)
    = Some rest.
Proof.
  intros Hl Hrest. induction l as [| c l IH]; intros n p Hn; cbn [app].
  - destruct n; cbn [star_loop rmatch]; now rewrite Hrest.
  - cbn in Hl. apply andb_prop in Hl as [Hc Hl].
    destruct n as [| n]; [cbn in Hn; lia |].
    cbn [star_loop rmatch at_line_end re_dot].
    apply negb_true_iff in Hc. rewrite Hc. cbn [negb].
    assert (Hlt : (length (l ++ rest) <? length (c :: l ++ rest))%nat = true)
      by (apply Nat.ltb_lt; cbn; lia).
    rewrite Hlt. apply IH; [assumption |]. cbn in Hn. lia.
Qed.

Section Statement.
Variable kw : string.

Lemma match_at_statement p l rest :
  at_line_start p = true -> one_line l = true -> at_line_end rest = true ->
  match_at (re_statement kw) p (list_ascii_of_string kw ++ l ++ rest) = Some rest.
Proof.
  intros Hp Hl Hrest. unfold match_at, re_statement.
  change (re_seqs [RE_bol; re_lit kw; RE_star false re_dot; RE_eol])
    with (RE_seq RE_bol (RE_seq (re_lit kw) (re_seqs [RE_star false re_dot; RE_eol]))).
  cbn [rmatch]. rewrite Hp.
  match goal with
  | |- rmatch (re_lit kw) ?p0 _ ?k = _ =>
      destruct (rmatch_re_lit kw k p0 (l ++ rest)) as [p' ->]
  end.
  cbn [re_seqs rmatch]. now apply star_lazy_line.
Qed.

(** Inside a line the pattern finds nothing: [^] fails. *)
Lemma match_at_statement_inside p s :
  at_line_start p = false -> match_at (re_statement kw) p s = None.
Proof. intros Hp. unfold match_at, re_statement. cbn [re_seqs rmatch]. now rewrite Hp. Qed.

Lemma replace_statement_skip rep n :
  forall s p, (n <= length s)%nat -> one_line (take n s) = true -> at_line_start p = false ->
    exists p', at_line_start p' = false
               /\ replace_from (re_statement kw) rep p n s
                  = replace_from (re_statement kw) rep p' 0 (drop n s).
Proof.
  induction n as [| n IH]; intros s p Hn Hl Hp.
  - exists p. now rewrite drop_0.
  - destruct s as [| c s]; [cbn in Hn; lia |].
    cbn [take one_line forallb] in Hl. apply andb_prop in Hl as [Hc Hl].
    cbn [replace_from drop]. apply IH; [cbn in Hn; lia | exact Hl |].
    cbn. now apply negb_true_iff.
Qed.

Lemma replace_statement_copy rep l :
  forall rest p, one_line l = true -> at_line_start p = false ->
    exists p', (l = [] -> p' = p) /\ (l <> [] -> at_line_start p' = false)
               /\ replace_from (re_statement kw) rep p 0 (l ++ rest)
                  = l ++ replace_from (re_statement kw) rep p' 0 rest.
Proof.
  induction l as [| c l IH]; intros rest p Hl Hp.
  - exists p. auto.
  - cbn [one_line forallb] in Hl. apply andb_prop in Hl as [Hc Hl].
    apply negb_true_iff in Hc.
    destruct (IH rest (Some c) Hl Hc) as (p' & H1 & H2 & H3).
    exists p'. split; [discriminate |]. split.
    + intros _. destruct l; [now rewrite H1 | now apply H2].
    + cbn [app replace_from]. rewrite match_at_statement_inside by assumption.
      now rewrite H3.
Qed.

Hypothesis kw_head : exists c kw', kw = String c kw' /\ is_line_terminator c = false.

(** Before a line terminator, or at the end, the pattern finds nothing
    either: what comes before does not matter. *)
Lemma replace_statement_at_line_end rep rest p :
  at_line_end rest = true ->
  replace_from (re_statement kw) rep p 0 rest = replace_all (re_statement kw) rep rest.
Proof.
  destruct kw_head as (c0 & kw' & -> & Hc0).
  intros Hrest. unfold replace_all. destruct rest as [| c s].
  - cbn [replace_from]. unfold match_at. cbn [re_statement re_seqs rmatch re_lit].
    now destruct (at_line_start p).
  - cbn in Hrest.
    assert (Hm : forall q, match_at (re_statement (String c0 kw')) q (c :: s) = None).
    { intros q. unfold match_at. cbn [re_statement re_seqs rmatch].
      destruct (at_line_start q); [| reflexivity].
      apply rmatch_re_lit_head.
      destruct (Ascii.eqb_spec c0 c) as [-> | _]; [congruence | reflexivity]. }
    cbn [replace_from]. now rewrite !Hm.
Qed.

Lemma replace_statement_result_at_line_end rep rest :
  at_line_end rest = true -> at_line_end (replace_all (re_statement kw) rep rest) = true.
Proof.
  destruct kw_head as (c0 & kw' & -> & Hc0).
  intros Hrest. unfold replace_all. destruct rest as [| c s].
  - cbn [replace_from]. unfold match_at. cbn [re_statement re_seqs rmatch re_lit]. reflexivity.
  - cbn in Hrest. cbn [replace_from].
    assert (Hm : match_at (re_statement (String c0 kw')) None (c :: s) = None).
    { unfold match_at. cbn [re_statement re_seqs rmatch at_line_start].
      apply rmatch_re_lit_head.
      destruct (Ascii.eqb_spec c0 c) as [-> | _]; [congruence | reflexivity]. }
    rewrite Hm. exact Hrest.
Qed.

Hypothesis kw_line : one_line (list_ascii_of_string kw) = true.

(** A first line that starts with the keyword is removed. *)
Lemma replace_statement_first_line l rest :
  one_line l = true -> at_line_end rest = true ->
  replace_all (re_statement kw) erase (list_ascii_of_string kw ++ l ++ rest)
  = replace_all (re_statement kw) erase rest.
Proof.
  intros Hl Hrest. unfold replace_all at 1.
  pose proof (match_at_statement None l rest eq_refl Hl Hrest) as Hm.
  destruct kw_head as (c0 & kw' & Hkw & Hc0).
  set (s := list_ascii_of_string kw ++ l ++ rest) in *.
  assert (Hs : s = c0 :: list_ascii_of_string kw' ++ l ++ rest)
    by (unfold s; rewrite Hkw; reflexivity).
  assert (Hlen : (length s - length rest = S (length (list_ascii_of_string kw' ++ l)))%nat).
  { rewrite Hs. cbn [length]. rewrite !length_app. lia. }
  rewrite Hs in Hm |- *. cbn [replace_from]. rewrite Hm. rewrite Hs in Hlen.
  rewrite Hlen. unfold erase at 1. cbn [app].
  destruct (replace_statement_skip erase (length (list_ascii_of_string kw' ++ l))
              (list_ascii_of_string kw' ++ l ++ rest) (Some c0)) as (p' & Hp' & ->).
  - rewrite !length_app. lia.
  - rewrite app_assoc, take_app_length.
    pose proof kw_line as Hk. rewrite Hkw in Hk. unfold one_line in Hk, Hl |- *.
    cbn [list_ascii_of_string forallb] in Hk. apply andb_prop in Hk as [_ Hk].
    rewrite forallb_app. now rewrite Hk, Hl.
  - exact Hc0.
  - rewrite app_assoc, drop_app_length. now apply replace_statement_at_line_end.
Qed.

End Statement.

Lemma strip_patterns_import_line l rest :
  one_line l = true -> at_line_end rest = true ->
  strip_patterns (list_ascii_of_string "import " ++ l ++ rest) = strip_patterns rest.
Proof.
  intros Hl Hrest. unfold strip_patterns. cbv zeta.
  change re_import with (re_statement "import ").
  rewrite (replace_statement_first_line "import "); auto.
  exists "i"%char, "mport ". auto.
Qed.

Lemma strip_patterns_export_line l rest :
  one_line l = true -> at_line_end rest = true ->
  strip_patterns (list_ascii_of_string "export " ++ l ++ rest) = strip_patterns rest.
Proof.
  intros Hl Hrest. unfold strip_patterns. cbv zeta.
  change re_import with (re_statement "import ").
  change re_export with (re_statement "export ").
  assert (Hi : exists c kw', "import " = String c kw' /\ is_line_terminator c = false)
    by (exists "i"%char, "mport "; auto).
  assert (He : exists c kw', "export " = String c kw' /\ is_line_terminator c = false)
    by (exists "e"%char, "xport "; auto).
  assert (H1 : replace_all (re_statement "import ") erase
                 (list_ascii_of_string "export " ++ l ++ rest)
               = list_ascii_of_string "export " ++ l
                 ++ replace_all (re_statement "import ") erase rest).
  { unfold replace_all at 1.
    change (list_ascii_of_string "export " ++ l ++ rest)
      with ("e"%char :: list_ascii_of_string "xport " ++ l ++ rest).
    cbn [replace_from].
    assert (Hm : match_at (re_statement "import ") None
                   ("e"%char :: list_ascii_of_string "xport " ++ l ++ rest) = None)
      by reflexivity.
    rewrite Hm.
    destruct (replace_statement_copy "import " erase (list_ascii_of_string "xport " ++ l)
                rest (Some "e"%char)) as (p' & _ & _ & Hcopy).
    - unfold one_line in Hl |- *. rewrite forallb_app. now rewrite Hl.
    - reflexivity.
    - rewrite <- app_assoc in Hcopy. rewrite Hcopy.
      rewrite (replace_statement_at_line_end "import " Hi) by assumption.
      now rewrite <- app_assoc. }
  rewrite H1.
  rewrite (replace_statement_first_line "export "); auto.
  now apply replace_statement_result_at_line_end.
Qed.

(** A first line that is an import or an export statement leaves no trace:
    the plain text is that of the text behind the line. *)
Theorem getPlainText_drops_leading_statement
    (strip_markdown : string -> string) (md kw line rest : string) :
  kw = "import " \/ kw = "export " ->
  strip_markdown md = (kw ++ line ++ rest)%string ->
  one_line (list_ascii_of_string line) = true ->
  at_line_end (list_ascii_of_string rest) = true ->
  getPlainText strip_markdown md = getPlainText (fun _ => rest) md.
Proof.
  intros Hkw Hmd Hline Hrest. unfold getPlainText. cbv zeta.
  rewrite Hmd, !list_ascii_of_string_app. do 2 f_equal.
  destruct Hkw as [-> | ->];
    [now apply strip_patterns_import_line | now apply strip_patterns_export_line].
Qed.

Lemma getPlainText_drops_leading_statement_witness :
  getPlainText plain_prose ("export const a = 1" ++ String nl "Hello world")%string
  = getPlainText (fun _ => String nl "Hello world" ++ String nl "")%string
                 ("export const a = 1" ++ String nl "Hello world")%string
  /\ getPlainText plain_prose ("export const a = 1" ++ String nl "Hello world")%string
     = "Hello world".
Proof.
  split; [| vm_compute; reflexivity].
  apply (getPlainText_drops_leading_statement plain_prose
           ("export const a = 1" ++ String nl "Hello world")%string
           "export " "const a = 1" (String nl "Hello world" ++ String nl "")%string).
  - now right.
  - reflexivity.
  - reflexivity.
  - reflexivity.
Defined.

(** ** Callbacks that throw *)

Lemma map_from_Ok_inv {A B} (f : A -> nat -> result B) :
  forall l i ys, map_from f i l = Ok ys ->
    forall j x, l !! j = Some x -> exists y, f x (i + j)%nat = Ok y.
Proof.
  induction l as [| a l IH]; intros i ys H j x Hj; [discriminate |].
  cbn [map_from] in H.
  destruct (f a i) as [y |] eqn:Hy; [| discriminate]. rewrite bind_Ok in H.
  destruct (map_from f (S i) l) as [ys' |] eqn:Hys; [| discriminate].
  destruct j as [| j].
  - injection Hj as <-. rewrite Nat.add_0_r. eauto.
  - replace (i + S j)%nat with (S i + j)%nat by lia. eapply IH; eauto.
Qed.

Lemma map_from_Throw_inv {A B} (f : A -> nat -> result B) :
  forall l i e, map_from f i l = Throw e ->
    exists j x, l !! j = Some x /\ f x (i + j)%nat = Throw e.
Proof.
  induction l as [| a l IH]; intros i e H; [discriminate |].
  cbn [map_from] in H.
  destruct (f a i) as [y | e'] eqn:Hy.
  - rewrite bind_Ok in H.
    destruct (map_from f (S i) l) as [ys' | e''] eqn:Hys; [discriminate |].
    rewrite bind_Throw in H. injection H as ->.
    destruct (IH (S i) e Hys) as (j & x & Hj & Hx).
    exists (S j), x. split; [exact Hj |]. now replace (i + S j)%nat with (S i + j)%nat by lia.
  - rewrite bind_Throw in H. injection H as ->.
    exists 0%nat, a. split; [reflexivity |]. now rewrite Nat.add_0_r.
Qed.

Lemma map_from_ext {A B} (f g : A -> nat -> result B) :
  forall l i, (forall j x, l !! j = Some x -> f x (i + j)%nat = g x (i + j)%nat) ->
    map_from f i l = map_from g i l.
Proof.
  induction l as [| a l IH]; intros i H; [reflexivity |]. cbn [map_from].
  pose proof (H 0%nat a eq_refl) as H0. rewrite Nat.add_0_r in H0. rewrite H0.
  rewrite (IH (S i)); [reflexivity |].
  intros j x Hj. specialize (H (S j) x Hj).
  now replace (S i + j)%nat with (i + S j)%nat by lia.
Qed.

Lemma reduce_from_ext {A B} (f g : B -> A -> nat -> result B) :
  forall l i acc,
    (forall acc' j x, l !! j = Some x -> f acc' x (i + j)%nat = g acc' x (i + j)%nat) ->
    reduce_from f i acc l = reduce_from g i acc l.
Proof.
  induction l as [| a l IH]; intros i acc H; [reflexivity |]. cbn [reduce_from].
  pose proof (H acc 0%nat a eq_refl) as H0. rewrite Nat.add_0_r in H0. rewrite H0.
  destruct (g acc a i) as [acc' | e]; [| reflexivity]. rewrite !bind_Ok.
  apply IH. intros acc'' j x Hj. specialize (H acc'' (S j) x Hj).
  now replace (S i + j)%nat with (i + S j)%nat by lia.
Qed.

(** ** When the dot product throws *)

Lemma dot_missing a b :
  a = None \/ (b = None /\ a <> Some []) -> dot a b = Throw TypeError.
Proof.
  intros [-> | [-> Ha]]; [reflexivity |].
  destruct a as [[| x l] |]; [congruence | reflexivity | reflexivity].
Qed.

Lemma dot_Throw_inv a b e :
  dot a b = Throw e -> e = TypeError /\ (a = None \/ (b = None /\ a <> Some [])).
Proof.
  destruct a as [l |]; [| cbn; intros [= <-]; auto].
  destruct b as [l' |].
  - destruct (dot_defined l l') as [s ->]. discriminate.
  - destruct l as [| x l]; [discriminate |].
    cbn. intros [= <-]. split; [reflexivity |]. right. split; [reflexivity | discriminate].
Qed.

Lemma topSimilar_missing idx docs embs n :
  missing_embedding idx docs embs -> topSimilar idx docs embs n = Throw TypeError.
Proof.
  intros (j & d & Hj & Hne & Hmiss). unfold topSimilar.
  match goal with |- context [map_from ?f 0%nat docs] => set (g := f) end.
  assert (Hall : forall e, map_from g 0%nat docs = Throw e -> e = TypeError).
  { intros e He. apply map_from_Throw_inv in He as (j' & d' & _ & Hthrow).
    unfold g in Hthrow. cbn [Nat.add] in Hthrow.
    destruct (decide (j' = idx)); [discriminate |].
    destruct (dot (embs !! idx) (embs !! j')) as [s | e'] eqn:Hdot; [discriminate |].
    rewrite bind_Throw in Hthrow. injection Hthrow as <-.
    now apply dot_Throw_inv in Hdot as [-> _]. }
  destruct (map_from g 0%nat docs) as [mapped | e] eqn:Hmap.
  - exfalso. destruct (map_from_Ok_inv g docs 0%nat mapped Hmap j d Hj) as [y Hy].
    unfold g in Hy. cbn [Nat.add] in Hy. rewrite decide_False in Hy by assumption.
    rewrite dot_missing in Hy; [discriminate |].
    destruct Hmiss as [H | [H1 H2]]; auto.
  - rewrite bind_Throw. f_equal. now apply Hall.
Qed.

Lemma topSimilar_Throw_inv idx docs embs n e :
  topSimilar idx docs embs n = Throw e -> e = TypeError /\ missing_embedding idx docs embs.
Proof.
  unfold topSimilar.
  match goal with |- context [map_from ?f 0%nat docs] => set (g := f) end.
  destruct (map_from g 0%nat docs) as [mapped | e'] eqn:Hmap; [discriminate |].
  rewrite bind_Throw. intros [= ->].
  apply map_from_Throw_inv in Hmap as (j & d & Hj & Hthrow).
  unfold g in Hthrow. cbn [Nat.add] in Hthrow.
  destruct (decide (j = idx)) as [| Hne]; [discriminate |].
  destruct (dot (embs !! idx) (embs !! j)) as [s | e'] eqn:Hdot; [discriminate |].
  rewrite bind_Throw in Hthrow. injection Hthrow as <-.
  apply dot_Throw_inv in Hdot as [-> Hmiss]. split; [reflexivity |].
  exists j, d. auto.
Qed.

(** Both rankings throw exactly when an embedding they read is missing, and
    what they throw is a [TypeError]. *)
Theorem topSimilar_throws_iff_missing_embedding
    (idx : nat) (docs : list Document) (embs : list (list float)) (n : Z) :
  (missing_embedding idx docs embs ->
   topSimilar idx docs embs n = Throw TypeError
   /\ calculateSingleDocSimilarities idx docs embs n = Throw TypeError)
  /\ (forall e, topSimilar idx docs embs n = Throw e ->
                e = TypeError /\ missing_embedding idx docs embs)
  /\ (forall e, calculateSingleDocSimilarities idx docs embs n = Throw e ->
                e = TypeError /\ missing_embedding idx docs embs).
Proof.
  split; [| split].
  - intros H. rewrite calculateSingleDocSimilarities_topSimilar.
    split; now apply topSimilar_missing.
  - intros e. apply topSimilar_Throw_inv.
  - intros e. rewrite calculateSingleDocSimilarities_topSimilar. apply topSimilar_Throw_inv.
Qed.

Lemma topSimilar_throws_witness :
  topSimilar 2 corpus3 [[1]; [1]]%float 5 = Throw TypeError
  /\ calculateSingleDocSimilarities 2 corpus3 [[1]; [1]]%float 5 = Throw TypeError.
Proof.
  apply (proj1 (topSimilar_throws_iff_missing_embedding 2 corpus3 [[1]; [1]]%float 5)).
  exists 0%nat, docA. split; [reflexivity |]. split; [lia |]. now left.
Defined.

(** ** A corpus of one document, or none *)

(** The only document of a corpus has no neighbours, whatever the
    embeddings are, missing ones included; the corpus result is its slug with
    the empty list, and the empty corpus gives the empty result. *)
Theorem single_document_corpus
    (Number_toString : float -> string) (d : Document) (embs : list (list float)) (n : Z) :
  topSimilar 0 [d] embs n = Ok []
  /\ calculateSingleDocSimilarities 0 [d] embs n = Ok []
  /\ allSimilarities Number_toString [d] embs n = Ok {[ slug_key Number_toString d := [] ]}
  /\ computeAllSimilarities Number_toString [d] embs n
     = Ok (obj_assign (slug_key Number_toString d) [] ∅)
  /\ allSimilarities Number_toString [] embs n = Ok ∅
  /\ computeAllSimilarities Number_toString [] embs n = Ok ∅.
Proof.
  assert (Hslice : (Array_slice0 ([] : list (gmap string jsval)) n) = []).
  { unfold Array_slice0. now rewrite take_nil. }
  assert (Htop : topSimilar 0 [d] embs n = Ok []).
  { unfold topSimilar. cbn [map_from]. rewrite decide_True by reflexivity.
    rewrite !bind_Ok, filter_Boolean_cons_None.
    change (Array_sort by_similarity_desc (filter_Boolean []))
      with ([] : list (gmap string jsval)).
    now rewrite Hslice. }
  split; [exact Htop |].
  split; [now rewrite calculateSingleDocSimilarities_topSimilar |].
  split; [| split; [| split]].
  - unfold allSimilarities. cbn [map_from]. rewrite Htop. reflexivity.
  - unfold computeAllSimilarities. cbn [reduce_from].
    rewrite calculateSingleDocSimilarities_topSimilar, Htop. reflexivity.
  - reflexivity.
  - reflexivity.
Qed.

(** ** The corpus results of the two variants *)

(** On every input the first variant's corpus result is the second one's
    without the key ["__proto__"], and they throw alike. *)
Theorem corpus_results_agree
    (Number_toString : float -> string)
    (docs : list Document) (embs : list (list float)) (n : Z) :
  computeAllSimilarities Number_toString docs embs n
  = (m ← allSimilarities Number_toString docs embs n; Ok (delete "__proto__" m)).
Proof.
  unfold allSimilarities, computeAllSimilarities. rewrite assign_loop_entries.
  destruct (map_from _ 0%nat docs) as [entries | e]; [| reflexivity].
  rewrite !bind_Ok. f_equal.
  pose proof (foldl_assign_delete entries ∅) as H. rewrite delete_empty in H. exact H.
Qed.

(** ** The cut-off *)

Lemma Array_slice0_nonneg {A} (l : list A) (n : Z) :
  0 <= n -> Array_slice0 l n = take (Z.to_nat n) l.
Proof.
  intros Hn. unfold Array_slice0. cbv zeta.
  destruct (Z.ltb_spec n 0) as [| _]; [lia |].
  destruct (Z.le_gt_cases n (Z.of_nat (length l))) as [Hle | Hgt].
  - now rewrite Z.min_l.
  - rewrite Z.min_r by lia. rewrite Nat2Z.id.
    rewrite firstn_all. symmetry. apply take_ge. lia.
Qed.

Lemma Array_slice0_neg {A} (l : list A) (n : Z) :
  n < 0 -> Array_slice0 l n = take (length l - Z.to_nat (- n)) l.
Proof.
  intros Hn. unfold Array_slice0. cbv zeta.
  destruct (Z.ltb_spec n 0) as [_ |]; [| lia]. f_equal. lia.
Qed.

Lemma filter_all {A} (P : A -> Prop) `{!forall x, Decision (P x)} (l : list A) :
  Forall P l -> filter P l = l.
Proof.
  induction 1 as [| x l Hx Hl IH]; [reflexivity |].
  now rewrite filter_cons_True, IH.
Qed.

(** The candidates are the documents without the source. *)
Lemma candidates_delete idx docs : (candidates idx docs).*2 = delete idx docs.
Proof.
  unfold candidates.
  assert (H : forall l i k, (filter (fun p : nat * Document => p.1 <> (i + k)%nat)
                               (imap (fun j d => ((i + j)%nat, d)) l)).*2 = delete k l).
  { induction l as [| d l IH]; intros i k; [reflexivity |].
    cbn [imap]. rewrite Nat.add_0_r.
    assert (Himap : imap ((fun j d0 => ((i + j)%nat, d0)) ∘ S) l
                    = imap (fun j d0 => ((S i + j)%nat, d0)) l).
    { apply imap_ext. intros j x _. cbn. f_equal. lia. }
    rewrite Himap. destruct k as [| k].
    - rewrite filter_cons_False by (cbn; lia). cbn [delete list_delete].
      rewrite filter_all.
      + clear. revert i. induction l as [| x l IH]; intros i; [reflexivity |].
        cbn [imap fmap list_fmap]. f_equal.
        specialize (IH (S i)). rewrite <- IH at 2. f_equal.
        apply imap_ext. intros j y _. cbn. f_equal. lia.
      + apply Forall_forall. intros [j x] Hin.
        apply elem_of_lookup_imap in Hin as (j' & y & Heq & _).
        injection Heq as -> ->. cbn. lia.
    - rewrite filter_cons_True by (cbn; lia). cbn [fmap list_fmap delete list_delete].
      f_equal. specialize (IH (S i) k).
      replace (S i + k)%nat with (i + S k)%nat in IH by lia. exact IH. }
  exact (H docs 0%nat idx).
Qed.

Lemma candidates_length_eq idx docs :
  (idx < length docs)%nat -> length (candidates idx docs) = (length docs - 1)%nat.
Proof.
  intros Hidx. rewrite <- (length_fmap snd), candidates_delete.
  destruct (lookup_lt_is_Some_2 docs idx Hidx) as [d Hd].
  rewrite length_delete by eauto. lia.
Qed.

(** With one embedding per document, the rankings for all cut-offs are cuts
    of one list, the full ranking: it holds the record of every other
    document exactly once and is what a cut-off of [N - 1] or more returns;
    a cut-off [n >= 0] returns its first [n] records, and a negative cut-off
    [- m] returns it without its last [m] records. *)
Theorem topSimilar_cutoff
    (docs : list Document) (embs : list (list float)) (idx : nat) :
  (idx < length docs)%nat -> length embs = length docs ->
  exists hits : list (nat * Document),
    hits ≡ₚ candidates idx docs
    /\ hits.*2 ≡ₚ delete idx docs
    /\ length hits = (length docs - 1)%nat
    /\ (forall n, 0 <= n ->
          topSimilar idx docs embs n = Ok (take (Z.to_nat n) (map (entry_of embs idx) hits))
          /\ calculateSingleDocSimilarities idx docs embs n
             = Ok (take (Z.to_nat n) (map (entry_of embs idx) hits)))
    /\ (forall n, Z.of_nat (length docs) - 1 <= n ->
          topSimilar idx docs embs n = Ok (map (entry_of embs idx) hits))
    /\ (forall n, n < 0 ->
          topSimilar idx docs embs n
          = Ok (take (length docs - 1 - Z.to_nat (- n)) (map (entry_of embs idx) hits))).
Proof.
  intros Hidx Hlen.
  set (hits := Array_sort (rank_cmp embs idx) (candidates idx docs)).
  assert (Hperm : hits ≡ₚ candidates idx docs) by apply Array_sort_perm.
  assert (Hl : length hits = (length docs - 1)%nat).
  { unfold hits. now rewrite Array_sort_length, candidates_length_eq. }
  assert (Htop : forall n, topSimilar idx docs embs n
                           = Ok (Array_slice0 (map (entry_of embs idx) hits) n)).
  { intros n. rewrite topSimilar_ranked by assumption. unfold ranked. fold hits.
    now rewrite Array_slice0_map. }
  exists hits. split; [exact Hperm |].
  split; [rewrite <- candidates_delete; now apply fmap_Permutation |].
  split; [exact Hl |]. split; [| split].
  - intros n Hn. rewrite calculateSingleDocSimilarities_topSimilar, Htop.
    now rewrite Array_slice0_nonneg.
  - intros n Hn. rewrite Htop, Array_slice0_nonneg by lia.
    f_equal. apply take_ge. rewrite length_map. lia.
  - intros n Hn. rewrite Htop, Array_slice0_neg by assumption.
    now rewrite length_map, Hl.
Qed.

Lemma topSimilar_cutoff_witness :
  exists hits : list (nat * Document),
    hits ≡ₚ candidates 0 corpus3
    /\ hits.*2 ≡ₚ delete 0%nat corpus3
    /\ length hits = (length corpus3 - 1)%nat
    /\ (forall n, 0 <= n ->
          topSimilar 0 corpus3 embeddings3 n
          = Ok (take (Z.to_nat n) (map (entry_of embeddings3 0) hits))
          /\ calculateSingleDocSimilarities 0 corpus3 embeddings3 n
             = Ok (take (Z.to_nat n) (map (entry_of embeddings3 0) hits)))
    /\ (forall n, Z.of_nat (length corpus3) - 1 <= n ->
          topSimilar 0 corpus3 embeddings3 n = Ok (map (entry_of embeddings3 0) hits))
    /\ (forall n, n < 0 ->
          topSimilar 0 corpus3 embeddings3 n
          = Ok (take (length corpus3 - 1 - Z.to_nat (- n))
                     (map (entry_of embeddings3 0) hits))).
Proof.
  apply (topSimilar_cutoff corpus3 embeddings3 0).
  - cbn. lia.
  - reflexivity.
Defined.

(** ** The records kept are the best *)

(** With one embedding per document and no NaN among the scores, no
    document left out of a ranking scores higher than one that is in it. *)
Theorem topSimilar_keeps_the_best
    (docs : list Document) (embs : list (list float)) (idx : nat) (n : Z) :
  (idx < length docs)%nat -> length embs = length docs ->
  (forall j, (j < length docs)%nat -> j <> idx -> is_nan (scoreOf embs idx j) = false) ->
  exists hits : list (nat * Document),
    topSimilar idx docs embs n = Ok (map (entry_of embs idx) hits)
    /\ calculateSingleDocSimilarities idx docs embs n = Ok (map (entry_of embs idx) hits)
    /\ (forall j d p,
          docs !! j = Some d -> j <> idx -> (j, d) ∉ hits -> p ∈ hits ->
          (scoreOf embs idx j <=? scoreOf embs idx p.1)%float = true).
Proof.
  intros Hidx Hlen Hnum. exists (ranked embs idx docs n).
  rewrite calculateSingleDocSimilarities_topSimilar.
  rewrite (topSimilar_ranked idx docs embs n Hidx Hlen).
  split; [reflexivity |]. split; [reflexivity |].
  intros j d p Hj Hne Hout Hin. unfold ranked in Hout, Hin.
  set (sorted := Array_sort (rank_cmp embs idx) (candidates idx docs)) in *.
  destruct (Array_slice0_take sorted n) as [m Hm]. rewrite Hm in Hout, Hin.
  assert (Hs : StronglySorted (fun p q : nat * Document =>
                                 (scoreOf embs idx q.1 <=? scoreOf embs idx p.1)%float = true)
                              sorted).
  { apply (Array_sort_desc (fun p : nat * Document => scoreOf embs idx p.1)).
    rewrite Forall_forall. intros [j' d'] Hin'.
    apply elem_of_candidates in Hin' as [Hne' Hj']. cbn.
    apply Hnum; [| assumption]. eapply lookup_lt_Some, Hj'. }
  assert (Hcand : (j, d) ∈ sorted).
  { unfold sorted. rewrite (Array_sort_perm (rank_cmp embs idx)).
    now apply elem_of_candidates. }
  rewrite <- (take_drop m sorted) in Hs, Hcand.
  apply elem_of_app in Hcand as [Hcand | Hcand]; [contradiction |].
  exact (StronglySorted_app_1_elem_of _ _ _ p (j, d) Hs Hin Hcand).
Qed.

Lemma topSimilar_keeps_the_best_witness :
  exists hits : list (nat * Document),
    topSimilar 0 corpus3 embeddings3 1 = Ok (map (entry_of embeddings3 0) hits)
    /\ calculateSingleDocSimilarities 0 corpus3 embeddings3 1
       = Ok (map (entry_of embeddings3 0) hits)
    /\ (forall j d p,
          corpus3 !! j = Some d -> j <> 0%nat -> (j, d) ∉ hits -> p ∈ hits ->
          (scoreOf embeddings3 0 j <=? scoreOf embeddings3 0 p.1)%float = true).
Proof.
  apply (topSimilar_keeps_the_best corpus3 embeddings3 0 1).
  - cbn. lia.
  - reflexivity.
  - intros [| [| [| j]]] Hj Hne; [lia | vm_compute; reflexivity | vm_compute; reflexivity |].
    cbn in Hj. lia.
Defined.

(** ** Vectors of different lengths *)

Lemma is_nan_of_SF (x : float) : Prim2SF x = S754_nan -> is_nan x = true.
Proof.
  intros H. destruct (is_nan x) eqn:E; [reflexivity |].
  apply is_nan_spec in E. contradiction.
Qed.

Lemma float_add_nan_l (x y : float) : is_nan x = true -> is_nan (x + y) = true.
Proof.
  intros H. apply is_nan_true in H. apply is_nan_of_SF.
  rewrite FloatAxioms.add_spec, H. reflexivity.
Qed.

Lemma float_add_nan_r (x y : float) : is_nan y = true -> is_nan (x + y) = true.
Proof.
  intros H. apply is_nan_true in H. apply is_nan_of_SF.
  rewrite FloatAxioms.add_spec, H. now destruct (Prim2SF x).
Qed.

Lemma float_mul_nan_r (x y : float) : is_nan y = true -> is_nan (x * y) = true.
Proof.
  intros H. apply is_nan_true in H. apply is_nan_of_SF.
  rewrite FloatAxioms.mul_spec, H. now destruct (Prim2SF x).
Qed.

(** Once NaN, the sum stays NaN. *)
Lemma reduce_products_nan (b : list float) :
  forall l i acc, is_nan acc = true ->
    exists x, reduce_from (fun sum ai i => b' ← deref (Some b);
                                           Ok (sum + ai * num_at b' i)%float) i acc l = Ok x
              /\ is_nan x = true.
Proof.
  induction l as [| a l IH]; intros i acc Hacc; cbn [reduce_from deref]; [eauto |].
  rewrite !bind_Ok. apply IH. now apply float_add_nan_l.
Qed.

Lemma reduce_products_short (b : list float) :
  forall l i acc, (i <= length b < i + length l)%nat ->
    exists x, reduce_from (fun sum ai i => b' ← deref (Some b);
                                           Ok (sum + ai * num_at b' i)%float) i acc l = Ok x
              /\ is_nan x = true.
Proof.
  induction l as [| a l IH]; intros i acc Hi; cbn [length] in Hi; [lia |].
  cbn [reduce_from deref]. rewrite !bind_Ok.
  destruct (decide (i = length b)) as [-> | Hne].
  - apply reduce_products_nan. apply float_add_nan_r, float_mul_nan_r.
    unfold num_at. rewrite lookup_ge_None_2 by lia. reflexivity.
  - apply IH. lia.
Qed.

(** A second vector that is longer than the first has its surplus ignored;
    one that is shorter makes the product NaN, and the rounded score with it. *)
Theorem dot_length_mismatch (a b : list float) :
  ((length a <= length b)%nat ->
   dot (Some a) (Some b) = dot (Some a) (Some (take (length a) b))
   /\ cosineSimilarity (Some a) (Some b)
      = cosineSimilarity (Some a) (Some (take (length a) b)))
  /\ ((length b < length a)%nat ->
      exists x, dot (Some a) (Some b) = Ok x
                /\ cosineSimilarity (Some a) (Some b) = Ok x
                /\ is_nan x = true /\ is_nan (toFixed2 x) = true).
Proof.
  split.
  - intros Hlen. rewrite !cosineSimilarity_dot.
    assert (H : dot (Some a) (Some b) = dot (Some a) (Some (take (length a) b))).
    { unfold dot. cbn [deref]. rewrite !bind_Ok. apply reduce_from_ext.
      intros acc j x Hj. cbn [Nat.add]. rewrite !bind_Ok. unfold num_at.
      rewrite lookup_take_lt by (eapply lookup_lt_Some, Hj). reflexivity. }
    now rewrite H.
  - intros Hlen. rewrite cosineSimilarity_dot. unfold dot. cbn [deref]. rewrite bind_Ok.
    destruct (reduce_products_short b a 0%nat 0%float ltac:(lia)) as (x & Hx & Hnan).
    exists x. split; [exact Hx |]. split; [exact Hx |]. split; [exact Hnan |].
    unfold toFixed2. apply is_nan_true in Hnan as HSF. rewrite HSF. exact Hnan.
Qed.

Lemma dot_length_mismatch_witness :
  dot (Some [1; 2]%float) (Some [1; 2; 3]%float) = Ok 5%float
  /\ exists x, dot (Some [1; 2; 3]%float) (Some [1; 2]%float) = Ok x /\ is_nan x = true.
Proof.
  split.
  - rewrite (proj1 (proj1 (dot_length_mismatch [1; 2]%float [1; 2; 3]%float)
                          ltac:(cbn; lia))).
    reflexivity.
  - destruct (proj2 (dot_length_mismatch [1; 2; 3]%float [1; 2]%float) ltac:(cbn; lia))
      as (x & Hx & _ & Hnan & _).
    exists x. split; assumption.
Defined.

(** ** Loading *)

Lemma omap_sublist {A B} (f : A -> option B) (g : B -> A) (l : list A) :
  (forall x y, f x = Some y -> g y = x) -> sublist (g <$> omap f l) l.
Proof.
  intros Hfg. induction l as [| x l IH]; cbn; [constructor |].
  destruct (f x) as [y |] eqn:Hy; cbn.
  - rewrite (Hfg x y Hy). now apply sublist_skip.
  - now apply sublist_cons.
Qed.

Section Loaders.
Variable strip_markdown : string -> string.
Variable read_matter : string -> option (string * gmap string jsval).

Lemma processDocumentFile_spec filePath d :
  processDocumentFile strip_markdown read_matter filePath = Some d
  <-> path d = filePath
      /\ exists md, read_matter filePath = Some (md, frontmatter d)
                    /\ content d = getPlainText strip_markdown md
                    /\ (exists s, prop (frontmatter d) "slug" = VStr s /\ s <> "")
                    /\ prop (frontmatter d) "draft" <> VBool true.
Proof.
  unfold processDocumentFile. split.
  - destruct (read_matter filePath) as [[md fm] |]; [| discriminate].
    destruct (prop fm "slug") as [| | b | x | s | r] eqn:Hslug; cbn; try discriminate.
    destruct (String.eqb_spec s "") as [-> | Hne]; cbn; [discriminate |].
    destruct (is_true (prop fm "draft")) eqn:Hdraft; [discriminate |].
    intros [= <-]. cbn. split; [reflexivity |]. exists md.
    split; [reflexivity |]. split; [reflexivity |]. split; [rewrite Hslug; eauto |].
    intros Hd. rewrite Hd in Hdraft. discriminate.
  - intros (Hp & md & Hread & Hc & (s & Hslug & Hne) & Hdraft).
    rewrite Hread, Hslug. cbn.
    destruct (String.eqb_spec s "") as [-> | _]; [contradiction |]. cbn.
    destruct (prop (frontmatter d) "draft") as [| | [|] | | |]; cbn;
      try (destruct d; cbn in *; congruence).
Qed.

Lemma processFile_spec p d :
  processFile strip_markdown read_matter p = Some d
  <-> path d = p
      /\ exists md, read_matter p = Some (md, frontmatter d)
                    /\ content d = getPlainText strip_markdown md
                    /\ truthy (prop (frontmatter d) "slug") = true
                    /\ truthy (prop (frontmatter d) "draft") = false.
Proof.
  unfold processFile. split.
  - destruct (read_matter p) as [[md fm] |]; [| discriminate].
    destruct (truthy (prop fm "slug")) eqn:Hslug; cbn; [| discriminate].
    destruct (truthy (prop fm "draft")) eqn:Hdraft; [discriminate |].
    intros [= <-]. cbn. split; [reflexivity |]. exists md. auto.
  - intros (Hp & md & Hread & Hc & Hslug & Hdraft).
    rewrite Hread, Hslug, Hdraft. cbn. destruct d; cbn in *; congruence.
Qed.

End Loaders.

(** The first variant loads a file exactly when it can be read and parsed,
    its slug is a non-empty string and its draft flag is not [true]; the
    document has the file's path, front matter and plain text, and the
    documents come in the order of their files.  A file that cannot be read
    is skipped. *)
Theorem loadAllDocuments_spec
    (strip_markdown : string -> string)
    (read_matter : string -> option (string * gmap string jsval))
    (filePaths : list string) :
  (forall d, d ∈ loadAllDocuments strip_markdown read_matter filePaths
             <-> path d ∈ filePaths
                 /\ exists md, read_matter (path d) = Some (md, frontmatter d)
                               /\ content d = getPlainText strip_markdown md
                               /\ (exists s, prop (frontmatter d) "slug" = VStr s /\ s <> "")
                               /\ prop (frontmatter d) "draft" <> VBool true)
  /\ sublist (path <$> loadAllDocuments strip_markdown read_matter filePaths) filePaths.
Proof.
  split.
  - intros d. unfold loadAllDocuments. rewrite list_elem_of_omap. split.
    + intros (p & Hin & Hd). apply processDocumentFile_spec in Hd as (Hp & H).
      rewrite Hp. split; [exact Hin | exact H].
    + intros (Hin & H). exists (path d). split; [exact Hin |].
      apply processDocumentFile_spec. split; [reflexivity | exact H].
  - apply omap_sublist. intros p d Hd. now apply processDocumentFile_spec in Hd as [Hp _].
Qed.

(** The second variant loads a file exactly when it can be read and parsed,
    its slug is truthy and its draft flag is falsy. *)
Theorem loadDocs_spec
    (strip_markdown : string -> string)
    (read_matter : string -> option (string * gmap string jsval))
    (paths : list string) :
  (forall d, d ∈ loadDocs strip_markdown read_matter paths
             <-> path d ∈ paths
                 /\ exists md, read_matter (path d) = Some (md, frontmatter d)
                               /\ content d = getPlainText strip_markdown md
                               /\ truthy (prop (frontmatter d) "slug") = true
                               /\ truthy (prop (frontmatter d) "draft") = false)
  /\ sublist (path <$> loadDocs strip_markdown read_matter paths) paths.
Proof.
  split.
  - intros d. unfold loadDocs. rewrite list_elem_of_omap. split.
    + intros (p & Hin & Hd). apply processFile_spec in Hd as (Hp & H).
      rewrite Hp. split; [exact Hin | exact H].
    + intros (Hin & H). exists (path d). split; [exact Hin |].
      apply processFile_spec. split; [reflexivity | exact H].
  - apply omap_sublist. intros p d Hd. now apply processFile_spec in Hd as [Hp _].
Qed.

(** The two loaders return the same documents when every readable file has
    a slug that is a string or falsy and a draft flag that is [true] or
    falsy. *)
Theorem loaders_agree
    (strip_markdown : string -> string)
    (read_matter : string -> option (string * gmap string jsval))
    (paths : list string) :
  forallb (fun p => match read_matter p with
                    | Some (_, fm) => plain_front_matter fm
                    | None => true
                    end) paths = true ->
  loadDocs strip_markdown read_matter paths
  = loadAllDocuments strip_markdown read_matter paths.
Proof.
  intros Hplain. unfold loadDocs, loadAllDocuments.
  induction paths as [| p paths IH]; [reflexivity |].
  cbn [forallb] in Hplain. apply andb_prop in Hplain as [Hp Hplain].
  cbn [omap list_omap]. rewrite (IH Hplain).
  assert (Heq : processFile strip_markdown read_matter p
                = processDocumentFile strip_markdown read_matter p).
  { unfold processFile, processDocumentFile.
    destruct (read_matter p) as [[md fm] |]; [| reflexivity].
    unfold plain_front_matter in Hp.
    assert (Hdraft : is_string (prop fm "slug") = true -> truthy (prop fm "slug") = true ->
                     is_true (prop fm "draft") = truthy (prop fm "draft")).
    { intros H1 H2. rewrite H1 in Hp. cbn [orb andb] in Hp.
      destruct (is_true (prop fm "draft")) eqn:Hd.
      - destruct (prop fm "draft") as [| | [|] | | |]; try discriminate. reflexivity.
      - cbn [orb] in Hp. apply negb_true_iff in Hp. now rewrite Hp. }
    destruct (is_string (prop fm "slug")) eqn:Hs;
      destruct (truthy (prop fm "slug")) eqn:Ht; cbn [negb orb andb] in Hp |- *;
      try reflexivity; try discriminate.
    now rewrite Hdraft. }
  now rewrite Heq.
Qed.

Lemma loaders_agree_witness :
  loadDocs plain_prose two_posts_and_draft ["a.md"; "b.md"; "wip.md"; "none.md"]
  = loadAllDocuments plain_prose two_posts_and_draft ["a.md"; "b.md"; "wip.md"; "none.md"].
Proof.
  apply (loaders_agree plain_prose two_posts_and_draft ["a.md"; "b.md"; "wip.md"; "none.md"]).
  vm_compute. reflexivity.
Defined.

(** ** The rows of the model output *)

Lemma TypedArray_slice_row data i dim :
  TypedArray_slice data (i * dim) ((i + 1) * dim) = take dim (drop (i * dim) data).
Proof. unfold TypedArray_slice. f_equal. lia. Qed.

Lemma concat_rows (data : list float) (dim : nat) :
  forall n k,
    concat (map (fun i => take dim (drop (i * dim) data)) (seq k n))
    = take (n * dim) (drop (k * dim) data).
Proof.
  induction n as [| n IH]; intros k; cbn [seq map concat]; [reflexivity |].
  rewrite IH. replace (S n * dim)%nat with (dim + n * dim)%nat by lia.
  rewrite <- take_take_drop. f_equal. f_equal. rewrite drop_drop. f_equal. lia.
Qed.

Lemma rows_lookup {A} (f : nat -> A) n i :
  (i < n)%nat -> map f (seq 0 n) !! i = Some (f i).
Proof.
  intros Hi. change (map f (seq 0 n)) with (f <$> seq 0 n).
  rewrite list_lookup_fmap, lookup_seq_lt by assumption. reflexivity.
Qed.

(** When the model answers the texts of a non-empty corpus with as many
    rows as there are documents, [generateDocumentEmbeddings] returns one
    vector per document: the [i]-th is the [i]-th run of [dim] numbers of the
    flat output, so the vectors laid end to end are the first [N * dim]
    numbers of it, and each has [dim] elements when the output has that
    many numbers. *)
Theorem generateDocumentEmbeddings_rows
    (extractor : list string -> bool -> result EmbeddingOutput)
    (docs : list Document) (out : EmbeddingOutput) (dim : nat) (rest : list nat) :
  docs <> [] ->
  extractor (map content docs) true = Ok out ->
  dims out = Some (length docs :: dim :: rest) ->
  exists embs,
    generateDocumentEmbeddings extractor docs = Ok embs
    /\ length embs = length docs
    /\ (forall i, (i < length docs)%nat ->
                  embs !! i = Some (take dim (drop (i * dim) (data out))))
    /\ concat embs = take (length docs * dim) (data out)
    /\ ((length docs * dim <= length (data out))%nat ->
        Forall (fun v => length v = dim) embs).
Proof.
  intros Hne Hout Hdims. unfold generateDocumentEmbeddings.
  destruct docs as [| d docs']; [contradiction |]. set (docs := d :: docs') in *.
  change (length docs =? 0)%nat with false. cbv iota.
  rewrite Hout, bind_Ok, Hdims, Nat.eqb_refl. cbn [negb].
  eexists. split; [reflexivity |].
  split; [now rewrite length_map, length_seq |].
  split; [| split].
  - intros i Hi. rewrite rows_lookup by assumption. now rewrite TypedArray_slice_row.
  - erewrite map_ext; [| intros i; apply TypedArray_slice_row].
    rewrite concat_rows. now rewrite drop_0.
  - intros Hdata. apply Forall_forall. intros v Hv.
    apply list_elem_of_In, in_map_iff in Hv as (i & <- & Hi).
    apply in_seq in Hi. rewrite TypedArray_slice_row, length_take, length_drop.
    assert ((i + 1) * dim <= length docs * dim)%nat by (apply Nat.mul_le_mono_r; lia).
    lia.
Qed.

Lemma generateDocumentEmbeddings_rows_witness :
  exists embs,
    generateDocumentEmbeddings two_row_model [docA; docB] = Ok embs
    /\ length embs = length [docA; docB]
    /\ (forall i, (i < length [docA; docB])%nat ->
                  embs !! i = Some (take 2 (drop (i * 2) (map fround [1; 0; 0.8; 0.6]%float))))
    /\ concat embs = take (length [docA; docB] * 2) (map fround [1; 0; 0.8; 0.6]%float)
    /\ ((length [docA; docB] * 2 <= length (map fround [1; 0; 0.8; 0.6]%float))%nat ->
        Forall (fun v => length v = 2%nat) embs).
Proof.
  apply (generateDocumentEmbeddings_rows two_row_model [docA; docB]
           {| dims := Some [2%nat; 2%nat]; data := map fround [1; 0; 0.8; 0.6]%float |}
           2 []).
  - discriminate.
  - reflexivity.
  - reflexivity.
Defined.

(** ** The runs *)

Lemma ranked_length_eq embs idx docs (k : nat) :
  (idx < length docs)%nat ->
  length (ranked embs idx docs (Z.of_nat k)) = (k `min` (length docs - 1))%nat.
Proof.
  intros Hidx. unfold ranked.
  rewrite Array_slice0_length, Array_sort_length, candidates_length_eq by assumption.
  reflexivity.
Qed.

Section CorpusResult.
Variable Number_toString : float -> string.

(** What is stored under a key is the ranking of a document with that slug. *)
Lemma allSimilarities_lookup docs embs n m k hits :
  length embs = length docs ->
  allSimilarities Number_toString docs embs n = Ok m ->
  m !! k = Some hits ->
  exists i d, docs !! i = Some d /\ slug_key Number_toString d = k
              /\ hits = map (entry_of embs i) (ranked embs i docs n).
Proof.
  intros Hlen Hall Hk.
  rewrite (allSimilarities_entries Number_toString docs embs n Hlen) in Hall.
  injection Hall as <-.
  apply fromEntries_lookup_elem in Hk as [Hk | Hk]; [now rewrite lookup_empty in Hk |].
  apply elem_of_lookup_imap in Hk as (i & d & Heq & Hi).
  injection Heq as -> ->. eauto.
Qed.

Lemma allSimilarities_dom docs embs n m :
  length embs = length docs ->
  allSimilarities Number_toString docs embs n = Ok m ->
  dom m = list_to_set (slug_key Number_toString <$> docs).
Proof.
  intros Hlen Hall.
  rewrite (allSimilarities_entries Number_toString docs embs n Hlen) in Hall.
  injection Hall as <-. unfold Object_fromEntries.
  rewrite fromEntries_dom, dom_empty_L.
  rewrite (entries_keys Number_toString) by reflexivity. set_solver.
Qed.

(** Embeddings beyond the last document are never read. *)
Lemma topSimilar_take idx docs embs n :
  (idx < length docs)%nat ->
  topSimilar idx docs (take (length docs) embs) n = topSimilar idx docs embs n.
Proof.
  intros Hidx. unfold topSimilar. f_equal. apply map_from_ext.
  intros j d Hj. cbn [Nat.add]. apply lookup_lt_Some in Hj.
  now rewrite !lookup_take_lt by assumption.
Qed.

Lemma allSimilarities_take docs embs n :
  allSimilarities Number_toString docs (take (length docs) embs) n
  = allSimilarities Number_toString docs embs n.
Proof.
  unfold allSimilarities. f_equal. apply map_from_ext.
  intros j d Hj. cbn [Nat.add]. rewrite topSimilar_take; [reflexivity |].
  eapply lookup_lt_Some, Hj.
Qed.

(** Fewer embeddings than documents: some ranking misses its source vector. *)
Lemma allSimilarities_short docs embs n :
  (0 < length embs < length docs)%nat ->
  allSimilarities Number_toString docs embs n = Throw TypeError.
Proof.
  intros Hlen. unfold allSimilarities.
  match goal with |- context [map_from ?f 0%nat docs] => set (g := f) end.
  destruct (map_from g 0%nat docs) as [entries | e] eqn:Hmap.
  - exfalso.
    destruct (lookup_lt_is_Some_2 docs (length docs - 1) ltac:(lia)) as [d Hd].
    destruct (lookup_lt_is_Some_2 docs 0 ltac:(lia)) as [d0 Hd0].
    destruct (map_from_Ok_inv g docs 0%nat entries Hmap _ d Hd) as [y Hy].
    unfold g in Hy. cbn [Nat.add] in Hy.
    rewrite topSimilar_missing in Hy; [discriminate |].
    exists 0%nat, d0. split; [exact Hd0 |]. split; [lia |]. left.
    apply lookup_ge_None_2. lia.
  - rewrite bind_Throw. f_equal.
    apply map_from_Throw_inv in Hmap as (j & d & _ & Hthrow).
    unfold g in Hthrow.
    destruct (topSimilar (0 + j) docs embs n) as [top | e'] eqn:Htop; [discriminate |].
    rewrite bind_Throw in Hthrow. injection Hthrow as <-.
    now apply topSimilar_Throw_inv in Htop as [-> _].
Qed.

End CorpusResult.

Lemma omap_nil_length {A B} (f : A -> option B) (l : list A) :
  omap f l <> [] -> (length l =? 0)%nat = false.
Proof. destruct l; [contradiction | reflexivity]. Qed.

Lemma length_eqb_0 {A} (l : list A) : l <> [] -> (length l =? 0)%nat = false.
Proof. destruct l; [contradiction | reflexivity]. Qed.



(** With at least as many rows as documents the second variant comes to
    write a result.  [embedDocs] returns as many vectors as the output has
    rows, each the normalised run of [dim] numbers; the rows beyond the last
    document are never read; the keys of the result are the slugs of the
    documents and every list has [min 5 (N - 1)] records. *)
Theorem main_saves
    (strip_markdown : string -> string)
    (read_matter : string -> option (string * gmap string jsval))
    (extractor : list string -> bool -> result EmbeddingOutput)
    (Math_hypot : list float -> float)
    (Number_toString : float -> string)
    (files : list string) (out : EmbeddingOutput) (n dim : nat) (rest : list nat) :
  let docs := loadDocs strip_markdown read_matter files in
  docs <> [] ->
  extractor (map content docs) false = Ok out ->
  dims out = Some (n :: dim :: rest) ->
  (length docs <= n)%nat ->
  exists embs results,
    embedDocs extractor Math_hypot docs = Ok embs
    /\ length embs = n
    /\ (forall i, (i < n)%nat ->
          embs !! i = Some (normalize Math_hypot (take dim (drop (i * dim) (data out)))))
    /\ main strip_markdown read_matter extractor Math_hypot Number_toString files
       = Saved results
    /\ allSimilarities Number_toString docs (take (length docs) embs) TOP_N = Ok results
    /\ dom results = list_to_set (slug_key Number_toString <$> docs)
    /\ (forall k hits, results !! k = Some hits ->
                       length hits = (5 `min` (length docs - 1))%nat).
Proof.
  intros docs Hne Hout Hdims Hn.
  set (embs := map (fun i => normalize Math_hypot
                               (TypedArray_slice (data out) (i * dim) ((i + 1) * dim)))
                   (seq 0 n)).
  assert (Hlen : length embs = n) by (unfold embs; now rewrite length_map, length_seq).
  assert (Hemb : embedDocs extractor Math_hypot docs = Ok embs).
  { unfold embedDocs. now rewrite (length_eqb_0 docs Hne), Hout, bind_Ok, Hdims. }
  assert (Hlen' : length (take (length docs) embs) = length docs)
    by (rewrite length_take; lia).
  pose proof (allSimilarities_entries Number_toString docs _ TOP_N Hlen') as Hall.
  eexists embs, _. split; [exact Hemb |]. split; [exact Hlen |].
  split; [| split; [| split; [exact Hall | split]]].
  - intros i Hi. unfold embs. rewrite rows_lookup by assumption.
    now rewrite TypedArray_slice_row.
  - unfold main. fold docs.
    rewrite (omap_nil_length _ files Hne), (length_eqb_0 docs Hne), Hemb.
    rewrite (length_eqb_0 embs)
      by (intros E; rewrite E in Hlen; destruct docs; [contradiction | cbn in *; lia]).
    rewrite <- allSimilarities_take. now rewrite Hall.
  - now apply (allSimilarities_dom _ _ _ _ _ Hlen' Hall).
  - intros k hits Hk.
    destruct (allSimilarities_lookup _ _ _ _ _ _ _ Hlen' Hall Hk) as (i & d & Hi & _ & ->).
    rewrite length_map. apply (ranked_length_eq _ i docs 5).
    eapply lookup_lt_Some, Hi.
Qed.

Lemma main_saves_witness :
  exists results,
    main id two_posts_and_draft three_row_model sqrt_of_squares no_numbers
      ["a.md"; "b.md"; "wip.md"] = Saved results
    /\ dom results = {[ "A"; "B" ]}
    /\ (forall k hits, results !! k = Some hits -> length hits = 1%nat).
Proof.
  destruct (main_saves id two_posts_and_draft three_row_model sqrt_of_squares no_numbers
              ["a.md"; "b.md"; "wip.md"]
              {| dims := Some [3%nat; 2%nat];
                 data := map fround [1; 0; 0.8; 0.6; -1; 0]%float |}
              3 2 [])
    as (embs & results & _ & _ & _ & Hmain & _ & Hdom & Hlen).
  - vm_compute. discriminate.
  - reflexivity.
  - reflexivity.
  - vm_compute. lia.
  - exists results. split; [exact Hmain |]. split; [| exact Hlen].
    rewrite Hdom. vm_compute. reflexivity.
Defined.

(** ** What a record holds *)

Lemma similarityEntry_similarity d s :
  similarityEntry d s !! "similarity" = Some (VNum s).
Proof. unfold similarityEntry. apply lookup_insert_eq. Qed.

Lemma similarityEntry_other d s k :
  k <> "path" -> k <> "similarity" -> similarityEntry d s !! k = frontmatter d !! k.
Proof.
  intros H1 H2. unfold similarityEntry. now rewrite !lookup_insert_ne by congruence.
Qed.

(** With one embedding per document, every record of a ranking is made from
    another document of the corpus: its [path] is the document's path, its
    [similarity] the rounded product of the two vectors, and every other
    property is the document's front matter property, so a front matter
    [path] or [similarity] is overwritten. *)
Theorem ranking_records
    (docs : list Document) (embs : list (list float)) (idx : nat) (n : Z) :
  (idx < length docs)%nat -> length embs = length docs ->
  exists top,
    topSimilar idx docs embs n = Ok top
    /\ calculateSingleDocSimilarities idx docs embs n = Ok top
    /\ forall r, r ∈ top ->
         exists j d s,
           docs !! j = Some d /\ j <> idx
           /\ dot (embs !! idx) (embs !! j) = Ok s
           /\ r !! "path" = Some (VStr (path d))
           /\ r !! "similarity" = Some (VNum (toFixed2 s))
           /\ (forall k, k <> "path" -> k <> "similarity" -> r !! k = frontmatter d !! k).
Proof.
  intros Hidx Hlen. exists (map (entry_of embs idx) (ranked embs idx docs n)).
  rewrite calculateSingleDocSimilarities_topSimilar.
  rewrite (topSimilar_ranked idx docs embs n Hidx Hlen).
  split; [reflexivity |]. split; [reflexivity |].
  intros r Hr. apply list_elem_of_fmap in Hr as ([j d] & -> & Hin).
  apply ranked_elem in Hin as [Hne Hj].
  destruct (scoreOf_dot embs idx j ltac:(lia)
              ltac:(rewrite Hlen; eapply lookup_lt_Some, Hj)) as (s & Hs & Hscore).
  exists j, d, s. unfold entry_of. cbn [fst snd]. rewrite Hscore.
  split; [exact Hj |]. split; [exact Hne |]. split; [exact Hs |].
  split; [| split; [apply similarityEntry_similarity | apply similarityEntry_other]].
  pose proof (similarityEntry_path d (toFixed2 s)) as Hp. unfold prop in Hp.
  destruct (similarityEntry d (toFixed2 s) !! "path") as [v |] eqn:E; cbn in Hp;
    [now rewrite Hp | discriminate].
Qed.

Lemma ranking_records_witness :
  exists top,
    topSimilar 0 corpus3 embeddings3 2 = Ok top
    /\ calculateSingleDocSimilarities 0 corpus3 embeddings3 2 = Ok top
    /\ forall r, r ∈ top ->
         exists j d s,
           corpus3 !! j = Some d /\ j <> 0%nat
           /\ dot (embeddings3 !! 0%nat) (embeddings3 !! j) = Ok s
           /\ r !! "path" = Some (VStr (path d))
           /\ r !! "similarity" = Some (VNum (toFixed2 s))
           /\ (forall k, k <> "path" -> k <> "similarity" -> r !! k = frontmatter d !! k).
Proof.
  apply (ranking_records corpus3 embeddings3 0 2).
  - cbn. lia.
  - reflexivity.
Defined.

(** ** Similarity is mutual *)

(** With one embedding per document and two vectors of the same length,
    each of the two documents is in the other's full ranking, with the same
    similarity. *)
Theorem similarity_is_mutual
    (docs : list Document) (embs : list (list float)) (i j : nat) (di dj : Document)
    (a b : list float) (n : Z) :
  length embs = length docs ->
  docs !! i = Some di -> docs !! j = Some dj -> i <> j ->
  embs !! i = Some a -> embs !! j = Some b -> length a = length b ->
  Z.of_nat (length docs) - 1 <= n ->
  exists top_i top_j s,
    topSimilar i docs embs n = Ok top_i
    /\ topSimilar j docs embs n = Ok top_j
    /\ dot (Some a) (Some b) = Ok s
    /\ similarityEntry dj (toFixed2 s) ∈ top_i
    /\ similarityEntry di (toFixed2 s) ∈ top_j.
Proof.
  intros Hlen Hi Hj Hne Ha Hb Hab Hn.
  assert (Hfull : forall idx, (idx < length docs)%nat ->
            topSimilar idx docs embs n
            = Ok (map (entry_of embs idx)
                      (Array_sort (rank_cmp embs idx) (candidates idx docs)))).
  { intros idx Hidx. rewrite topSimilar_ranked by assumption. unfold ranked.
    rewrite Array_slice0_nonneg by lia. do 2 f_equal. apply take_ge.
    rewrite Array_sort_length.
    pose proof (candidates_length idx docs Hidx). lia. }
  destruct (dot_defined a b) as [s Hs].
  assert (Hs' : dot (Some b) (Some a) = Ok s) by (rewrite <- Hs; now apply dot_symmetric).
  eexists _, _, s.
  split; [apply Hfull; eapply lookup_lt_Some, Hi |].
  split; [apply Hfull; eapply lookup_lt_Some, Hj |].
  split; [exact Hs |]. split.
  - apply list_elem_of_fmap. exists (j, dj). split.
    + unfold entry_of, scoreOf. cbn [fst snd]. now rewrite Ha, Hb, Hs.
    + rewrite (Array_sort_perm (rank_cmp embs i)). apply elem_of_candidates. auto.
  - apply list_elem_of_fmap. exists (i, di). split.
    + unfold entry_of, scoreOf. cbn [fst snd]. now rewrite Ha, Hb, Hs'.
    + rewrite (Array_sort_perm (rank_cmp embs j)). apply elem_of_candidates. auto.
Qed.

Lemma similarity_is_mutual_witness :
  exists top_i top_j s,
    topSimilar 0 corpus3 embeddings3 5 = Ok top_i
    /\ topSimilar 1 corpus3 embeddings3 5 = Ok top_j
    /\ dot (Some (map fround [1; 0]%float)) (Some (map fround [0.8; 0.6]%float)) = Ok s
    /\ similarityEntry docB (toFixed2 s) ∈ top_i
    /\ similarityEntry docA (toFixed2 s) ∈ top_j.
Proof.
  apply (similarity_is_mutual corpus3 embeddings3 0 1 docA docB
           (map fround [1; 0]%float) (map fround [0.8; 0.6]%float) 5).
  - reflexivity.
  - reflexivity.
  - reflexivity.
  - discriminate.
  - reflexivity.
  - reflexivity.
  - reflexivity.
  - vm_compute. discriminate.
Defined.



(** How the second variant stops short of a result.  It returns early
    exactly when no document loads or the model output has no first
    dimension, or a first dimension of zero.  It ends in its [catch] exactly
    when the model throws, or, with a [TypeError], when the output has no
    [dims] or fewer rows than there are documents: the rows are not compared
    with the documents before the similarities are computed. *)
Theorem main_stops
    (strip_markdown : string -> string)
    (read_matter : string -> option (string * gmap string jsval))
    (extractor : list string -> bool -> result EmbeddingOutput)
    (Math_hypot : list float -> float)
    (Number_toString : float -> string)
    (files : list string) :
  let docs := loadDocs strip_markdown read_matter files in
  let run := main strip_markdown read_matter extractor Math_hypot Number_toString files in
  (run = Exited
   <-> docs = []
       \/ exists out ds, extractor (map content docs) false = Ok out
                         /\ dims out = Some ds /\ default 0%nat (ds !! 0%nat) = 0%nat)
  /\ (forall e, run = Failed e
                <-> docs <> []
                    /\ (extractor (map content docs) false = Throw e
                        \/ e = TypeError
                           /\ exists out, extractor (map content docs) false = Ok out
                                /\ (dims out = None
                                    \/ exists n ds, dims out = Some (n :: ds)
                                                    /\ (0 < n < length docs)%nat))).
Proof.
  intros docs run. subst run. unfold main. fold docs.
  assert (Hfiles : docs <> [] -> (length files =? 0)%nat = false)
    by apply omap_nil_length.
  clearbody docs. destruct docs as [| d docs'].
  { split.
    - split; [now left |]. intros _. now destruct (length files =? 0)%nat.
    - intros e. split; [now destruct (length files =? 0)%nat | now intros [H _]]. }
  set (docs := d :: docs') in *.
  assert (Hne : docs <> []) by discriminate.
  rewrite (Hfiles Hne), (length_eqb_0 docs Hne).
  unfold embedDocs. rewrite (length_eqb_0 docs Hne).
  destruct (extractor (map content docs) false) as [out | e0] eqn:Hout.
  - rewrite bind_Ok. destruct (dims out) as [ds |] eqn:Hdims; cbn [deref].
    + rewrite bind_Ok. cbv zeta.
      set (n := default 0%nat (ds !! 0%nat)).
      match goal with
      | |- context [allSimilarities _ _ (map ?f (seq 0 n))] => set (embs := map f (seq 0 n))
      end.
      assert (Hlen : length embs = n) by (unfold embs; now rewrite length_map, length_seq).
      destruct n as [| n'] eqn:Hn.
      * destruct embs; [| discriminate]. cbn [length Nat.eqb]. split.
        -- split; [| reflexivity]. intros _. right. exists out, ds. auto.
        -- intros e. split; [discriminate |].
           intros [_ [[=] | [_ (out' & [= <-] & [H | (m & ds' & H & Hm)])]]].
           ++ congruence.
           ++ rewrite Hdims in H. injection H as ->. cbn in Hn. lia.
      * rewrite (length_eqb_0 embs) by (intros E; rewrite E in Hlen; discriminate).
        assert (Hds : exists ds', ds = S n' :: ds').
        { unfold n in Hn. destruct ds as [| m ds']; [discriminate |].
          cbn in Hn. subst m. eauto. }
        destruct Hds as [ds' ->].
        assert (Hnot_exit : ~ (docs = []
                  \/ exists out0 ds0, Ok out = Ok out0 /\ dims out0 = Some ds0
                                      /\ default 0%nat (ds0 !! 0%nat) = 0%nat)).
        { intros [H | (out0 & ds0 & [= <-] & H1 & H2)]; [contradiction |].
          rewrite Hdims in H1. injection H1 as <-. discriminate. }
        destruct (le_lt_dec (length docs) (S n')) as [Hge | Hlt].
        -- assert (Hlen' : length (take (length docs) embs) = length docs)
             by (rewrite length_take; lia).
           pose proof (allSimilarities_entries Number_toString docs _ TOP_N Hlen') as Hall.
           rewrite allSimilarities_take in Hall. rewrite Hall. split.
           ++ split; [discriminate | intros H; contradiction].
           ++ intros e. split; [discriminate |].
              intros [_ [[=] | [_ (out' & [= <-] & [H | (m & ds0 & H & Hm)])]]].
              ** congruence.
              ** rewrite Hdims in H. injection H as <- <-. lia.
        -- rewrite allSimilarities_short by lia. split.
           ++ split; [discriminate | intros H; contradiction].
           ++ intros e. split.
              ** intros [= <-]. split; [exact Hne |]. right. split; [reflexivity |].
                 exists out. split; [reflexivity |]. right. exists (S n'), ds'.
                 split; [exact Hdims | lia].
              ** intros [_ [[=] | [-> _]]]. reflexivity.
    + rewrite bind_Throw. split.
      * split; [discriminate |].
        intros [H | (out' & ds & [= <-] & H & _)]; [contradiction | congruence].
      * intros e. split.
        -- intros [= <-]. split; [exact Hne |]. right. split; [reflexivity |].
           exists out. split; [reflexivity | now left].
        -- intros [_ [[=] | [-> _]]]. reflexivity.
  - rewrite bind_Throw. split.
    + split; [discriminate |]. intros [H | (out' & ds & [=] & _)]. contradiction.
    + intros e. split.
      * intros [= ->]. split; [exact Hne | now left].
      * intros [_ [[= ->] | [_ (out' & [=] & _)]]]. reflexivity.
Qed.

Lemma main_stops_witness :
  main id two_posts_and_draft one_row_model sqrt_of_squares no_numbers
    ["a.md"; "b.md"; "wip.md"] = Failed TypeError
  /\ main id two_posts_and_draft no_dims_model sqrt_of_squares no_numbers
       ["a.md"; "b.md"; "wip.md"] = Failed TypeError
  /\ runSimilarityAnalysis id two_posts_and_draft one_row_model no_numbers
       ["a.md"; "b.md"; "wip.md"] = Exited.
Proof.
  split; [| split; [| reflexivity]].
  - apply (proj2 (main_stops id two_posts_and_draft one_row_model sqrt_of_squares
                    no_numbers ["a.md"; "b.md"; "wip.md"]) TypeError).
    split; [vm_compute; discriminate |]. right. split; [reflexivity |].
    exists {| dims := Some [1%nat; 2%nat]; data := map fround [1; 0]%float |}.
    split; [reflexivity |]. right. exists 1%nat, [2%nat].
    split; [reflexivity | vm_compute; lia].
  - apply (proj2 (main_stops id two_posts_and_draft no_dims_model sqrt_of_squares
                    no_numbers ["a.md"; "b.md"; "wip.md"]) TypeError).
    split; [vm_compute; discriminate |]. right. split; [reflexivity |].
    exists {| dims := None; data := map fround [1; 0]%float |}.
    split; [reflexivity | now left].
Defined.
